(** * The single-active-video feed screen (VideoScroll)

    A shallow embedding of the feed screen of the short-video client:
    the React state of [VideoScroll], its two hooks [useVideoState] and
    [useInteractionState], the like / bookmark handlers, the interaction
    initialisation, the edit-save handler, the viewability handler, the
    memoised player component and the teardown effect; then the edit
    session of the feed (sheet, modal, draft, geocoding, save) and the
    upload screen of the same file ([Videos]: picking a video, locating
    it, uploading it).

    Conventions of the embedding.
    - A JS object that is compared by reference carries its heap identity
      ([FeedEntry.obj]); an object literal or spread allocates a fresh one.
    - A JS [number] used as a counter is a [Z]; a coordinate is an IEEE
      double ([float]) that the code only copies.
    - A property that may be absent ([undefined] or [null]) is an [option].
    - A JS string is held as its UTF-8 encoding.
    - An [await] is a suspension point: the part of an async function up to
      the [await] and the part after it are separate functions, and the
      answer of the collaborator is an argument of the second one.
    - [Platform.OS] and, on the web, what the browser does with [autoPlay]
      are fixed for a run and held by the world ([host]). *)

From Stdlib Require Import ZArith Floats.
From stdpp Require Import gmap strings list fin_maps.

Local Open Scope string_scope.
Local Open Scope list_scope.
Local Open Scope Z_scope.

(** ** Data model *)

Module Video.
(** [interface Video]. *)
Record t := mk {
  id : string;
  title : string;
  description : string;
  video_url : string;
  user_id : string;
  created_at : string;
  like_count : Z;
  bookmark_count : option Z;
  address : option string;
  latitude : option float;
  longitude : option float;
}.
End Video.

Module VideoUser.
(** [interface VideoUser]. *)
Record t := mk { username : string; avatar_url : option string }.
End VideoUser.

Module FeedEntry.
(** [Video & { user: VideoUser }], an element of the [videos] array,
    together with the identity of the object. *)
Record t := mk { obj : nat; video : Video.t; user : VideoUser.t }.
End FeedEntry.

Module VideoInteraction.
(** [interface VideoInteraction]; a spread of an absent entry leaves a
    field undefined. *)
Record t := mk { isLiked : option bool; isBookmarked : option bool }.
End VideoInteraction.

Module EditVideoData.
(** [interface EditVideoData]. *)
Record t := mk {
  id : string;
  title : string;
  description : string;
  address : string;
  latitude : option float;
  longitude : option float;
}.
End EditVideoData.

(** Truthiness of a possibly undefined boolean. *)
Definition truthy (b : option bool) : bool := default false b.

(** [n || d] on a possibly undefined counter: [undefined] and [0] are falsy. *)
Definition or_default (n : option Z) (d : Z) : Z :=
  match n with
  | Some k => if (k =? 0)%Z then d else k
  | None => d
  end.

(** ** The hooks *)

(** A player handle: the element behind a [ref], named by the position of
    its cell in the list. *)
Definition handle := nat.

(** State held by one call site of [useVideoState]. *)
Record VideoState := mkVideoState {
  currentIndex : Z;
  isMuted : bool;
  videoRefs : gmap string handle;
}.

Definition useVideoState : VideoState :=
  {| currentIndex := 0; isMuted := false; videoRefs := ∅ |}.

(** State held by [useInteractionState]. *)
Record InteractionState := mkInteractionState {
  interactions : gmap string VideoInteraction.t;
  expandedDescriptions : gmap string bool;
  bottomSheetVisible : bool;
  editModalVisible : bool;
  editVideoData : option EditVideoData.t;
  locationLoading : bool;
  locationError : option string;
  saving : bool;
}.

Definition useInteractionState : InteractionState :=
  {| interactions := ∅; expandedDescriptions := ∅;
     bottomSheetVisible := false; editModalVisible := false;
     editVideoData := None; locationLoading := false;
     locationError := None; saving := false |}.

(** The React state of [VideoScroll]; [heap] is the next free object
    identity. *)
Record Screen := mkScreen {
  videos : list FeedEntry.t;
  loading : bool;
  error : option string;
  currentUserId : option string;
  videoState : VideoState;
  interactionState : InteractionState;
  heap : nat;
}.

Definition VideoScroll : Screen :=
  {| videos := []; loading := true; error := None; currentUserId := None;
     videoState := useVideoState; interactionState := useInteractionState;
     heap := 0%nat |}.

(** State setters. *)
Definition setVideos (vs : list FeedEntry.t) (h : nat) (s : Screen) : Screen :=
  mkScreen vs (loading s) (error s) (currentUserId s) (videoState s)
           (interactionState s) h.

Definition setLoading (b : bool) (s : Screen) : Screen :=
  mkScreen (videos s) b (error s) (currentUserId s) (videoState s)
           (interactionState s) (heap s).

Definition setError (e : option string) (s : Screen) : Screen :=
  mkScreen (videos s) (loading s) e (currentUserId s) (videoState s)
           (interactionState s) (heap s).

Definition setCurrentUserId (u : string) (s : Screen) : Screen :=
  mkScreen (videos s) (loading s) (error s) (Some u) (videoState s)
           (interactionState s) (heap s).

Definition with_videoState (f : VideoState → VideoState) (s : Screen) : Screen :=
  mkScreen (videos s) (loading s) (error s) (currentUserId s)
           (f (videoState s)) (interactionState s) (heap s).

Definition with_interactionState (f : InteractionState → InteractionState)
    (s : Screen) : Screen :=
  mkScreen (videos s) (loading s) (error s) (currentUserId s) (videoState s)
           (f (interactionState s)) (heap s).

Definition setCurrentIndex (i : Z) : Screen → Screen :=
  with_videoState (λ v, mkVideoState i (isMuted v) (videoRefs v)).

Definition setIsMuted (b : bool) : Screen → Screen :=
  with_videoState (λ v, mkVideoState (currentIndex v) b (videoRefs v)).

Definition setInteractions
    (f : gmap string VideoInteraction.t → gmap string VideoInteraction.t) :
    Screen → Screen :=
  with_interactionState (λ i,
    mkInteractionState (f (interactions i)) (expandedDescriptions i)
      (bottomSheetVisible i) (editModalVisible i) (editVideoData i)
      (locationLoading i) (locationError i) (saving i)).

Definition setEditModalVisible (b : bool) : Screen → Screen :=
  with_interactionState (λ i,
    mkInteractionState (interactions i) (expandedDescriptions i)
      (bottomSheetVisible i) b (editVideoData i)
      (locationLoading i) (locationError i) (saving i)).

Definition setLocationError (e : option string) : Screen → Screen :=
  with_interactionState (λ i,
    mkInteractionState (interactions i) (expandedDescriptions i)
      (bottomSheetVisible i) (editModalVisible i) (editVideoData i)
      (locationLoading i) e (saving i)).

Definition setSaving (b : bool) : Screen → Screen :=
  with_interactionState (λ i,
    mkInteractionState (interactions i) (expandedDescriptions i)
      (bottomSheetVisible i) (editModalVisible i) (editVideoData i)
      (locationLoading i) (locationError i) b).

(** ** Requests sent to the collaborators *)

Inductive Request :=
| AuthGetUser
| DeleteFrom (table video_id user_id : string)
| InsertInto (table video_id user_id : string)
| SelectVideoIds (table user_id : string) (video_ids : list string)
| SelectVideos
| SelectProfile (user_id : string)
| InsertProfile (user_id username : string)
| UpdateVideo (id : string) (patch : EditVideoData.t).

(** ** [prev.map(video => video.id === videoId ? {...video, ...} : video)] *)

(** The callback either returns its argument or a fresh copy with the
    [Video] fields changed by [patch]. *)
Fixpoint map_patch (videoId : string) (patch : Video.t → Video.t)
    (h : nat) (prev : list FeedEntry.t) : list FeedEntry.t * nat :=
  match prev with
  | [] => ([], h)
  | e :: rest =>
      if String.eqb (Video.id (FeedEntry.video e)) videoId
      then let '(rest', h') := map_patch videoId patch (S h) rest in
           (FeedEntry.mk h (patch (FeedEntry.video e)) (FeedEntry.user e) :: rest', h')
      else let '(rest', h') := map_patch videoId patch h rest in
           (e :: rest', h')
  end.

Definition patchVideos (videoId : string) (patch : Video.t → Video.t)
    (s : Screen) : Screen :=
  let '(vs, h) := map_patch videoId patch (heap s) (videos s) in
  setVideos vs h s.

Definition set_like_count (k : Z) (v : Video.t) : Video.t :=
  Video.mk (Video.id v) (Video.title v) (Video.description v)
    (Video.video_url v) (Video.user_id v) (Video.created_at v)
    k (Video.bookmark_count v) (Video.address v)
    (Video.latitude v) (Video.longitude v).

Definition set_bookmark_count (k : Z) (v : Video.t) : Video.t :=
  Video.mk (Video.id v) (Video.title v) (Video.description v)
    (Video.video_url v) (Video.user_id v) (Video.created_at v)
    (Video.like_count v) (Some k) (Video.address v)
    (Video.latitude v) (Video.longitude v).

(** ** Interaction store: [handleLike] and [handleBookmark] *)

(** [interactionState.interactions[videoId]?.isLiked]. *)
Definition read_isLiked (m : gmap string VideoInteraction.t) (videoId : string) :
    option bool :=
  m !! videoId ≫= VideoInteraction.isLiked.

Definition read_isBookmarked (m : gmap string VideoInteraction.t)
    (videoId : string) : option bool :=
  m !! videoId ≫= VideoInteraction.isBookmarked.

Inductive Kind := Like | Bookmark.

(** A call of a handler that is suspended at one of its two [await]s.  The
    callback closes over the [interactions] of the render that created it. *)
Inductive Task :=
| AwaitUser (k : Kind) (videoId : string)
            (closure : gmap string VideoInteraction.t)
| AwaitMutation (k : Kind) (videoId : string) (flag : option bool)
| Settled.

(** [handleLike], up to [await supabase.auth.getUser()]. *)
Definition handleLike_call (s : Screen) (videoId : string) : Task * list Request :=
  (AwaitUser Like videoId (interactions (interactionState s)), [AuthGetUser]).

(** [handleLike], from the answer of [getUser] to the awaited mutation. *)
Definition handleLike_user (closure : gmap string VideoInteraction.t)
    (videoId : string) (user : option string) : Task * list Request :=
  match user with
  | None => (Settled, [])
  | Some uid =>
      let isLiked := read_isLiked closure videoId in
      if truthy isLiked
      then (AwaitMutation Like videoId isLiked,
            [DeleteFrom "video_likes" videoId uid])
      else (AwaitMutation Like videoId isLiked,
            [InsertInto "video_likes" videoId uid])
  end.

(** [handleLike], from the answer of the mutation to the end.  An [error]
    is thrown and caught by the handler's own [catch], which only logs. *)
Definition handleLike_settle (videoId : string) (isLiked : option bool)
    (error : option string) (s : Screen) : Screen :=
  match error with
  | Some _ => s
  | None =>
      let s1 :=
        if truthy isLiked
        then patchVideos videoId
               (λ v, set_like_count (Video.like_count v - 1) v) s
        else patchVideos videoId
               (λ v, set_like_count (Video.like_count v + 1) v) s in
      setInteractions (λ prev,
        <[videoId := VideoInteraction.mk (Some (negb (truthy isLiked)))
                       (read_isBookmarked prev videoId)]> prev) s1
  end.

(** [handleBookmark], in the same three pieces. *)
Definition handleBookmark_call (s : Screen) (videoId : string) :
    Task * list Request :=
  (AwaitUser Bookmark videoId (interactions (interactionState s)), [AuthGetUser]).

Definition handleBookmark_user (closure : gmap string VideoInteraction.t)
    (videoId : string) (user : option string) : Task * list Request :=
  match user with
  | None => (Settled, [])
  | Some uid =>
      let isBookmarked := read_isBookmarked closure videoId in
      if truthy isBookmarked
      then (AwaitMutation Bookmark videoId isBookmarked,
            [DeleteFrom "video_bookmarks" videoId uid])
      else (AwaitMutation Bookmark videoId isBookmarked,
            [InsertInto "video_bookmarks" videoId uid])
  end.

Definition handleBookmark_settle (videoId : string) (isBookmarked : option bool)
    (error : option string) (s : Screen) : Screen :=
  match error with
  | Some _ => s
  | None =>
      let s1 :=
        if truthy isBookmarked
        then patchVideos videoId
               (λ v, set_bookmark_count
                       (or_default (Video.bookmark_count v) 1 - 1) v) s
        else patchVideos videoId
               (λ v, set_bookmark_count
                       (or_default (Video.bookmark_count v) 0 + 1) v) s in
      setInteractions (λ prev,
        <[videoId := VideoInteraction.mk (read_isLiked prev videoId)
                       (Some (negb (truthy isBookmarked)))]> prev) s1
  end.

(** ** Where the screen runs *)

(** [Platform.OS === 'web'], or not. *)
Inductive Platform := Web | Native.

(** What a browser does with the [autoPlay] attribute of a [<video>]: it
    may refuse to start media by itself ([autoplay_allowed] off), and when
    the attribute is added to an element that is already there it may
    start the media or not ([autoplay_when_added]), which depends on the
    browser and on how far the media has loaded. *)
Record Browser := mkBrowser {
  autoplay_allowed : bool;
  autoplay_when_added : bool;
}.

Record Host := mkHost { os : Platform; browser : Browser }.

(** ** Players *)

(** Props of [VideoPlayer]. *)
Record PlayerProps := mkProps { video : FeedEntry.t; isCurrentVideo : bool }.

Module Element.
(** The element returned by [VideoPlayer]: the [<Video>] of expo-av, or on
    the web a [<video>], whose attributes [src], [autoPlay], [loop],
    [muted] and [controls] are held by [source], [shouldPlay],
    [isLooping], [isMuted] and [useNativeControls]. *)
Record t := mk {
  source : string;
  shouldPlay : bool;
  isLooping : bool;
  isMuted : bool;
  useNativeControls : bool;
  platform : Platform;
}.
End Element.

(** The module-level [VideoPlayer]: it calls [useVideoState] itself, so
    [videoState] below is the hook state of this player, not the one of
    [VideoScroll]. *)
Definition VideoPlayer (os : Platform) (props : PlayerProps)
    (videoState : VideoState) : Element.t :=
  match os with
  | Web =>
      Element.mk (Video.video_url (FeedEntry.video (video props)))
                 (isCurrentVideo props) true (isMuted videoState) false Web
  | Native =>
      Element.mk (Video.video_url (FeedEntry.video (video props)))
                 (isCurrentVideo props) true (isMuted videoState) false Native
  end.

(** The comparator given to [React.memo]: [true] skips the render. *)
Definition MemoizedVideoPlayer (prevProps nextProps : PlayerProps) : bool :=
  Bool.eqb (isCurrentVideo prevProps) (isCurrentVideo nextProps)
  && String.eqb (Video.id (FeedEntry.video (video prevProps)))
                (Video.id (FeedEntry.video (video nextProps)))
  && String.eqb (Video.video_url (FeedEntry.video (video prevProps)))
                (Video.video_url (FeedEntry.video (video nextProps))).

(** A mounted player: the props of its last render, its own hook state,
    the element it rendered and the transport state of the media behind
    it, which is set when the element is rendered ([created],
    [rendered_again] below) and by the imperative calls on its handle. *)
Record Player := mkPlayer {
  props : PlayerProps;
  hook : VideoState;
  element : Element.t;
  playing : bool;
}.

(** [videos.indexOf(item)]: strict equality of objects is identity. *)
Fixpoint indexOf_from (i : Z) (l : list FeedEntry.t) (item : FeedEntry.t) : Z :=
  match l with
  | [] => -1
  | e :: rest =>
      if Nat.eqb (FeedEntry.obj e) (FeedEntry.obj item) then i
      else indexOf_from (i + 1) rest item
  end.

Definition indexOf : list FeedEntry.t → FeedEntry.t → Z := indexOf_from 0.

(** The props that [renderItem] gives to [MemoizedVideoPlayer]. *)
Definition renderItem (s : Screen) (item : FeedEntry.t) : PlayerProps :=
  mkProps item (currentIndex (videoState s) =? indexOf (videos s) item).

(** ** Commands sent to the player and audio collaborators *)

Record AudioMode := mkAudioMode {
  allowsRecordingIOS : option bool;
  playsInSilentModeIOS : option bool;
  staysActiveInBackground : option bool;
  shouldDuckAndroid : option bool;
  playThroughEarpieceAndroid : option bool;
}.

Inductive Command :=
| SetAudioModeAsync (mode : AudioMode)
| PlayAsync (h : handle)
| PauseAsync (h : handle)
| Play (h : handle)
| Pause (h : handle).

(** ** The screen with its mounted cells and its pending calls *)

Record World := mkWorld {
  host : Host;
  screen : Screen;
  cells : gmap nat Player;
  tasks : list Task;
  requests : list Request;
  commands : list Command;
}.

(** The play/pause effect of [VideoScroll], with dependencies
    [videoState.currentIndex] and [videos]: it looks every video up in the
    [videoRefs] of [VideoScroll]'s own hook. *)
Definition playback_effect (os : Platform) (s : Screen) : list Command :=
  if (0 <? Z.of_nat (length (videos s)))
  then concat (imap (λ index video,
         match videoRefs (videoState s)
                 !! Video.id (FeedEntry.video video) with
         | Some videoRef =>
             if (Z.of_nat index =? currentIndex (videoState s))
             then match os with
                  | Web => [Play videoRef]
                  | Native => [PlayAsync videoRef]
                  end
             else match os with
                  | Web => [Pause videoRef]
                  | Native => [PauseAsync videoRef]
                  end
         | None => []
         end) (videos s))
  else [].

Definition set_playing (b : bool) (c : Player) : Player :=
  mkPlayer (props c) (hook c) (element c) b.

Definition run_command (cs : gmap nat Player) (c : Command) : gmap nat Player :=
  match c with
  | PlayAsync h | Play h => alter (set_playing true) h cs
  | PauseAsync h | Pause h => alter (set_playing false) h cs
  | SetAudioModeAsync _ => cs
  end.

(** The media behind an element that has just been created: expo-av
    starts it when [shouldPlay] is set; a browser starts a [<video>] with
    [autoPlay] when it allows media to start by itself. *)
Definition created (hw : Host) (el : Element.t) : bool :=
  match os hw with
  | Native => Element.shouldPlay el
  | Web => Element.shouldPlay el && autoplay_allowed (browser hw)
  end.

(** The media behind an element that is rendered again: expo-av applies
    [shouldPlay], starting or pausing it; in a browser the [autoPlay]
    attribute pauses nothing, so media that [was] playing goes on, and
    media that was not may be started when the attribute is added. *)
Definition rendered_again (hw : Host) (was : bool) (el : Element.t) : bool :=
  match os hw with
  | Native => Element.shouldPlay el
  | Web =>
      was || (Element.shouldPlay el && autoplay_allowed (browser hw)
              && autoplay_when_added (browser hw))
  end.

(** A render of [VideoScroll] reaches a mounted cell through [renderItem];
    the memo comparator decides whether the player renders again. *)
Definition render_cell (hw : Host) (s : Screen) (p : nat) (c : Player) :
    Player :=
  match videos s !! p with
  | None => c
  | Some item =>
      let next := renderItem s item in
      if MemoizedVideoPlayer (props c) next then c
      else let el := VideoPlayer (os hw) next (hook c) in
           mkPlayer next (hook c) el (rendered_again hw (playing c) el)
  end.

Definition render (hw : Host) (s : Screen) (cs : gmap nat Player) :
    gmap nat Player :=
  map_imap (λ p c, Some (render_cell hw s p c)) cs.

(** Mounting the cell of position [p]: first render of the player, whose
    [ref] callback stores the element in the player's own [videoRefs]. *)
Definition mount (hw : Host) (s : Screen) (p : nat) (cs : gmap nat Player) :
    gmap nat Player :=
  match videos s !! p with
  | None => cs
  | Some item =>
      let pr := renderItem s item in
      let el := VideoPlayer (os hw) pr useVideoState in
      let own := mkVideoState (currentIndex useVideoState) (isMuted useVideoState)
                   (<[Video.id (FeedEntry.video item) := p]>
                      (videoRefs useVideoState)) in
      <[p := mkPlayer pr own el (created hw el)]> cs
  end.

(** A state change of [VideoScroll]: render, then the effects whose
    dependencies changed ([fresh_videos] says that [setVideos] ran). *)
Definition commit (fresh_videos : bool) (s : Screen) (w : World) : World :=
  let cmds :=
    if fresh_videos
       || negb (currentIndex (videoState (screen w)) =? currentIndex (videoState s))
    then playback_effect (os (host w)) s else [] in
  mkWorld (host w) s (foldl run_command (render (host w) s (cells w)) cmds)
          (tasks w) (requests w) (commands w ++ cmds).

(** ** Viewability *)

Module ViewToken.
Record t := mk { index : Z; isViewable : bool }.
End ViewToken.

(** [handleViewableItemsChanged]; [None] is the [TypeError] of reading
    [changed[0].isViewable] on an empty array. *)
Definition handleViewableItemsChanged (changed : list ViewToken.t) (s : Screen) :
    option Screen :=
  match changed with
  | [] => None
  | first :: _ =>
      Some (if ViewToken.isViewable first
            then setCurrentIndex (ViewToken.index first) s
            else s)
  end.

(** ** Events of the playback side *)

Inductive PlaybackEvent :=
| ViewableItemsChanged (changed : list ViewToken.t)
| MountCell (p : nat)
| UnmountCell (p : nat)
| PressMute.

Definition playback_step (w : World) (e : PlaybackEvent) : World :=
  match e with
  | ViewableItemsChanged changed =>
      match handleViewableItemsChanged changed (screen w) with
      | Some s => commit false s w
      | None => w
      end
  | MountCell p =>
      mkWorld (host w) (screen w) (mount (host w) (screen w) p (cells w))
              (tasks w) (requests w) (commands w)
  | UnmountCell p =>
      mkWorld (host w) (screen w) (delete p (cells w))
              (tasks w) (requests w) (commands w)
  | PressMute =>
      commit false
        (setIsMuted (negb (isMuted (videoState (screen w)))) (screen w)) w
  end.

Definition playback_run : World → list PlaybackEvent → World :=
  foldl playback_step.

(** The screen once [loadVideos] has stored [feed] and cleared [loading]:
    nothing mounted yet, nothing in flight. *)
Definition loaded (hw : Host) (feed : list FeedEntry.t) (h : nat) : World :=
  mkWorld hw (setLoading false (setVideos feed h VideoScroll)) ∅ [] [] [].

(** Number of mounted players whose media is playing. *)
Definition playing_count (w : World) : nat :=
  size (filter (λ kv, playing kv.2 = true) (cells w)).

(** Is the cell of the active index mounted? *)
Definition active_mounted (w : World) : bool :=
  let i := currentIndex (videoState (screen w)) in
  (0 <=? i) && bool_decide (is_Some (cells w !! Z.to_nat i)).

(** ** Events of the interaction side *)

Inductive StoreEvent :=
| PressLike (videoId : string)
| PressBookmark (videoId : string)
| UserResolved (n : nat) (user : option string)
| MutationSettled (n : nat) (error : option string).

Definition spawn (tr : Task * list Request) (w : World) : World :=
  mkWorld (host w) (screen w) (cells w) (tasks w ++ [tr.1])
          (requests w ++ tr.2) (commands w).

Definition resume (n : nat) (tr : Task * list Request) (w : World) : World :=
  mkWorld (host w) (screen w) (cells w) (<[n := tr.1]> (tasks w))
          (requests w ++ tr.2) (commands w).

(** The end of a call: a settled mutation without error has run the state
    setters, so the screen renders again. *)
Definition finish (n : nat) (error : option string) (s : Screen) (w : World) :
    World :=
  let w' := mkWorld (host w) (screen w) (cells w) (<[n := Settled]> (tasks w))
                    (requests w) (commands w) in
  match error with
  | Some _ => w'
  | None => commit true s w'
  end.

Definition store_step (w : World) (e : StoreEvent) : World :=
  match e with
  | PressLike videoId => spawn (handleLike_call (screen w) videoId) w
  | PressBookmark videoId => spawn (handleBookmark_call (screen w) videoId) w
  | UserResolved n user =>
      match tasks w !! n with
      | Some (AwaitUser Like videoId closure) =>
          resume n (handleLike_user closure videoId user) w
      | Some (AwaitUser Bookmark videoId closure) =>
          resume n (handleBookmark_user closure videoId user) w
      | _ => w
      end
  | MutationSettled n error =>
      match tasks w !! n with
      | Some (AwaitMutation Like videoId flag) =>
          finish n error (handleLike_settle videoId flag error (screen w)) w
      | Some (AwaitMutation Bookmark videoId flag) =>
          finish n error (handleBookmark_settle videoId flag error (screen w)) w
      | _ => w
      end
  end.

Definition store_run : World → list StoreEvent → World := foldl store_step.

(** One whole call of [toggleLike(videoId)] with nothing in between: the
    answer of the auth collaborator and of the backend are given. *)
Definition toggleLike (videoId : string) (user error : option string)
    (w : World) : World :=
  let n := length (tasks w) in
  store_run w [PressLike videoId; UserResolved n user; MutationSettled n error].

Definition toggleBookmark (videoId : string) (user error : option string)
    (w : World) : World :=
  let n := length (tasks w) in
  store_run w [PressBookmark videoId; UserResolved n user; MutationSettled n error].

(** Is a request a create/delete mutation of an interaction? *)
Definition is_mutation (r : Request) : bool :=
  match r with
  | DeleteFrom _ _ _ | InsertInto _ _ _ => true
  | _ => false
  end.

(** What the screen shows for a video id: the flags read by the heart and
    bookmark icons and the counters of every entry with that id. *)
Definition isLiked_of (s : Screen) (videoId : string) : bool :=
  truthy (read_isLiked (interactions (interactionState s)) videoId).

Definition isBookmarked_of (s : Screen) (videoId : string) : bool :=
  truthy (read_isBookmarked (interactions (interactionState s)) videoId).

Definition entries_of (s : Screen) (videoId : string) : list FeedEntry.t :=
  filter (λ e, Video.id (FeedEntry.video e) = videoId) (videos s).

Definition like_counts (s : Screen) (videoId : string) : list Z :=
  (λ e, Video.like_count (FeedEntry.video e)) <$> entries_of s videoId.

Definition bookmark_counts (s : Screen) (videoId : string) : list (option Z) :=
  (λ e, Video.bookmark_count (FeedEntry.video e)) <$> entries_of s videoId.

(** ** Loading the feed *)

(** What a query resolves to: [{ data, error }]. *)
Inductive Answer (A : Type) :=
| Data (data : A)
| Failed (code : string).
Arguments Data {A} data.
Arguments Failed {A} code.

(** The answers of the auth and data collaborators. *)
Record Backend := mkBackend {
  getUser : option string;
  select_videos : Answer (list Video.t);
  select_video_ids : string → string → list string → Answer (list string);
  select_profile : string → Answer VideoUser.t;
  insert_profile : string → string → Answer VideoUser.t;
}.

(** The object built by [videoIds.forEach] in [checkUserInteractions]. *)
Definition newInteractions (likedVideos bookmarkedVideos : gset string)
    (videoIds : list string) : gmap string VideoInteraction.t :=
  foldl (λ m videoId,
           <[videoId := VideoInteraction.mk
                          (Some (bool_decide (videoId ∈ likedVideos)))
                          (Some (bool_decide (videoId ∈ bookmarkedVideos)))]> m)
        ∅ videoIds.

(** [checkUserInteractions]: a failed query throws into the [catch], which
    only logs. *)
Definition checkUserInteractions (be : Backend) (userId : string)
    (videoIds : list string) (s : Screen) : Screen * list Request :=
  let liked_query := SelectVideoIds "video_likes" userId videoIds in
  match select_video_ids be "video_likes" userId videoIds with
  | Failed _ => (s, [liked_query])
  | Data likedData =>
      let likedVideos : gset string := list_to_set likedData in
      let bookmarked_query := SelectVideoIds "video_bookmarks" userId videoIds in
      match select_video_ids be "video_bookmarks" userId videoIds with
      | Failed _ => (s, [liked_query; bookmarked_query])
      | Data bookmarkedData =>
          let bookmarkedVideos : gset string := list_to_set bookmarkedData in
          (setInteractions
             (λ _, newInteractions likedVideos bookmarkedVideos videoIds) s,
           [liked_query; bookmarked_query])
      end
  end.

Definition default_username (userId : string) : string :=
  "user_" +:+ String.substring 0 8 userId.

(** [ensureProfile]. *)
Definition ensureProfile (be : Backend) (userId : string) :
    VideoUser.t * list Request :=
  match select_profile be userId with
  | Data profile => (profile, [SelectProfile userId])
  | Failed code =>
      if String.eqb code "PGRST116"
      then match insert_profile be userId (default_username userId) with
           | Data newProfile =>
               (newProfile,
                [SelectProfile userId;
                 InsertProfile userId (default_username userId)])
           | Failed _ =>
               (VideoUser.mk (default_username userId) None,
                [SelectProfile userId;
                 InsertProfile userId (default_username userId)])
           end
      else (VideoUser.mk (default_username userId) None, [SelectProfile userId])
  end.

(** [videosData.map(async video => ({ ...video, user: await ensureProfile(..) }))]
    under [Promise.all]; the requests are listed video by video. *)
Fixpoint with_users (be : Backend) (h : nat) (videosData : list Video.t) :
    list FeedEntry.t * nat * list Request :=
  match videosData with
  | [] => ([], h, [])
  | v :: rest =>
      let '(userData, r1) := ensureProfile be (Video.user_id v) in
      let '(entries, h', r2) := with_users be (S h) rest in
      (FeedEntry.mk h v userData :: entries, h', r1 ++ r2)
  end.

(** [loadVideos]; [setLoading(false)] is in the [finally]. *)
Definition loadVideos (be : Backend) (s0 : Screen) : Screen * list Request :=
  let s := setError None s0 in
  match getUser be with
  | None => (setLoading false s, [AuthGetUser])
  | Some user =>
      match select_videos be with
      | Failed _ =>
          (setLoading false (setError (Some "Failed to load videos") s),
           [AuthGetUser; SelectVideos])
      | Data videosData =>
          let '(videosWithUsers, h, r1) := with_users be (heap s) videosData in
          let s1 := setVideos videosWithUsers h s in
          let '(s2, r2) :=
            checkUserInteractions be user (Video.id <$> videosData) s1 in
          (setLoading false s2, [AuthGetUser; SelectVideos] ++ r1 ++ r2)
      end
  end.

(** The queries about the user's interactions among the requests. *)
Definition is_interaction_query (r : Request) : bool :=
  match r with
  | SelectVideoIds _ _ _ => true
  | _ => false
  end.

Definition interaction_queries (rs : list Request) : list Request :=
  filter (λ r, is_interaction_query r = true) rs.

(** ** Saving an edit *)

Definition apply_draft (d : EditVideoData.t) (v : Video.t) : Video.t :=
  Video.mk (Video.id v) (EditVideoData.title d) (EditVideoData.description d)
    (Video.video_url v) (Video.user_id v) (Video.created_at v)
    (Video.like_count v) (Video.bookmark_count v)
    (Some (EditVideoData.address d))
    (EditVideoData.latitude d) (EditVideoData.longitude d).

(** [saveVideoChanges], up to the awaited update; [None] is the early
    return without a draft. *)
Definition saveVideoChanges_call (s : Screen) :
    option (Screen * EditVideoData.t * list Request) :=
  match editVideoData (interactionState s) with
  | None => None
  | Some d => Some (setSaving true s, d, [UpdateVideo (EditVideoData.id d) d])
  end.

(** [saveVideoChanges], from the answer of the update to the end of the
    [finally]; [d] is the draft the call closed over. *)
Definition saveVideoChanges_settle (d : EditVideoData.t) (error : option string)
    (s : Screen) : Screen :=
  setSaving false
    match error with
    | Some _ => setLocationError (Some "Failed to update video") s
    | None =>
        setEditModalVisible false
          (patchVideos (EditVideoData.id d) (apply_draft d) s)
    end.

Definition saveVideoChanges (error : option string) (s : Screen) :
    Screen * list Request :=
  match saveVideoChanges_call s with
  | None => (s, [])
  | Some (s1, d, rs) => (saveVideoChanges_settle d error s1, rs)
  end.

(** The five fields of a video that the edit modal writes, and the six it
    has no field for. *)
Definition edited_fields (v : Video.t) :
    string * string * option string * option float * option float :=
  (Video.title v, Video.description v, Video.address v, Video.latitude v,
   Video.longitude v).

Definition kept_fields (v : Video.t) :
    string * string * string * string * Z * option Z :=
  (Video.id v, Video.video_url v, Video.user_id v, Video.created_at v,
   Video.like_count v, Video.bookmark_count v).

(** ** Leaving the screen *)

(** [setupAudio], called by the mount effect. *)
Definition setupAudio : list Command :=
  [SetAudioModeAsync
     (mkAudioMode (Some false) (Some true) (Some false) (Some true) (Some false))].

(** The cleanup returned by the mount effect. *)
Definition cleanup : list Command :=
  [SetAudioModeAsync (mkAudioMode None (Some false) (Some false) None None)].

(** The ways out of the feed.  [VideoScroll] subscribes to neither the
    application state nor the focus of the screen: its only code that runs
    on the way out is the cleanup of the mount effect, at unmount.
    [NavigateAway] is a navigation that keeps the screen mounted (a pushed
    route, another tab). *)
Inductive ExitPath := ScreenUnmount | NavigateAway | AppBackground.

Definition on_exit (path : ExitPath) (w : World) : list Command :=
  match path with
  | ScreenUnmount => cleanup
  | NavigateAway | AppBackground => []
  end.

Definition is_stop (h : handle) (c : Command) : bool :=
  match c with
  | PauseAsync h' | Pause h' => bool_decide (h = h')
  | _ => false
  end.

(** ** Auxiliary notions used in the statements *)

(** The step of the like counter of a call that read [flag]. *)
Definition like_delta (flag : option bool) : Z := if truthy flag then -1 else 1.

(** The mutation request of a like call that read [flag]. *)
Definition like_mutation (videoId uid : string) (flag : option bool) : Request :=
  if truthy flag then DeleteFrom "video_likes" videoId uid
  else InsertInto "video_likes" videoId uid.

Definition bookmark_mutation (videoId uid : string) (flag : option bool) : Request :=
  if truthy flag then DeleteFrom "video_bookmarks" videoId uid
  else InsertInto "video_bookmarks" videoId uid.


(** Number of mutations that settled without error. *)
Definition succeeded (e : option string) : Z :=
  match e with
  | Some _ => 0
  | None => 1
  end.


(** ** A sample feed *)

Definition sample_user : VideoUser.t := VideoUser.mk "ana" None.

Definition sample_video (id : string) (likes : Z) : Video.t :=
  Video.mk id ("title " +:+ id) "-" ("https://cdn/" +:+ id) "owner" "2025-02-27"
           likes None None None None.

Definition sample_feed : list FeedEntry.t :=
  [FeedEntry.mk 0 (sample_video "A" 3) sample_user;
   FeedEntry.mk 1 (sample_video "B" 0) sample_user;
   FeedEntry.mk 2 (sample_video "C" 7) sample_user].

(** A phone or tablet: the browser fields are not read there. *)
Definition device : Host := mkHost Native (mkBrowser false false).

(** A browser that lets media start by itself, and one that moreover starts
    a [<video>] when [autoPlay] is added to it. *)
Definition permissive_browser : Host := mkHost Web (mkBrowser true false).

Definition eager_browser : Host := mkHost Web (mkBrowser true true).

(** The loaded feed on a device, nothing mounted. *)
Definition sample_world : World := loaded device sample_feed 3.

(** The loaded feed with its three cells mounted. *)
Definition sample_mounted : World :=
  playback_run sample_world [MountCell 0; MountCell 1; MountCell 2].


(** ** Invariant of the playback side *)

(** The elements of the array are pairwise distinct objects. *)
Definition distinct_objects (feed : list FeedEntry.t) : Prop :=
  NoDup (FeedEntry.obj <$> feed).

(** A mounted cell shows an item of the array; the props of its last
    render agree with the active index; its element and its media follow
    these props; its own hook state is the initial one but for the ref. *)
Definition cell_ok (hw : Host) (s : Screen) (p : nat) (c : Player) : Prop :=
  is_Some (videos s !! p)
  ∧ isCurrentVideo (props c) = (currentIndex (videoState s) =? Z.of_nat p)
  ∧ Element.shouldPlay (element c) = isCurrentVideo (props c)
  ∧ (os hw = Native → playing c = Element.shouldPlay (element c))
  ∧ isMuted (hook c) = false
  ∧ Element.isMuted (element c) = isMuted (hook c).

Definition playback_inv (feed : list FeedEntry.t) (w : World) : Prop :=
  videos (screen w) = feed
  ∧ videoRefs (videoState (screen w)) = ∅
  ∧ map_Forall (cell_ok (host w) (screen w)) (cells w).

(** The page an event reports as newly viewable, if it does. *)
Definition reported_viewable (e : PlaybackEvent) : list Z :=
  match e with
  | ViewableItemsChanged (first :: _) =>
      if ViewToken.isViewable first then [ViewToken.index first] else []
  | _ => []
  end.

Definition reported (es : list PlaybackEvent) : list Z :=
  es ≫= reported_viewable.

(** A fling from page 0 to page 2: the pager reports page 1 as it crosses
    half of the viewport, then page 2. *)
Definition fling_0_to_2 : list PlaybackEvent :=
  [ViewableItemsChanged [ViewToken.mk 1 true; ViewToken.mk 0 false];
   ViewableItemsChanged [ViewToken.mk 2 true; ViewToken.mk 1 false]].

(** ** Opening the edit modal *)

Definition setEditVideoData (d : option EditVideoData.t) : Screen → Screen :=
  with_interactionState (λ i,
    mkInteractionState (interactions i) (expandedDescriptions i)
      (bottomSheetVisible i) (editModalVisible i) d
      (locationLoading i) (locationError i) (saving i)).

Definition setBottomSheetVisible (b : bool) : Screen → Screen :=
  with_interactionState (λ i,
    mkInteractionState (interactions i) (expandedDescriptions i)
      b (editModalVisible i) (editVideoData i)
      (locationLoading i) (locationError i) (saving i)).

(** [x || null] on a coordinate: [undefined], [0] and [NaN] are falsy. *)
Definition or_null (x : option float) : option float :=
  match x with
  | Some f => if (PrimFloat.eqb f 0 || PrimFloat.is_nan f)%bool then None else Some f
  | None => None
  end.

(** [openBottomSheet(video)]: the draft is a copy of the editable fields. *)
Definition openBottomSheet (entry : FeedEntry.t) (s : Screen) : Screen :=
  let v := FeedEntry.video entry in
  setEditVideoData
    (Some (EditVideoData.mk (Video.id v) (Video.title v) (Video.description v)
             (default EmptyString (Video.address v))
             (or_null (Video.latitude v)) (or_null (Video.longitude v))))
    (setBottomSheetVisible true s).

Definition openEditModal (s : Screen) : Screen :=
  setEditModalVisible true (setBottomSheetVisible false s).

(** The sample feed with the edit modal open on "B" and a changed draft. *)
Definition sample_draft : EditVideoData.t :=
  EditVideoData.mk "B" "Sunset" "From the pier" "Pier 39, San Francisco"
                   (Some 37.5%float) (Some (-122.5)%float).

Definition sample_editing : Screen :=
  setEditVideoData (Some sample_draft)
    (openEditModal
       (openBottomSheet (FeedEntry.mk 1 (sample_video "B" 0) sample_user)
                        (screen sample_world))).

(** A backend on which the liked-set query fails. *)
Definition sample_rows : list Video.t :=
  [sample_video "A" 3; sample_video "B" 0; sample_video "C" 7].

Definition likes_down : Backend :=
  mkBackend (Some "me") (Data sample_rows)
    (λ table _ _, if String.eqb table "video_likes" then Failed "503" else Data [])
    (λ _, Data sample_user) (λ _ _, Data sample_user).

(** A backend that answers every query; "me" has liked "B". *)
Definition all_up : Backend :=
  mkBackend (Some "me") (Data sample_rows)
    (λ table _ _, if String.eqb table "video_likes" then Data ["B"] else Data [])
    (λ _, Data sample_user) (λ _ _, Data sample_user).

(** ** Further notions used in the statements *)

(** The number under the bookmark icon of an entry:
    [item.bookmark_count || 0]. *)
Definition shown_bookmarks (s : Screen) (videoId : string) : list Z :=
  (λ e, or_default (Video.bookmark_count (FeedEntry.video e)) 0)
    <$> entries_of s videoId.

(** The step of the shown bookmark counter taken by a settled call that
    read [flag]: one up, or one down but not below an empty counter. *)
Definition bookmark_step (flag : option bool) (b : Z) : Z :=
  if truthy flag then (if b =? 0 then 0 else b - 1) else b + 1.

(** The profile lookups among the requests. *)
Definition is_profile_lookup (r : Request) : bool :=
  match r with
  | SelectProfile _ => true
  | _ => false
  end.

Definition is_profile_insert (r : Request) : bool :=
  match r with
  | InsertProfile _ _ => true
  | _ => false
  end.

(** ** The whole screen at work *)

(** An event of the screen: one of the playback side, one of the
    interaction side, or the answer to the update of a save that closed
    over the draft [d]. *)
Inductive Event :=
| Playback (e : PlaybackEvent)
| Store (e : StoreEvent)
| SaveAnswered (d : EditVideoData.t) (error : option string).

Definition step (w : World) (e : Event) : World :=
  match e with
  | Playback e => playback_step w e
  | Store e => store_step w e
  | SaveAnswered d error =>
      commit (bool_decide (error = None))
             (saveVideoChanges_settle d error (screen w)) w
  end.

Definition run : World → list Event → World := foldl step.

(** The screen after its mount effect has run [loadVideos] against the
    backend [be]: nothing mounted yet, nothing in flight. *)
Definition started (hw : Host) (be : Backend) : World :=
  mkWorld hw (loadVideos be VideoScroll).1 ∅ []
          (loadVideos be VideoScroll).2 [].

(** Every object of the array was allocated before [h]. *)
Definition objects_below (h : nat) (l : list FeedEntry.t) : Prop :=
  Forall (λ e, (FeedEntry.obj e < h)%nat) l.

(** The props of a mounted cell name the video at its position. *)
Definition cell_shows (s : Screen) (p : nat) (c : Player) : Prop :=
  ∃ item, videos s !! p = Some item
    ∧ Video.id (FeedEntry.video (video (props c)))
      = Video.id (FeedEntry.video item)
    ∧ Video.video_url (FeedEntry.video (video (props c)))
      = Video.video_url (FeedEntry.video item).

Definition world_inv (w : World) : Prop :=
  distinct_objects (videos (screen w))
  ∧ objects_below (heap (screen w)) (videos (screen w))
  ∧ videoRefs (videoState (screen w)) = ∅
  ∧ map_Forall (λ p c, cell_ok (host w) (screen w) p c
                       ∧ cell_shows (screen w) p c)
               (cells w).

(** [s'] is [s] after state setters that leave the playback state alone,
    keep the array in shape (distinct objects below the heap bound) and
    keep, position by position, the id and the URL of the videos. *)
Definition feed_patched (s s' : Screen) : Prop :=
  videoState s' = videoState s
  ∧ (distinct_objects (videos s) → objects_below (heap s) (videos s) →
     distinct_objects (videos s') ∧ objects_below (heap s') (videos s'))
  ∧ (∀ p item, videos s !! p = Some item →
       ∃ item', videos s' !! p = Some item'
         ∧ Video.id (FeedEntry.video item') = Video.id (FeedEntry.video item)
         ∧ Video.video_url (FeedEntry.video item')
           = Video.video_url (FeedEntry.video item)).

(** What no event may change in an entry: the id, the URL, the author and
    the creation time of the video and the profile shown with it. *)
Definition identity_of (e : FeedEntry.t) :
    string * string * string * string * VideoUser.t :=
  (Video.id (FeedEntry.video e), Video.video_url (FeedEntry.video e),
   Video.user_id (FeedEntry.video e), Video.created_at (FeedEntry.video e),
   FeedEntry.user e).

(** ** The edit session *)

Definition setLocationLoading (b : bool) : Screen → Screen :=
  with_interactionState (λ i,
    mkInteractionState (interactions i) (expandedDescriptions i)
      (bottomSheetVisible i) (editModalVisible i) (editVideoData i)
      b (locationError i) (saving i)).

(** [setEditVideoData(prev => ({ ...prev!, ... }))].  Without a draft the
    spread would build an object that lacks the other fields, which is
    not an [EditVideoData]: [None]. *)
Definition spread_draft (f : EditVideoData.t → EditVideoData.t) (s : Screen) :
    option Screen :=
  match editVideoData (interactionState s) with
  | Some prev => Some (setEditVideoData (Some (f prev)) s)
  | None => None
  end.

Definition with_title (text : string) (d : EditVideoData.t) : EditVideoData.t :=
  EditVideoData.mk (EditVideoData.id d) text (EditVideoData.description d)
    (EditVideoData.address d) (EditVideoData.latitude d)
    (EditVideoData.longitude d).

Definition with_description (text : string) (d : EditVideoData.t) :
    EditVideoData.t :=
  EditVideoData.mk (EditVideoData.id d) (EditVideoData.title d) text
    (EditVideoData.address d) (EditVideoData.latitude d)
    (EditVideoData.longitude d).

Definition with_address (text : string) (d : EditVideoData.t) : EditVideoData.t :=
  EditVideoData.mk (EditVideoData.id d) (EditVideoData.title d)
    (EditVideoData.description d) text (EditVideoData.latitude d)
    (EditVideoData.longitude d).

Definition with_coordinates (latitude longitude : float) (d : EditVideoData.t) :
    EditVideoData.t :=
  EditVideoData.mk (EditVideoData.id d) (EditVideoData.title d)
    (EditVideoData.description d) (EditVideoData.address d)
    (Some latitude) (Some longitude).

(** [text.trim()].  A string of the model is the UTF-8 encoding of the JS
    string, so the characters that [trim()] strips are one to three bytes
    long: WhiteSpace (U+0009, U+000B, U+000C, U+0020, U+00A0, U+FEFF and
    the other space separators U+1680, U+2000 to U+200A, U+202F, U+205F,
    U+3000) and LineTerminator (U+000A, U+000D, U+2028, U+2029). *)
Definition white_space_1 (b1 : nat) : bool :=
  Nat.eqb b1 32 || (Nat.leb 9 b1 && Nat.leb b1 13).

Definition white_space_2 (b1 b2 : nat) : bool :=
  Nat.eqb b1 194 && Nat.eqb b2 160.

Definition white_space_3 (b1 b2 b3 : nat) : bool :=
  (Nat.eqb b1 225 && Nat.eqb b2 154 && Nat.eqb b3 128)
  || (Nat.eqb b1 226 && Nat.eqb b2 128
      && ((Nat.leb 128 b3 && Nat.leb b3 138) || Nat.eqb b3 168
          || Nat.eqb b3 169 || Nat.eqb b3 175))
  || (Nat.eqb b1 226 && Nat.eqb b2 129 && Nat.eqb b3 159)
  || (Nat.eqb b1 227 && Nat.eqb b2 128 && Nat.eqb b3 128)
  || (Nat.eqb b1 239 && Nat.eqb b2 187 && Nat.eqb b3 191).

(** Dropping from the front every character recognised by [w1], [w2] or
    [w3], which look at the next one, two or three bytes. *)
Fixpoint strip (w1 : nat → bool) (w2 : nat → nat → bool)
    (w3 : nat → nat → nat → bool) (l : list Ascii.ascii) : list Ascii.ascii :=
  match l with
  | [] => []
  | c1 :: r1 =>
      let b1 := Ascii.nat_of_ascii c1 in
      if w1 b1 then strip w1 w2 w3 r1
      else match r1 with
           | [] => l
           | c2 :: r2 =>
               let b2 := Ascii.nat_of_ascii c2 in
               if w2 b1 b2 then strip w1 w2 w3 r2
               else match r2 with
                    | [] => l
                    | c3 :: r3 =>
                        if w3 b1 b2 (Ascii.nat_of_ascii c3)
                        then strip w1 w2 w3 r3 else l
                    end
           end
  end.

Definition trimStart : list Ascii.ascii → list Ascii.ascii :=
  strip white_space_1 white_space_2 white_space_3.

(** From the end: the same on the reversed text, the bytes of a character
    coming last first. *)
Definition trimEnd (l : list Ascii.ascii) : list Ascii.ascii :=
  reverse (strip white_space_1 (λ b2 b1, white_space_2 b1 b2)
                 (λ b3 b2 b1, white_space_3 b1 b2 b3) (reverse l)).

Definition trim (text : string) : string :=
  String.string_of_list_ascii
    (trimEnd (trimStart (String.list_ascii_of_string text))).

(** [!text.trim()]. *)
Definition trim_is_empty (text : string) : bool :=
  String.eqb (trim text) EmptyString.

Module Address.
(** The fields of a reverse-geocoded address that the screen reads. *)
Record t := mk {
  street : option string;
  name : option string;
  city : option string;
  region : option string;
  postalCode : option string;
  country : option string;
}.
End Address.

(** [x || ''] on a possibly missing string. *)
Definition or_empty (x : option string) : string := default EmptyString x.

(** The template literal of [getCurrentLocation]. *)
Definition formatAddress (a : Address.t) : string :=
  or_empty (Address.street a) +:+ " " +:+ or_empty (Address.name a) +:+ ", "
  +:+ or_empty (Address.city a) +:+ ", " +:+ or_empty (Address.region a)
  +:+ " " +:+ or_empty (Address.postalCode a) +:+ ", "
  +:+ or_empty (Address.country a).

(** Requests of the edit session: to the backend, or to the location
    collaborator. *)
Inductive EditRequest :=
| ToBackend (r : Request)
| RequestForegroundPermissions
| GetCurrentPosition
| ReverseGeocode (latitude longitude : float)
| GeocodeAddress (address : string).

(** A call of [saveVideoChanges], [searchAddress] or [getCurrentLocation]
    that is suspended at an [await]. *)
Inductive EditTask :=
| AwaitUpdate (d : EditVideoData.t)
| AwaitGeocode
| AwaitPermission
| AwaitPosition
| AwaitReverse (latitude longitude : float)
| Finished.

(** [searchAddress], up to the awaited geocoding; without a request it
    has returned with the validation message. *)
Definition searchAddress_call (s : Screen) : Screen * option string :=
  match editVideoData (interactionState s) with
  | Some d =>
      if trim_is_empty (EditVideoData.address d)
      then (setLocationError (Some "Please enter an address") s, None)
      else (setLocationError None (setLocationLoading true s),
            Some (EditVideoData.address d))
  | None => (setLocationError (Some "Please enter an address") s, None)
  end.

(** [searchAddress], from the answer of the geocoding to the end of the
    [finally]. *)
Definition searchAddress_settle (result : Answer (list (float * float)))
    (s : Screen) : option Screen :=
  match result with
  | Data [] =>
      Some (setLocationLoading false
              (setLocationError (Some "Address not found") s))
  | Data ((latitude, longitude) :: _) =>
      setLocationLoading false
        <$> spread_draft (with_coordinates latitude longitude) s
  | Failed _ =>
      Some (setLocationLoading false
              (setLocationError (Some "Failed to find location") s))
  end.

(** [getCurrentLocation], up to the awaited permission request. *)
Definition getCurrentLocation_call (s : Screen) : Screen :=
  setLocationError None (setLocationLoading true s).

Definition getCurrentLocation_failed (s : Screen) : Screen :=
  setLocationLoading false
    (setLocationError (Some "Failed to get current location") s).

(** ... from the answer about the permission ([Data true] is the status
    "granted") to the awaited position, or to the end. *)
Definition getCurrentLocation_permission (status : Answer bool) (s : Screen) :
    Screen * EditTask * list EditRequest :=
  match status with
  | Data true => (s, AwaitPosition, [GetCurrentPosition])
  | Data false =>
      (setLocationLoading false
         (setLocationError (Some "Permission to access location was denied") s),
       Finished, [])
  | Failed _ => (getCurrentLocation_failed s, Finished, [])
  end.

(** ... from the position to the awaited reverse geocoding. *)
Definition getCurrentLocation_position (location : Answer (float * float))
    (s : Screen) : Screen * EditTask * list EditRequest :=
  match location with
  | Data (latitude, longitude) =>
      (s, AwaitReverse latitude longitude, [ReverseGeocode latitude longitude])
  | Failed _ => (getCurrentLocation_failed s, Finished, [])
  end.

(** ... from the reverse geocoding to the end of the [finally]. *)
Definition getCurrentLocation_reverse (latitude longitude : float)
    (addresses : Answer (list Address.t)) (s : Screen) : option Screen :=
  match addresses with
  | Data l =>
      let formattedAddress :=
        match l with
        | address :: _ => formatAddress address
        | [] => "Unknown location"
        end in
      setLocationLoading false
        <$> spread_draft
              (λ prev, with_coordinates latitude longitude
                         (with_address formattedAddress prev)) s
  | Failed _ => Some (getCurrentLocation_failed s)
  end.

(** [getCurrentUser]. *)
Definition getCurrentUser (be : Backend) (s : Screen) : Screen :=
  match getUser be with
  | Some user => setCurrentUserId user s
  | None => s
  end.

(** The screen once the two requests of the mount effect, [loadVideos] and
    [getCurrentUser], have been answered. *)
Definition ready (be : Backend) : Screen :=
  getCurrentUser be (loadVideos be VideoScroll).1.

(** The screen with the calls of the edit session that are in flight. *)
Record Editor := mkEditor {
  ed_screen : Screen;
  ed_tasks : list EditTask;
  ed_requests : list EditRequest;
}.

Definition editing (s : Screen) : Editor := mkEditor s [] [].

Definition with_screen (s : Screen) (w : Editor) : Editor :=
  mkEditor s (ed_tasks w) (ed_requests w).

(** What the user and the collaborators can do to the edit session. *)
Inductive EditEvent :=
| PressEdit (p : nat)
| DismissSheet
| PressEditDetails
| ChangeTitle (text : string)
| ChangeDescription (text : string)
| ChangeAddress (text : string)
| CloseModal
| PressSave
| UpdateAnswered (n : nat) (error : option string)
| PressSearch
| GeocodeAnswered (n : nat) (result : Answer (list (float * float)))
| PressLocate
| PermissionAnswered (n : nat) (status : Answer bool)
| PositionAnswered (n : nat) (location : Answer (float * float))
| ReverseAnswered (n : nat) (addresses : Answer (list Address.t)).

(** The Edit action of the cell at position [p], rendered only when
    [currentUserId === item.user_id]. *)
Definition pressEdit (p : nat) (s : Screen) : Screen :=
  match videos s !! p with
  | Some item =>
      if bool_decide (currentUserId s
                      = Some (Video.user_id (FeedEntry.video item)))
      then openBottomSheet item s
      else s
  | None => s
  end.

(** A field of the edit modal exists while the modal is visible. *)
Definition in_modal (s : Screen) : bool := editModalVisible (interactionState s).

Definition change_draft (f : EditVideoData.t → EditVideoData.t) (w : Editor) :
    option Editor :=
  if in_modal (ed_screen w)
  then (λ s, with_screen s w) <$> spread_draft f (ed_screen w)
  else Some w.

(** One event; [None] when a setter met a missing draft.  The two save
    buttons are disabled while [saving], the two location buttons while
    [locationLoading]. *)
Definition edit_step (w : Editor) (e : EditEvent) : option Editor :=
  let s := ed_screen w in
  match e with
  | PressEdit p => Some (with_screen (pressEdit p s) w)
  | DismissSheet => Some (with_screen (setBottomSheetVisible false s) w)
  | PressEditDetails =>
      Some (if bottomSheetVisible (interactionState s)
            then with_screen (openEditModal s) w else w)
  | ChangeTitle text => change_draft (with_title text) w
  | ChangeDescription text => change_draft (with_description text) w
  | ChangeAddress text => change_draft (with_address text) w
  | CloseModal => Some (with_screen (setEditModalVisible false s) w)
  | PressSave =>
      if in_modal s && negb (saving (interactionState s))
      then match saveVideoChanges_call s with
           | Some (s1, d, rs) =>
               Some (mkEditor s1 (ed_tasks w ++ [AwaitUpdate d])
                              (ed_requests w ++ (ToBackend <$> rs)))
           | None => Some w
           end
      else Some w
  | UpdateAnswered n error =>
      match ed_tasks w !! n with
      | Some (AwaitUpdate d) =>
          Some (mkEditor (saveVideoChanges_settle d error s)
                         (<[n := Finished]> (ed_tasks w)) (ed_requests w))
      | _ => Some w
      end
  | PressSearch =>
      if in_modal s && negb (locationLoading (interactionState s))
      then match searchAddress_call s with
           | (s1, Some address) =>
               Some (mkEditor s1 (ed_tasks w ++ [AwaitGeocode])
                              (ed_requests w ++ [GeocodeAddress address]))
           | (s1, None) => Some (with_screen s1 w)
           end
      else Some w
  | GeocodeAnswered n result =>
      match ed_tasks w !! n with
      | Some AwaitGeocode =>
          (λ s', mkEditor s' (<[n := Finished]> (ed_tasks w)) (ed_requests w))
            <$> searchAddress_settle result s
      | _ => Some w
      end
  | PressLocate =>
      if in_modal s && negb (locationLoading (interactionState s))
      then Some (mkEditor (getCurrentLocation_call s)
                          (ed_tasks w ++ [AwaitPermission])
                          (ed_requests w ++ [RequestForegroundPermissions]))
      else Some w
  | PermissionAnswered n status =>
      match ed_tasks w !! n with
      | Some AwaitPermission =>
          let '(s1, t, rs) := getCurrentLocation_permission status s in
          Some (mkEditor s1 (<[n := t]> (ed_tasks w)) (ed_requests w ++ rs))
      | _ => Some w
      end
  | PositionAnswered n location =>
      match ed_tasks w !! n with
      | Some AwaitPosition =>
          let '(s1, t, rs) := getCurrentLocation_position location s in
          Some (mkEditor s1 (<[n := t]> (ed_tasks w)) (ed_requests w ++ rs))
      | _ => Some w
      end
  | ReverseAnswered n addresses =>
      match ed_tasks w !! n with
      | Some (AwaitReverse latitude longitude) =>
          (λ s', mkEditor s' (<[n := Finished]> (ed_tasks w)) (ed_requests w))
            <$> getCurrentLocation_reverse latitude longitude addresses s
      | _ => Some w
      end
  end.

Fixpoint edit_run (w : Editor) (es : list EditEvent) : option Editor :=
  match es with
  | [] => Some w
  | e :: es' => edit_step w e ≫= λ w', edit_run w' es'
  end.

Definition is_location_task (t : EditTask) : bool :=
  match t with
  | AwaitGeocode | AwaitPermission | AwaitPosition | AwaitReverse _ _ => true
  | AwaitUpdate _ | Finished => false
  end.

Definition is_update_task (t : EditTask) : bool :=
  match t with
  | AwaitUpdate _ => true
  | _ => false
  end.

(** Number of suspended calls of a kind. *)
Definition in_flight (kind : EditTask → bool) (w : Editor) : nat :=
  length (filter (λ t, kind t = true) (ed_tasks w)).

(** The signed-in user is the author of a video with this id in the feed. *)
Definition owned (s : Screen) (id : string) : Prop :=
  ∃ item, item ∈ videos s
    ∧ Video.id (FeedEntry.video item) = id
    ∧ currentUserId s = Some (Video.user_id (FeedEntry.video item)).

(** Is the event the answer that accepts an update? *)
Definition accepts_update (e : EditEvent) : bool :=
  match e with
  | UpdateAnswered _ None => true
  | _ => false
  end.

(** The flags of the edit session agree with what is in flight, and a
    sheet, a modal or a location call is never there without a draft. *)
Definition flags_inv (w : Editor) : Prop :=
  let i := interactionState (ed_screen w) in
  (editVideoData i = None →
     bottomSheetVisible i = false ∧ editModalVisible i = false
     ∧ in_flight is_location_task w = 0%nat)
  ∧ in_flight is_location_task w = (if locationLoading i then 1%nat else 0%nat)
  ∧ in_flight is_update_task w = (if saving i then 1%nat else 0%nat).

(** The draft, the saves in flight and the updates sent all name a video
    of the signed-in user; no geocoding was asked for a blank address. *)
Definition requests_inv (w : Editor) : Prop :=
  let s := ed_screen w in
  (∀ d, editVideoData (interactionState s) = Some d →
        owned s (EditVideoData.id d))
  ∧ (∀ d, AwaitUpdate d ∈ ed_tasks w → owned s (EditVideoData.id d))
  ∧ (∀ id d, ToBackend (UpdateVideo id d) ∈ ed_requests w →
             owned s id ∧ EditVideoData.id d = id)
  ∧ (∀ address, GeocodeAddress address ∈ ed_requests w →
                trim_is_empty address = false).

(** The two counters of an entry. *)
Definition counters_of (e : FeedEntry.t) : Z * option Z :=
  (Video.like_count (FeedEntry.video e), Video.bookmark_count (FeedEntry.video e)).

(** What the edit session leaves alone in the screen. *)
Definition edit_frame (s s' : Screen) : Prop :=
  videoState s' = videoState s
  ∧ interactions (interactionState s') = interactions (interactionState s)
  ∧ currentUserId s' = currentUserId s
  ∧ loading s' = loading s
  ∧ error s' = error s
  ∧ identity_of <$> videos s' = identity_of <$> videos s
  ∧ counters_of <$> videos s' = counters_of <$> videos s.

(** A backend that answers every query, signed in as the author of the
    sample videos. *)
Definition author_up : Backend :=
  mkBackend (Some "owner") (Data sample_rows) (λ _ _ _, Data [])
    (λ _, Data sample_user) (λ _ _, Data sample_user).

(** An edit session on the second video whose save is rejected. *)
Definition rejected_session : list EditEvent :=
  [PressEdit 1; PressEditDetails; ChangeTitle "Sunset";
   ChangeAddress "Pier 39"; PressSearch;
   GeocodeAnswered 0 (Data [(37.5%float, (-122.5)%float)]);
   PressSave; UpdateAnswered 1 (Some "denied")].

(** * The upload screen (Videos)

    The component of the same file that picks a video and uploads it.  Its
    handlers are closures of one render: [handleUpload] reads the selection,
    the title, the description and the location once, when it is called. *)

Module Videos.

Definition MAX_VIDEO_SIZE : Z := 100 * 1024 * 1024.
Definition MAX_DURATION : Z := 60.

Module Asset.
(** The fields of a picked asset that the screen reads. *)
Record t := mk {
  uri : string;
  duration : option float;
  type : option string;
  fileSize : option Z;
}.
End Asset.

Module VideoDetails.
(** [interface VideoDetails]. *)
Record t := mk {
  uri : string;
  duration : float;
  type : string;
  size : option Z;
}.
End VideoDetails.

Module LocationDetails.
(** [interface LocationDetails]. *)
Record t := mk {
  address : string;
  latitude : float;
  longitude : float;
}.
End LocationDetails.

Module VideoData.
(** The row inserted by [handleUpload]; the three location columns are
    spread in together or not at all. *)
Record t := mk {
  user_id : string;
  video_url : string;
  title : string;
  description : string;
  location : option LocationDetails.t;
}.
End VideoData.

(** The [useState] cells of the component. *)
Record State := mkState {
  uploading : bool;
  uploadProgress : Z;
  error : option string;
  selectedVideo : option VideoDetails.t;
  title : string;
  description : string;
  locationDetails : option LocationDetails.t;
  locationError : option string;
  locationLoading : bool;
  useCurrentLocation : bool;
  address : string;
}.

(** The state on mount. *)
Definition Videos : State :=
  mkState false 0 None None EmptyString EmptyString None None false false
          EmptyString.

Definition setUploading (b : bool) (s : State) : State :=
  mkState b (uploadProgress s) (error s) (selectedVideo s) (title s)
    (description s) (locationDetails s) (locationError s) (locationLoading s)
    (useCurrentLocation s) (address s).

Definition setUploadProgress (n : Z) (s : State) : State :=
  mkState (uploading s) n (error s) (selectedVideo s) (title s)
    (description s) (locationDetails s) (locationError s) (locationLoading s)
    (useCurrentLocation s) (address s).

Definition setError (e : option string) (s : State) : State :=
  mkState (uploading s) (uploadProgress s) e (selectedVideo s) (title s)
    (description s) (locationDetails s) (locationError s) (locationLoading s)
    (useCurrentLocation s) (address s).

Definition setSelectedVideo (v : option VideoDetails.t) (s : State) : State :=
  mkState (uploading s) (uploadProgress s) (error s) v (title s)
    (description s) (locationDetails s) (locationError s) (locationLoading s)
    (useCurrentLocation s) (address s).

Definition setTitle (t : string) (s : State) : State :=
  mkState (uploading s) (uploadProgress s) (error s) (selectedVideo s) t
    (description s) (locationDetails s) (locationError s) (locationLoading s)
    (useCurrentLocation s) (address s).

Definition setDescription (t : string) (s : State) : State :=
  mkState (uploading s) (uploadProgress s) (error s) (selectedVideo s)
    (title s) t (locationDetails s) (locationError s) (locationLoading s)
    (useCurrentLocation s) (address s).

Definition setLocationDetails (d : option LocationDetails.t) (s : State) :
    State :=
  mkState (uploading s) (uploadProgress s) (error s) (selectedVideo s)
    (title s) (description s) d (locationError s) (locationLoading s)
    (useCurrentLocation s) (address s).

Definition setLocationError (e : option string) (s : State) : State :=
  mkState (uploading s) (uploadProgress s) (error s) (selectedVideo s)
    (title s) (description s) (locationDetails s) e (locationLoading s)
    (useCurrentLocation s) (address s).

Definition setLocationLoading (b : bool) (s : State) : State :=
  mkState (uploading s) (uploadProgress s) (error s) (selectedVideo s)
    (title s) (description s) (locationDetails s) (locationError s) b
    (useCurrentLocation s) (address s).

Definition setUseCurrentLocation (b : bool) (s : State) : State :=
  mkState (uploading s) (uploadProgress s) (error s) (selectedVideo s)
    (title s) (description s) (locationDetails s) (locationError s)
    (locationLoading s) b (address s).

Definition setAddress (a : string) (s : State) : State :=
  mkState (uploading s) (uploadProgress s) (error s) (selectedVideo s)
    (title s) (description s) (locationDetails s) (locationError s)
    (locationLoading s) (useCurrentLocation s) a.

(** ** Values *)

(** [x || d] on a number: [undefined], [null], [0] and [NaN] are falsy. *)
Definition number_or (x : option float) (d : float) : float :=
  match x with
  | Some f => if (PrimFloat.eqb f 0 || PrimFloat.is_nan f)%bool then d else f
  | None => d
  end.

(** [x || d] on a string: the empty string is falsy. *)
Definition text_or (x : string) (d : string) : string :=
  if String.eqb x EmptyString then d else x.

Definition string_or (x : option string) (d : string) : string :=
  match x with
  | Some t => text_or t d
  | None => d
  end.

(** [text.lastIndexOf(c)], scanning from position [i] with the last
    position [found] so far. *)
Fixpoint lastIndexOf_from (c : Ascii.ascii) (l : list Ascii.ascii)
    (i found : Z) : Z :=
  match l with
  | [] => found
  | x :: rest =>
      lastIndexOf_from c rest (i + 1) (if Ascii.eqb x c then i else found)
  end.

Definition lastIndexOf (c : Ascii.ascii) (text : string) : Z :=
  lastIndexOf_from c (String.list_ascii_of_string text) 0 (-1).

(** [text.substring(start)] for a [start] that is not negative. *)
Definition substring_from (start : Z) (text : string) : string :=
  String.string_of_list_ascii
    (drop (Z.to_nat start) (String.list_ascii_of_string text)).

(** [text.includes(part)]. *)
Definition includes (part text : string) : bool :=
  match String.index 0 part text with
  | Some _ => true
  | None => false
  end.

(** ** What the screen asks of its collaborators *)

(** What is handed to the storage client: the blob fetched on the web, or
    a file descriptor elsewhere. *)
Inductive FileData :=
| Blob (content : string)
| File (uri type name : string).

Inductive Request :=
| RequestMediaLibraryPermissions
| LaunchImageLibrary
| AuthGetUser
| Fetch (uri : string)
| ReadBlob
| StorageUpload (filePath : string) (fileData : FileData) (contentType : string)
| InsertVideo (videoData : VideoData.t)
| Alert (heading message : string)
| RequestForegroundPermissions
| GetCurrentPosition
| ReverseGeocode (latitude longitude : float)
| GeocodeAddress (address : string).

(** What the image library answers: cancelled, or a list of assets. *)
Inductive PickerResult :=
| Canceled
| Assets (assets : list Asset.t).

(** What the storage client answers: done, an error object, or an
    exception. *)
Inductive UploadAnswer :=
| Uploaded
| UploadError (message : string)
| UploadThrew (message : string).

(** ** pickVideo *)

(** [video.fileSize && video.fileSize > MAX_VIDEO_SIZE]. *)
Definition too_large (video : Asset.t) : bool :=
  match Asset.fileSize video with
  | Some n => negb (n =? 0) && (MAX_VIDEO_SIZE <? n)
  | None => false
  end.

Definition details_of (video : Asset.t) : VideoDetails.t :=
  VideoDetails.mk (Asset.uri video) (number_or (Asset.duration video) 0)
    (string_or (Asset.type video) "video/mp4") (Asset.fileSize video).

(** Up to the awaited permission request. *)
Definition pickVideo_call (s : State) : State * list Request :=
  (setError None s, [RequestMediaLibraryPermissions]).

(** From the answer on the permission to the awaited picker; the boolean
    tells whether the picker was launched. *)
Definition pickVideo_permission (permissionResult : Answer bool) (s : State) :
    State * bool * list Request :=
  match permissionResult with
  | Data true => (s, true, [LaunchImageLibrary])
  | Data false =>
      (setError (Some "Permission to access media library is required") s,
       false, [])
  | Failed _ =>
      (setError (Some "Failed to pick video. Please try again.") s, false, [])
  end.

(** From the answer of the picker on. *)
Definition pickVideo_result (result : Answer PickerResult) (s : State) : State :=
  match result with
  | Data (Assets (video :: _)) =>
      if too_large video
      then setError (Some "Video size must be less than 100MB") s
      else setSelectedVideo (Some (details_of video)) s
  | Data _ => s
  | Failed _ => setError (Some "Failed to pick video. Please try again.") s
  end.

(** One call of [pickVideo] with the answers it gets. *)
Definition pickVideo (permissionResult : Answer bool)
    (result : Answer PickerResult) (s : State) : State * list Request :=
  let '(s1, r1) := pickVideo_call s in
  let '(s2, launched, r2) := pickVideo_permission permissionResult s1 in
  (if launched then pickVideo_result result s2 else s2, r1 ++ r2).

(** ** handleUpload *)

(** What a call of [handleUpload] has read from its render. *)
Record Closure := mkClosure {
  c_selectedVideo : VideoDetails.t;
  c_title : string;
  c_description : string;
  c_locationDetails : option LocationDetails.t;
}.

(** The [catch] and [finally] blocks. *)
Definition failed (message : string) (s : State) : State :=
  setUploading false
    (setError
       (Some (text_or message "Failed to upload video. Please try again.")) s).

(** The form reset, then the [finally] block. *)
Definition succeeded (s : State) : State :=
  setUploading false
    (setUploadProgress 0
       (setError None
          (setUseCurrentLocation false
             (setLocationDetails None
                (setAddress EmptyString
                   (setDescription EmptyString
                      (setTitle EmptyString (setSelectedVideo None s)))))))).

(** Up to the awaited [getUser]. *)
Definition handleUpload_call (s : State) :
    State * option Closure * list Request :=
  match selectedVideo s with
  | None => (setError (Some "Please select a video first") s, None, [])
  | Some video =>
      if trim_is_empty (title s)
      then (setError (Some "Please enter a title for your video") s, None, [])
      else (setUploadProgress 0 (setError None (setUploading true s)),
            Some (mkClosure video (title s) (description s)
                            (locationDetails s)),
            [AuthGetUser])
  end.

(** The part after the last full stop (character 46); the whole text when
    there is none, as [lastIndexOf] is then [-1]. *)
Definition ext_of (uri : string) : string :=
  substring_from (lastIndexOf (Ascii.ascii_of_nat 46) uri + 1) uri.

Definition fileName_of (uuid : string) (c : Closure) : string :=
  uuid +:+ "." +:+ ext_of (VideoDetails.uri (c_selectedVideo c)).

Definition filePath_of (user uuid : string) (c : Closure) : string :=
  user +:+ "/" +:+ fileName_of uuid c.

Definition contentType_of (c : Closure) : string :=
  text_or (VideoDetails.type (c_selectedVideo c)) "video/mp4".

Definition upload_request (user uuid : string) (fileData : FileData)
    (c : Closure) : Request :=
  StorageUpload (filePath_of user uuid c) fileData (contentType_of c).

(** The suspended calls of [handleUpload]. *)
Inductive Stage :=
| AwaitFetch (user uuid : string)
| AwaitBlob (user uuid : string)
| AwaitUpload (user uuid : string)
| AwaitInsert
| Done.

(** From the answer of [getUser] and the [uuidv4()] drawn for it. *)
Definition handleUpload_user (os : Platform) (c : Closure)
    (user : option string) (uuid : string) (s : State) :
    State * Stage * list Request :=
  match user with
  | None => (failed "User not found" s, Done, [])
  | Some id =>
      match os with
      | Web =>
          (s, AwaitFetch id uuid,
           [Fetch (VideoDetails.uri (c_selectedVideo c))])
      | Native =>
          (s, AwaitUpload id uuid,
           [upload_request id uuid
              (File (VideoDetails.uri (c_selectedVideo c)) (contentType_of c)
                    (fileName_of uuid c)) c])
      end
  end.

(** On the web: from the answer of [fetch]. *)
Definition handleUpload_fetched (user uuid : string) (response : Answer unit)
    (s : State) : State * Stage * list Request :=
  match response with
  | Data _ => (s, AwaitBlob user uuid, [ReadBlob])
  | Failed message => (failed message s, Done, [])
  end.

(** On the web: from the answer of [response.blob()]. *)
Definition handleUpload_blob (c : Closure) (user uuid : string)
    (blob : Answer string) (s : State) : State * Stage * list Request :=
  match blob with
  | Data content =>
      (s, AwaitUpload user uuid, [upload_request user uuid (Blob content) c])
  | Failed message => (failed message s, Done, [])
  end.

(** [onUploadProgress], with the rounded percentage it computed. *)
Definition onUploadProgress (percentage : Z) (s : State) : State :=
  setUploadProgress percentage s.

(** From the answer of the storage upload. *)
Definition handleUpload_uploaded (publicUrl : string → string) (c : Closure)
    (user uuid : string) (answer : UploadAnswer) (s : State) :
    State * Stage * list Request :=
  match answer with
  | Uploaded =>
      (s, AwaitInsert,
       [InsertVideo
          (VideoData.mk user (publicUrl (filePath_of user uuid c))
             (trim (c_title c)) (trim (c_description c))
             (c_locationDetails c))])
  | UploadError message =>
      (failed (if includes "storage quota" message
               then "Storage quota exceeded. Please try a smaller video."
               else message) s,
       Done, [])
  | UploadThrew message => (failed message s, Done, [])
  end.

(** From the answer of the insert. *)
Definition handleUpload_inserted (dbError : Answer unit) (s : State) :
    State * list Request :=
  match dbError with
  | Data _ => (succeeded s, [Alert "Success" "Video uploaded successfully!"])
  | Failed message => (failed message s, [])
  end.

(** The answers one call of [handleUpload] gets. *)
Record Answers := mkAnswers {
  user : option string;
  uuid : string;
  response : Answer unit;
  blob : Answer string;
  progress : list Z;
  uploaded : UploadAnswer;
  inserted : Answer unit;
}.

(** A suspended call resumed with its answers, stage by stage. *)
Definition resume (publicUrl : string → string) (c : Closure) (a : Answers)
    (stage : Stage) (s : State) : State * Stage * list Request :=
  match stage with
  | AwaitFetch id u => handleUpload_fetched id u (response a) s
  | AwaitBlob id u => handleUpload_blob c id u (blob a) s
  | AwaitUpload id u =>
      handleUpload_uploaded publicUrl c id u (uploaded a)
        (foldl (λ s' p, onUploadProgress p s') s (progress a))
  | AwaitInsert =>
      let '(s', rs) := handleUpload_inserted (inserted a) s in (s', Done, rs)
  | Done => (s, Done, [])
  end.

Fixpoint resume_all (publicUrl : string → string) (c : Closure) (a : Answers)
    (fuel : nat) (stage : Stage) (s : State) : State * Stage * list Request :=
  match fuel with
  | O => (s, stage, [])
  | S fuel' =>
      let '(s1, stage1, r1) := resume publicUrl c a stage s in
      let '(s2, stage2, r2) := resume_all publicUrl c a fuel' stage1 s1 in
      (s2, stage2, r1 ++ r2)
  end.

(** One call of [handleUpload] that no other handler interleaves with:
    four resumptions take any call to its end. *)
Definition handleUpload (os : Platform) (publicUrl : string → string)
    (a : Answers) (s : State) : State * list Request :=
  match handleUpload_call s with
  | (s1, Some c, r1) =>
      let '(s2, stage, r2) := handleUpload_user os c (user a) (uuid a) s1 in
      let '(s3, _, r3) := resume_all publicUrl c a 4 stage s2 in
      (s3, r1 ++ r2 ++ r3)
  | (s1, None, r1) => (s1, r1)
  end.

(** ** Location *)

(** [getCurrentLocation], up to the awaited permission request. *)
Definition getCurrentLocation_call (s : State) : State :=
  setLocationError None (setLocationLoading true s).

(** Its [catch] and [finally] blocks. *)
Definition getCurrentLocation_failed (s : State) : State :=
  setLocationLoading false
    (setUseCurrentLocation false
       (setLocationError (Some "Failed to get current location") s)).

(** What a suspended call waits for. *)
Inductive Task :=
| PickAwaitsPermission
| PickAwaitsLibrary
| UploadAwaitsUser (c : Closure)
| UploadAt (c : Closure) (stage : Stage)
| AwaitPermission
| AwaitPosition
| AwaitReverse (latitude longitude : float)
| AwaitGeocode (address : string)
| Ended.

(** ... from the answer about the permission ([Data true] is the status
    "granted") to the awaited position, or to the end. *)
Definition getCurrentLocation_permission (status : Answer bool) (s : State) :
    State * Task * list Request :=
  match status with
  | Data true => (s, AwaitPosition, [GetCurrentPosition])
  | Data false =>
      (setLocationLoading false
         (setUseCurrentLocation false
            (setLocationError
               (Some "Permission to access location was denied") s)),
       Ended, [])
  | Failed _ => (getCurrentLocation_failed s, Ended, [])
  end.

(** ... from the position to the awaited reverse geocoding. *)
Definition getCurrentLocation_position (location : Answer (float * float))
    (s : State) : State * Task * list Request :=
  match location with
  | Data (latitude, longitude) =>
      (s, AwaitReverse latitude longitude, [ReverseGeocode latitude longitude])
  | Failed _ => (getCurrentLocation_failed s, Ended, [])
  end.

(** ... from the reverse geocoding to the end of the [finally]. *)
Definition getCurrentLocation_reverse (latitude longitude : float)
    (addresses : Answer (list Address.t)) (s : State) : State :=
  match addresses with
  | Data l =>
      let formattedAddress :=
        match l with
        | address :: _ => formatAddress address
        | [] => "Unknown location"
        end in
      setLocationLoading false
        (setAddress formattedAddress
           (setLocationDetails
              (Some (LocationDetails.mk formattedAddress latitude longitude))
              s))
  | Failed _ => getCurrentLocation_failed s
  end.

(** [searchAddress], up to the awaited geocoding; the address it read goes
    with the call. *)
Definition searchAddress_call (s : State) : State * option string :=
  if trim_is_empty (address s)
  then (setLocationError (Some "Please enter an address") s, None)
  else (setLocationError None (setLocationLoading true s), Some (address s)).

(** ... from the answer of the geocoding to the end of the [finally]. *)
Definition searchAddress_settle (searched : string)
    (geocodeResult : Answer (list (float * float))) (s : State) : State :=
  match geocodeResult with
  | Data [] =>
      setLocationLoading false (setLocationError (Some "Address not found") s)
  | Data ((latitude, longitude) :: _) =>
      setLocationLoading false
        (setLocationDetails
           (Some (LocationDetails.mk searched latitude longitude)) s)
  | Failed _ =>
      setLocationLoading false
        (setLocationError (Some "Failed to find location") s)
  end.

(** ** The screen as a whole *)

(** What does not change during a session. *)
Record Env := mkEnv {
  os : Platform;
  publicUrl : string → string;
}.

(** The state with the calls that are in flight and all that was asked. *)
Record Uploader := mkUploader {
  state : State;
  tasks : list Task;
  requests : list Request;
}.

Definition mounted : Uploader := mkUploader Videos [] [].

Definition with_state (s : State) (w : Uploader) : Uploader :=
  mkUploader s (tasks w) (requests w).

(** A call is started: one more task, more requests. *)
Definition start (s : State) (t : Task) (rs : list Request) (w : Uploader) :
    Uploader :=
  mkUploader s (tasks w ++ [t]) (requests w ++ rs).

(** The call at [n] goes on: its task is replaced. *)
Definition continue (n : nat) (s : State) (t : Task) (rs : list Request)
    (w : Uploader) : Uploader :=
  mkUploader s (<[n := t]> (tasks w)) (requests w ++ rs).

Inductive Event :=
| PressPick
| MediaPermissionAnswered (n : nat) (permissionResult : Answer bool)
| LibraryAnswered (n : nat) (result : Answer PickerResult)
| ChangeTitle (text : string)
| ChangeDescription (text : string)
| ChangeAddress (text : string)
| PressCurrentLocation
| PermissionAnswered (n : nat) (status : Answer bool)
| PositionAnswered (n : nat) (location : Answer (float * float))
| ReverseAnswered (n : nat) (addresses : Answer (list Address.t))
| PressSearch
| GeocodeAnswered (n : nat) (geocodeResult : Answer (list (float * float)))
| PressUpload
| UserAnswered (n : nat) (user : option string) (uuid : string)
| FetchAnswered (n : nat) (response : Answer unit)
| BlobAnswered (n : nat) (blob : Answer string)
| UploadProgress (n : nat) (percentage : Z)
| UploadAnswered (n : nat) (answer : UploadAnswer)
| InsertAnswered (n : nat) (dbError : Answer unit).

(** The handler or continuation that an event runs.  The pick buttons and
    the upload button are disabled while [uploading], the location button
    while [locationLoading], the search button while [useCurrentLocation],
    [locationLoading] or a blank address; the three text fields take text
    at any time.  An answer is for the call at position [n] of [tasks], and
    is dropped when that call does not wait for it. *)
Definition handle (env : Env) (w : Uploader) (e : Event) : Uploader :=
  let s := state w in
  match e with
  | PressPick =>
      if uploading s then w
      else let '(s1, rs) := pickVideo_call s in
           start s1 PickAwaitsPermission rs w
  | MediaPermissionAnswered n permissionResult =>
      match tasks w !! n with
      | Some PickAwaitsPermission =>
          let '(s1, launched, rs) :=
            pickVideo_permission permissionResult s in
          continue n s1 (if launched then PickAwaitsLibrary else Ended) rs w
      | _ => w
      end
  | LibraryAnswered n result =>
      match tasks w !! n with
      | Some PickAwaitsLibrary =>
          continue n (pickVideo_result result s) Ended [] w
      | _ => w
      end
  | ChangeTitle text => with_state (setTitle text s) w
  | ChangeDescription text => with_state (setDescription text s) w
  | ChangeAddress text => with_state (setAddress text s) w
  | PressCurrentLocation =>
      if locationLoading s then w
      else with_state (setUseCurrentLocation (negb (useCurrentLocation s)) s) w
  | PermissionAnswered n status =>
      match tasks w !! n with
      | Some AwaitPermission =>
          let '(s1, t, rs) := getCurrentLocation_permission status s in
          continue n s1 t rs w
      | _ => w
      end
  | PositionAnswered n location =>
      match tasks w !! n with
      | Some AwaitPosition =>
          let '(s1, t, rs) := getCurrentLocation_position location s in
          continue n s1 t rs w
      | _ => w
      end
  | ReverseAnswered n addresses =>
      match tasks w !! n with
      | Some (AwaitReverse latitude longitude) =>
          continue n (getCurrentLocation_reverse latitude longitude addresses s)
                   Ended [] w
      | _ => w
      end
  | PressSearch =>
      if useCurrentLocation s || locationLoading s || trim_is_empty (address s)
      then w
      else match searchAddress_call s with
           | (s1, Some searched) =>
               start s1 (AwaitGeocode searched) [GeocodeAddress searched] w
           | (s1, None) => with_state s1 w
           end
  | GeocodeAnswered n geocodeResult =>
      match tasks w !! n with
      | Some (AwaitGeocode searched) =>
          continue n (searchAddress_settle searched geocodeResult s) Ended [] w
      | _ => w
      end
  | PressUpload =>
      if uploading s then w
      else match handleUpload_call s with
           | (s1, Some c, rs) => start s1 (UploadAwaitsUser c) rs w
           | (s1, None, _) => with_state s1 w
           end
  | UserAnswered n user uuid =>
      match tasks w !! n with
      | Some (UploadAwaitsUser c) =>
          let '(s1, stage, rs) := handleUpload_user (os env) c user uuid s in
          continue n s1 (UploadAt c stage) rs w
      | _ => w
      end
  | FetchAnswered n response =>
      match tasks w !! n with
      | Some (UploadAt c (AwaitFetch id u)) =>
          let '(s1, stage, rs) := handleUpload_fetched id u response s in
          continue n s1 (UploadAt c stage) rs w
      | _ => w
      end
  | BlobAnswered n blob =>
      match tasks w !! n with
      | Some (UploadAt c (AwaitBlob id u)) =>
          let '(s1, stage, rs) := handleUpload_blob c id u blob s in
          continue n s1 (UploadAt c stage) rs w
      | _ => w
      end
  | UploadProgress n percentage =>
      match tasks w !! n with
      | Some (UploadAt c (AwaitUpload id u)) =>
          with_state (onUploadProgress percentage s) w
      | _ => w
      end
  | UploadAnswered n answer =>
      match tasks w !! n with
      | Some (UploadAt c (AwaitUpload id u)) =>
          let '(s1, stage, rs) :=
            handleUpload_uploaded (publicUrl env) c id u answer s in
          continue n s1 (UploadAt c stage) rs w
      | _ => w
      end
  | InsertAnswered n dbError =>
      match tasks w !! n with
      | Some (UploadAt c AwaitInsert) =>
          let '(s1, rs) := handleUpload_inserted dbError s in
          continue n s1 (UploadAt c Done) rs w
      | _ => w
      end
  end.

(** The effect on [useCurrentLocation]: it runs when the value has changed,
    and starts [getCurrentLocation] or clears the location. *)
Definition useCurrentLocation_effect (before : bool) (w : Uploader) : Uploader :=
  let s := state w in
  if Bool.eqb before (useCurrentLocation s) then w
  else if useCurrentLocation s
       then start (getCurrentLocation_call s) AwaitPermission
                  [RequestForegroundPermissions] w
       else with_state (setLocationDetails None s) w.

Definition step (env : Env) (w : Uploader) (e : Event) : Uploader :=
  useCurrentLocation_effect (useCurrentLocation (state w)) (handle env w e).

Definition run (env : Env) (w : Uploader) (es : list Event) : Uploader :=
  foldl (step env) w es.

(** ** Notions used in the statements *)

(** [fileSize || 0] is within the limit: an unknown size counts as 0. *)
Definition within_limit (size : option Z) : Prop :=
  or_default size 0 ≤ MAX_VIDEO_SIZE.

Definition is_upload (t : Task) : bool :=
  match t with
  | UploadAwaitsUser _ => true
  | UploadAt _ Done => false
  | UploadAt _ _ => true
  | _ => false
  end.

Definition is_location (t : Task) : bool :=
  match t with
  | AwaitPermission | AwaitPosition | AwaitReverse _ _ | AwaitGeocode _ => true
  | _ => false
  end.

(** Number of suspended calls of a kind. *)
Definition in_flight (kind : Task → bool) (w : Uploader) : nat :=
  length (filter (λ t, kind t = true) (tasks w)).

(** What a suspended upload has read. *)
Definition closure_of (t : Task) : option Closure :=
  match t with
  | UploadAwaitsUser c => Some c
  | UploadAt c _ => Some c
  | _ => None
  end.

(** Did every collaborator of a call of [handleUpload] answer well?  The
    fetch and the blob are asked for on the web only. *)
Definition answers_good (os : Platform) (a : Answers) : bool :=
  match user a, uploaded a, inserted a with
  | Some _, Uploaded, Data _ =>
      match os, response a, blob a with
      | Native, _, _ => true
      | Web, Data _, Data _ => true
      | Web, _, _ => false
      end
  | _, _, _ => false
  end.

(** Does the form pass the two checks of [handleUpload]? *)
Definition form_ready (s : State) : bool :=
  match selectedVideo s with
  | Some _ => negb (trim_is_empty (title s))
  | None => false
  end.

(** The two flags agree with what is in flight. *)
Definition flags_ok (w : Uploader) : Prop :=
  in_flight is_upload w = (if uploading (state w) then 1%nat else 0%nat)
  ∧ in_flight is_location w
    = (if locationLoading (state w) then 1%nat else 0%nat).

(** The selection and what every upload has read passed the size check;
    every upload has read a title that is not blank. *)
Definition gate_ok (w : Uploader) : Prop :=
  (∀ v, selectedVideo (state w) = Some v →
        within_limit (VideoDetails.size v))
  ∧ (∀ t c, t ∈ tasks w → closure_of t = Some c →
            within_limit (VideoDetails.size (c_selectedVideo c))
            ∧ trim_is_empty (c_title c) = false).

(** The row that an upload inserts. *)
Definition row_of (env : Env) (user uuid : string) (c : Closure) :
    VideoData.t :=
  VideoData.mk user (publicUrl env (filePath_of user uuid c))
    (trim (c_title c)) (trim (c_description c)) (c_locationDetails c).

(** The file that an upload hands to the storage: elsewhere than on the
    web the descriptor of the selected file, on the web a blob. *)
Definition is_file_of (os : Platform) (c : Closure) (uuid : string)
    (fileData : FileData) : Prop :=
  match os with
  | Native =>
      fileData = File (VideoDetails.uri (c_selectedVideo c))
                      (contentType_of c) (fileName_of uuid c)
  | Web => ∃ content, fileData = Blob content
  end.

(** A call that waits for the storage has asked it to store its file, and
    one that waits for the fetch or the blob runs on the web; a row is
    inserted for a file that the storage was asked to store; no geocoding
    is asked for a blank address.  [known] holds of the user and uuid that
    a call has got. *)
Definition task_ok (env : Env) (known : string → string → Prop)
    (rs : list Request) (t : Task) : Prop :=
  match t with
  | UploadAt c (AwaitFetch id u) | UploadAt c (AwaitBlob id u) =>
      os env = Web ∧ known id u
  | UploadAt c (AwaitUpload id u) =>
      (∃ fileData, upload_request id u fileData c ∈ rs
                   ∧ is_file_of (os env) c u fileData)
      ∧ known id u
  | _ => True
  end.

Definition requests_ok (env : Env) (known : string → string → Prop)
    (w : Uploader) : Prop :=
  (∀ t, t ∈ tasks w → task_ok env known (requests w) t)
  ∧ (∀ d, InsertVideo d ∈ requests w →
       ∃ c id u fileData,
         d = row_of env id u c
         ∧ upload_request id u fileData c ∈ requests w
         ∧ is_file_of (os env) c u fileData
         ∧ known id u
         ∧ (∃ t, t ∈ tasks w ∧ closure_of t = Some c))
  ∧ (∀ a, GeocodeAddress a ∈ requests w → trim_is_empty a = false).

(** [getUser] has answered [id] during the run, to a call for which
    [uuid] was drawn. *)
Definition answered (es : list Event) (id uuid : string) : Prop :=
  ∃ n, UserAnswered n (Some id) uuid ∈ es.



(** The current-location switch is on only while the location is loading
    or a location is attached; an address search runs with the switch off. *)
Definition switch_ok (w : Uploader) : Prop :=
  (∀ a, AwaitGeocode a ∈ tasks w → useCurrentLocation (state w) = false)
  ∧ (useCurrentLocation (state w) = true →
     locationLoading (state w) = false →
     is_Some (locationDetails (state w))).

End Videos.

(** * Proofs *)

(** ** The array [map] of the counter and edit patches *)

Lemma map_patch_other videoId patch h prev other :
  (∀ v, Video.id (patch v) = Video.id v) →
  other ≠ videoId →
  filter (λ e, Video.id (FeedEntry.video e) = other)
         (map_patch videoId patch h prev).1
  = filter (λ e, Video.id (FeedEntry.video e) = other) prev.
Proof.
  intros Hid Hne. revert h.
  induction prev as [|e rest IH]; intros h; simpl; [done|].
  destruct (String.eqb_spec (Video.id (FeedEntry.video e)) videoId) as [Heq|Hneq].
  - destruct (map_patch videoId patch (S h) rest) as [rest' h'] eqn:E.
    simpl. specialize (IH (S h)). rewrite E in IH. simpl in IH.
    rewrite !filter_cons. simpl. rewrite Hid.
    rewrite !decide_False by congruence. done.
  - destruct (map_patch videoId patch h rest) as [rest' h'] eqn:E.
    simpl. specialize (IH h). rewrite E in IH. simpl in IH.
    rewrite !filter_cons. rewrite IH. done.
Qed.

Lemma map_patch_same videoId patch h prev :
  (∀ v, Video.id (patch v) = Video.id v) →
  FeedEntry.video <$>
    filter (λ e, Video.id (FeedEntry.video e) = videoId)
           (map_patch videoId patch h prev).1
  = patch <$> (FeedEntry.video <$>
      filter (λ e, Video.id (FeedEntry.video e) = videoId) prev).
Proof.
  intros Hid. revert h.
  induction prev as [|e rest IH]; intros h; simpl; [done|].
  destruct (String.eqb_spec (Video.id (FeedEntry.video e)) videoId) as [Heq|Hneq].
  - destruct (map_patch videoId patch (S h) rest) as [rest' h'] eqn:E.
    simpl. specialize (IH (S h)). rewrite E in IH. simpl in IH.
    rewrite !filter_cons. cbn [FeedEntry.video]. rewrite Hid.
    rewrite !decide_True by done. rewrite !fmap_cons. cbn [FeedEntry.video].
    by rewrite IH.
  - destruct (map_patch videoId patch h rest) as [rest' h'] eqn:E.
    simpl. specialize (IH h). rewrite E in IH. simpl in IH.
    rewrite !filter_cons. rewrite !decide_False by done. done.
Qed.

(** Entries with another id are the very same objects, at the same
    positions. *)
Lemma map_patch_lookup videoId patch h prev i e :
  prev !! i = Some e →
  Video.id (FeedEntry.video e) ≠ videoId →
  (map_patch videoId patch h prev).1 !! i = Some e.
Proof.
  revert h i. induction prev as [|e0 rest IH]; intros h i; [done|].
  simpl.
  destruct (String.eqb_spec (Video.id (FeedEntry.video e0)) videoId) as [Heq|Hneq].
  - destruct (map_patch videoId patch (S h) rest) as [rest' h'] eqn:E.
    destruct i as [|i]; simpl.
    + intros [= <-] Hne. congruence.
    + intros Hl Hne. specialize (IH (S h) i Hl Hne). by rewrite E in IH.
  - destruct (map_patch videoId patch h rest) as [rest' h'] eqn:E.
    destruct i as [|i]; simpl.
    + done.
    + intros Hl Hne. specialize (IH h i Hl Hne). by rewrite E in IH.
Qed.

(** An entry with the patched id is replaced by a copy with the patch
    applied and the same [user]. *)
Lemma map_patch_lookup_hit videoId patch h prev i e :
  prev !! i = Some e →
  Video.id (FeedEntry.video e) = videoId →
  ∃ o, (map_patch videoId patch h prev).1 !! i
       = Some (FeedEntry.mk o (patch (FeedEntry.video e)) (FeedEntry.user e)).
Proof.
  revert h i. induction prev as [|e0 rest IH]; intros h i; [done|].
  simpl.
  destruct (String.eqb_spec (Video.id (FeedEntry.video e0)) videoId) as [Heq|Hneq].
  - destruct (map_patch videoId patch (S h) rest) as [rest' h'] eqn:E.
    destruct i as [|i]; simpl.
    + intros [= <-] _. eauto.
    + intros Hl He. destruct (IH (S h) i Hl He) as [o Ho].
      rewrite E in Ho. eauto.
  - destruct (map_patch videoId patch h rest) as [rest' h'] eqn:E.
    destruct i as [|i]; simpl.
    + intros [= <-] He. congruence.
    + intros Hl He. destruct (IH h i Hl He) as [o Ho].
      rewrite E in Ho. eauto.
Qed.

Lemma map_patch_length videoId patch h prev :
  length (map_patch videoId patch h prev).1 = length prev.
Proof.
  revert h. induction prev as [|e rest IH]; intros h; simpl; [done|].
  destruct (String.eqb (Video.id (FeedEntry.video e)) videoId).
  - specialize (IH (S h)).
    destruct (map_patch videoId patch (S h) rest); simpl in *. by rewrite IH.
  - specialize (IH h).
    destruct (map_patch videoId patch h rest); simpl in *. by rewrite IH.
Qed.

(** ** One settled like or bookmark *)

Lemma like_counts_patch videoId (f : Z → Z) s :
  like_counts
    (patchVideos videoId (λ v, set_like_count (f (Video.like_count v)) v) s)
    videoId
  = f <$> like_counts s videoId.
Proof.
  unfold like_counts, entries_of, patchVideos.
  pose proof (map_patch_same videoId
    (λ v, set_like_count (f (Video.like_count v)) v) (heap s) (videos s)
    (λ v, eq_refl)) as H.
  destruct (map_patch _ _ _ _) as [vs h]. simpl in *.
  rewrite (list_fmap_compose FeedEntry.video Video.like_count).
  rewrite H, <- !list_fmap_compose. done.
Qed.

Lemma entries_patch_other videoId patch s other :
  (∀ v, Video.id (patch v) = Video.id v) →
  other ≠ videoId →
  entries_of (patchVideos videoId patch s) other = entries_of s other.
Proof.
  intros Hid Hne. unfold entries_of, patchVideos.
  pose proof (map_patch_other videoId patch (heap s) (videos s) other Hid Hne) as H.
  destruct (map_patch _ _ _ _) as [vs h]. done.
Qed.

Lemma interactions_patch videoId patch s :
  interactionState (patchVideos videoId patch s) = interactionState s.
Proof. unfold patchVideos. by destruct (map_patch _ _ _ _). Qed.

Lemma videoState_patch videoId patch s :
  videoState (patchVideos videoId patch s) = videoState s.
Proof. unfold patchVideos. by destruct (map_patch _ _ _ _). Qed.


Lemma handleLike_settle_count videoId flag s :
  like_counts (handleLike_settle videoId flag None s) videoId
  = (λ k, k + like_delta flag) <$> like_counts s videoId.
Proof.
  unfold handleLike_settle, like_delta.
  destruct (truthy flag).
  - transitivity (like_counts
      (patchVideos videoId (λ v, set_like_count (Video.like_count v - 1) v) s)
      videoId); [done|].
    rewrite (like_counts_patch videoId (λ k, k - 1)).
    apply list_fmap_ext. intros _ k _. lia.
  - transitivity (like_counts
      (patchVideos videoId (λ v, set_like_count (Video.like_count v + 1) v) s)
      videoId); [done|].
    by rewrite (like_counts_patch videoId (λ k, k + 1)).
Qed.

Lemma handleLike_settle_flag videoId flag s :
  isLiked_of (handleLike_settle videoId flag None s) videoId
  = negb (truthy flag).
Proof.
  unfold handleLike_settle, isLiked_of, read_isLiked. simpl.
  by rewrite lookup_insert_eq.
Qed.

Lemma handleLike_settle_videoState videoId flag error s :
  videoState (handleLike_settle videoId flag error s) = videoState s.
Proof.
  destruct error; [done|]. unfold handleLike_settle. simpl.
  destruct (truthy flag); apply videoState_patch.
Qed.

(** ** Calls of the handlers, step by step *)

Lemma screen_commit b s w : screen (commit b s w) = s.
Proof. done. Qed.

Lemma tasks_commit b s w : tasks (commit b s w) = tasks w.
Proof. done. Qed.

Lemma requests_commit b s w : requests (commit b s w) = requests w.
Proof. done. Qed.

Lemma handleLike_user_some closure videoId uid :
  handleLike_user closure videoId (Some uid)
  = (AwaitMutation Like videoId (read_isLiked closure videoId),
     [like_mutation videoId uid (read_isLiked closure videoId)]).
Proof.
  unfold handleLike_user, like_mutation.
  by destruct (truthy (read_isLiked closure videoId)).
Qed.

Lemma handleBookmark_user_some closure videoId uid :
  handleBookmark_user closure videoId (Some uid)
  = (AwaitMutation Bookmark videoId (read_isBookmarked closure videoId),
     [bookmark_mutation videoId uid (read_isBookmarked closure videoId)]).
Proof.
  unfold handleBookmark_user, bookmark_mutation.
  by destruct (truthy (read_isBookmarked closure videoId)).
Qed.

Lemma insert_last_task (ts : list Task) (t t' : Task) :
  <[length ts := t']> (ts ++ [t]) = ts ++ [t'].
Proof.
  rewrite insert_app_r_alt by lia. by rewrite Nat.sub_diag.
Qed.

Lemma lookup_last_task (ts : list Task) (t : Task) :
  (ts ++ [t]) !! length ts = Some t.
Proof. by apply list_lookup_middle. Qed.

#[local] Arguments handleLike_user : simpl never.
#[local] Arguments handleBookmark_user : simpl never.
#[local] Arguments handleLike_settle : simpl never.
#[local] Arguments handleBookmark_settle : simpl never.
#[local] Arguments commit : simpl never.

(** A like pressed by a signed-in user, up to the awaited mutation. *)
Lemma like_in_flight w videoId uid :
  let flag := read_isLiked (interactions (interactionState (screen w))) videoId in
  store_run w [PressLike videoId; UserResolved (length (tasks w)) (Some uid)]
  = mkWorld (host w) (screen w) (cells w)
      (tasks w ++ [AwaitMutation Like videoId flag])
      (requests w ++ [AuthGetUser; like_mutation videoId uid flag])
      (commands w).
Proof.
  intros flag. unfold store_run. simpl. unfold spawn. simpl.
  rewrite lookup_last_task. rewrite handleLike_user_some.
  unfold resume. simpl. rewrite insert_last_task.
  by rewrite <- app_assoc.
Qed.

Lemma bookmark_in_flight w videoId uid :
  let flag :=
    read_isBookmarked (interactions (interactionState (screen w))) videoId in
  store_run w [PressBookmark videoId; UserResolved (length (tasks w)) (Some uid)]
  = mkWorld (host w) (screen w) (cells w)
      (tasks w ++ [AwaitMutation Bookmark videoId flag])
      (requests w ++ [AuthGetUser; bookmark_mutation videoId uid flag])
      (commands w).
Proof.
  intros flag. unfold store_run. simpl. unfold spawn. simpl.
  rewrite lookup_last_task. rewrite handleBookmark_user_some.
  unfold resume. simpl. rewrite insert_last_task.
  by rewrite <- app_assoc.
Qed.

(** A press without a signed-in user ends at the first [await]. *)
Lemma like_signed_out w videoId error :
  toggleLike videoId None error w
  = mkWorld (host w) (screen w) (cells w) (tasks w ++ [Settled])
            (requests w ++ [AuthGetUser]) (commands w).
Proof.
  unfold toggleLike, store_run. simpl. unfold spawn. simpl.
  rewrite lookup_last_task. unfold resume. simpl.
  rewrite insert_last_task, lookup_last_task, app_nil_r. done.
Qed.

Lemma bookmark_signed_out w videoId error :
  toggleBookmark videoId None error w
  = mkWorld (host w) (screen w) (cells w) (tasks w ++ [Settled])
            (requests w ++ [AuthGetUser]) (commands w).
Proof.
  unfold toggleBookmark, store_run. simpl. unfold spawn. simpl.
  rewrite lookup_last_task. unfold resume. simpl.
  rewrite insert_last_task, lookup_last_task, app_nil_r. done.
Qed.

Lemma mutations_app (rs1 rs2 : list Request) :
  filter (λ r, is_mutation r = true) (rs1 ++ rs2)
  = filter (λ r, is_mutation r = true) rs1
    ++ filter (λ r, is_mutation r = true) rs2.
Proof. apply filter_app. Qed.

Lemma like_mutation_is_mutation videoId uid flag :
  is_mutation (like_mutation videoId uid flag) = true.
Proof. unfold like_mutation. by destruct (truthy flag). Qed.

Lemma store_run_snoc w es e :
  store_run w (es ++ [e]) = store_step (store_run w es) e.
Proof. unfold store_run. by rewrite foldl_app. Qed.

(** Settling the like that is last in the task list. *)
Lemma like_settle_last hw s cs ts rs cmds videoId flag error :
  store_step (mkWorld hw s cs (ts ++ [AwaitMutation Like videoId flag]) rs cmds)
             (MutationSettled (length ts) error)
  = match error with
    | Some _ => mkWorld hw s cs (ts ++ [Settled]) rs cmds
    | None =>
        commit true (handleLike_settle videoId flag None s)
               (mkWorld hw s cs (ts ++ [Settled]) rs cmds)
    end.
Proof.
  unfold store_step. cbn [tasks]. rewrite lookup_last_task.
  unfold finish. cbn [tasks screen cells requests commands].
  rewrite insert_last_task. by destruct error.
Qed.

Lemma toggleLike_signed_in w videoId uid error :
  toggleLike videoId (Some uid) error w
  = store_step
      (store_run w [PressLike videoId; UserResolved (length (tasks w)) (Some uid)])
      (MutationSettled (length (tasks w)) error).
Proof.
  unfold toggleLike.
  by rewrite <- (store_run_snoc w [PressLike videoId; UserResolved _ _]).
Qed.

(** ** The claims on the interaction store *)

(** C2 (as the code has it).  [toggleLike(v)] is not optimistic: while the
    create/delete mutation is in flight the screen state is the one before
    the press; when the mutation settles without error the flag of [v]
    becomes the negation of the flag read at the press and every
    [like_count] of [v] moves by one (down if it was liked, up otherwise);
    when it settles with an error the screen state is again untouched, so
    there is nothing to roll back. *)
Theorem toggleLike_applies_on_success (w : World) (videoId uid : string) :
  let n := length (tasks w) in
  let flag := read_isLiked (interactions (interactionState (screen w))) videoId in
  let w1 := store_run w [PressLike videoId; UserResolved n (Some uid)] in
  (screen w1 = screen w
   ∧ tasks w1 !! n = Some (AwaitMutation Like videoId flag)
   ∧ requests w1 = requests w ++ [AuthGetUser; like_mutation videoId uid flag])
  ∧ (∀ err, screen (store_step w1 (MutationSettled n (Some err))) = screen w)
  ∧ (let w2 := store_step w1 (MutationSettled n None) in
     isLiked_of (screen w2) videoId = negb (isLiked_of (screen w) videoId)
     ∧ like_counts (screen w2) videoId
       = (λ k, k + (if isLiked_of (screen w) videoId then -1 else 1))
           <$> like_counts (screen w) videoId).
Proof.
  intros n flag w1. subst w1 n. rewrite like_in_flight. fold flag.
  repeat split.
  - cbn [tasks]. apply lookup_last_task.
  - intros err. by rewrite like_settle_last.
  - rewrite like_settle_last, screen_commit. apply handleLike_settle_flag.
  - rewrite like_settle_last, screen_commit. apply handleLike_settle_count.
Qed.

(** C3.  A [toggleLike(v)] whose mutation fails leaves the whole screen
    state, hence the flag and every [like_count] of [v], as before the
    press; it has sent exactly one mutation and nothing of the call is
    left pending, so nothing is retried.  The failing answer changes
    nothing in whatever state it arrives. *)
Theorem toggleLike_failure_restores (w : World) (videoId uid err : string) :
  let flag := read_isLiked (interactions (interactionState (screen w))) videoId in
  let w' := toggleLike videoId (Some uid) (Some err) w in
  screen w' = screen w
  ∧ cells w' = cells w
  ∧ isLiked_of (screen w') videoId = isLiked_of (screen w) videoId
  ∧ like_counts (screen w') videoId = like_counts (screen w) videoId
  ∧ filter (λ r, is_mutation r = true) (requests w')
    = filter (λ r, is_mutation r = true) (requests w)
      ++ [like_mutation videoId uid flag]
  ∧ tasks w' = tasks w ++ [Settled]
  ∧ (∀ s, handleLike_settle videoId flag (Some err) s = s).
Proof.
  intros flag w'. subst w'.
  rewrite toggleLike_signed_in, like_in_flight, like_settle_last. fold flag.
  cbn [screen cells requests tasks]. repeat split.
  rewrite mutations_app. f_equal.
  rewrite !filter_cons, filter_nil. cbn [is_mutation].
  rewrite decide_False by done.
  by rewrite decide_True by apply like_mutation_is_mutation.
Qed.

(** C10.  Without a signed-in user [toggleLike] and [toggleBookmark] return
    at the first check: the only request is the one to the auth
    collaborator, no mutation is sent, the call is over, and the screen
    state (every counter and every interaction flag) and the mounted
    players are untouched. *)
Theorem toggle_signed_out_noop (w : World) (videoId : string)
    (error : option string) :
  let wl := toggleLike videoId None error w in
  let wb := toggleBookmark videoId None error w in
  (screen wl = screen w ∧ cells wl = cells w
   ∧ requests wl = requests w ++ [AuthGetUser]
   ∧ filter (λ r, is_mutation r = true) (requests wl)
     = filter (λ r, is_mutation r = true) (requests w)
   ∧ tasks wl = tasks w ++ [Settled])
  ∧ (screen wb = screen w ∧ cells wb = cells w
     ∧ requests wb = requests w ++ [AuthGetUser]
     ∧ filter (λ r, is_mutation r = true) (requests wb)
       = filter (λ r, is_mutation r = true) (requests w)
     ∧ tasks wb = tasks w ++ [Settled]).
Proof.
  intros wl wb. subst wl wb.
  rewrite like_signed_out, bookmark_signed_out. cbn [screen cells requests tasks].
  repeat split; rewrite mutations_app; simpl; by rewrite app_nil_r.
Qed.

(** C2, refuted as stated on the sample feed: with the insert for "B" in
    flight, "B" is shown as before the press, neither flipped nor
    counted. *)
Lemma toggleLike_not_optimistic :
  let w1 := store_run sample_world [PressLike "B"; UserResolved 0 (Some "me")] in
  tasks w1 = [AwaitMutation Like "B" None]
  ∧ requests w1 = [AuthGetUser; InsertInto "video_likes" "B" "me"]
  ∧ isLiked_of (screen w1) "B" = isLiked_of (screen sample_world) "B"
  ∧ like_counts (screen w1) "B" = like_counts (screen sample_world) "B"
  ∧ ¬ (isLiked_of (screen w1) "B" = negb (isLiked_of (screen sample_world) "B")
       ∧ like_counts (screen w1) "B"
         = (λ k, k + 1) <$> like_counts (screen sample_world) "B").
Proof.
  vm_compute. repeat split; try reflexivity. intros [H _]. discriminate H.
Qed.

(** ** Two likes of one video in flight together *)









(** ** The playback side *)

Lemma indexOf_from_lookup i l p e :
  NoDup (FeedEntry.obj <$> l) →
  l !! p = Some e →
  indexOf_from i l e = i + Z.of_nat p.
Proof.
  revert i p. induction l as [|e0 rest IH]; intros i p Hnd Hl; [done|].
  rewrite fmap_cons in Hnd. apply NoDup_cons in Hnd as [Hnotin Hnd].
  simpl. destruct p as [|p]; simpl in Hl.
  - injection Hl as <-. rewrite Nat.eqb_refl. lia.
  - destruct (Nat.eqb_spec (FeedEntry.obj e0) (FeedEntry.obj e)) as [Heq|Hne].
    + exfalso. apply Hnotin. rewrite Heq.
      apply list_elem_of_fmap_2. by apply list_elem_of_lookup_2 in Hl.
    + rewrite (IH (i + 1) p Hnd Hl). lia.
Qed.

Lemma indexOf_lookup l p e :
  distinct_objects l → l !! p = Some e → indexOf l e = Z.of_nat p.
Proof. intros Hnd Hl. unfold indexOf. by rewrite (indexOf_from_lookup 0 l p e). Qed.

Lemma renderItem_current s p item :
  distinct_objects (videos s) →
  videos s !! p = Some item →
  isCurrentVideo (renderItem s item)
  = (currentIndex (videoState s) =? Z.of_nat p).
Proof. intros Hnd Hl. simpl. by rewrite (indexOf_lookup _ p). Qed.

Lemma concat_imap_nil {A B} (f : nat → A → list B) (l : list A) :
  (∀ i x, f i x = []) → concat (imap f l) = [].
Proof.
  revert f. induction l as [|x l IH]; intros f Hf; [done|].
  simpl. rewrite Hf. simpl. apply IH. intros i y. apply Hf.
Qed.

(** [VideoScroll] never stores a ref in its own [videoRefs], so its
    play/pause effect addresses no player. *)
Lemma playback_effect_nil os s :
  videoRefs (videoState s) = ∅ → playback_effect os s = [].
Proof.
  intros Hrefs. unfold playback_effect.
  destruct (0 <? Z.of_nat (length (videos s))); [|done].
  apply concat_imap_nil. intros i x. by rewrite Hrefs, lookup_empty.
Qed.

Lemma commit_no_refs b s w :
  videoRefs (videoState s) = ∅ →
  commit b s w
  = mkWorld (host w) s (render (host w) s (cells w))
            (tasks w) (requests w) (commands w).
Proof.
  intros Hrefs. unfold commit. rewrite (playback_effect_nil _ s Hrefs).
  destruct (_ || _); simpl; by rewrite app_nil_r.
Qed.

Lemma VideoPlayer_shouldPlay os pr vs :
  Element.shouldPlay (VideoPlayer os pr vs) = isCurrentVideo pr.
Proof. by destruct os. Qed.

Lemma VideoPlayer_isMuted os pr vs :
  Element.isMuted (VideoPlayer os pr vs) = isMuted vs.
Proof. by destruct os. Qed.

Lemma created_native hw el :
  os hw = Native → created hw el = Element.shouldPlay el.
Proof. intros H. unfold created. by rewrite H. Qed.

Lemma rendered_again_native hw was el :
  os hw = Native → rendered_again hw was el = Element.shouldPlay el.
Proof. intros H. unfold rendered_again. by rewrite H. Qed.

#[local] Arguments VideoPlayer : simpl never.
#[local] Arguments created : simpl never.
#[local] Arguments rendered_again : simpl never.

Lemma render_cell_ok hw s s' p c :
  distinct_objects (videos s') →
  videos s' = videos s →
  cell_ok hw s p c →
  cell_ok hw s' p (render_cell hw s' p c).
Proof.
  intros Hnd Hv (Hitem & Hcur & Hel & Hplay & Hmute & Helmute).
  unfold render_cell. rewrite <- Hv in Hitem. destruct Hitem as [item Hitem].
  rewrite Hitem.
  pose proof (renderItem_current s' p item Hnd Hitem) as Hnext.
  destruct (MemoizedVideoPlayer (props c) (renderItem s' item)) eqn:Hmemo.
  - unfold MemoizedVideoPlayer in Hmemo.
    apply andb_prop in Hmemo as [Hmemo _]. apply andb_prop in Hmemo as [Hmemo _].
    apply Bool.eqb_prop in Hmemo.
    repeat split; try done. by rewrite Hmemo.
  - cbv zeta. split; [by eexists|]. cbn [props element playing hook].
    split; [done|]. split; [apply VideoPlayer_shouldPlay|].
    split; [intros Hos; by apply rendered_again_native|].
    split; [done|]. apply VideoPlayer_isMuted.
Qed.

Lemma render_ok hw s s' cs :
  distinct_objects (videos s') →
  videos s' = videos s →
  map_Forall (cell_ok hw s) cs →
  map_Forall (cell_ok hw s') (render hw s' cs).
Proof.
  intros Hnd Hv Hall p c Hl. unfold render in Hl.
  rewrite map_lookup_imap in Hl.
  destruct (cs !! p) as [c0|] eqn:Hc; simpl in Hl; [|done].
  injection Hl as <-. apply (render_cell_ok hw s); auto.
Qed.

Lemma mount_ok hw s p cs :
  distinct_objects (videos s) →
  map_Forall (cell_ok hw s) cs →
  map_Forall (cell_ok hw s) (mount hw s p cs).
Proof.
  intros Hnd Hall. unfold mount.
  destruct (videos s !! p) as [item|] eqn:Hitem; [|done].
  apply map_Forall_insert_2; [|done].
  split; [by eexists|]. cbn [props element playing hook].
  split; [apply (renderItem_current s p item Hnd Hitem)|].
  split; [apply VideoPlayer_shouldPlay|].
  split; [intros Hos; by apply created_native|].
  split; [done|]. by rewrite VideoPlayer_isMuted.
Qed.

Lemma playback_inv_intro feed hw s cs ts rs cmds :
  videos s = feed →
  videoRefs (videoState s) = ∅ →
  map_Forall (cell_ok hw s) cs →
  playback_inv feed (mkWorld hw s cs ts rs cmds).
Proof. by intros; split; [|split]. Qed.

Lemma playback_step_host w e : host (playback_step w e) = host w.
Proof.
  by destruct e as [[|first rest]|p|p|].
Qed.

Lemma playback_run_host w es : host (playback_run w es) = host w.
Proof.
  revert w. induction es as [|e es IH]; intros w; [done|].
  change (playback_run w (e :: es)) with (playback_run (playback_step w e) es).
  by rewrite IH, playback_step_host.
Qed.

Section PlaybackInvariant.
Context (feed : list FeedEntry.t) (Hdistinct : distinct_objects feed).

Lemma playback_step_inv w e :
  playback_inv feed w → playback_inv feed (playback_step w e).
Proof using Hdistinct.
  intros (Hv & Hrefs & Hcells). subst feed.
  destruct e as [changed|p|p|]; simpl.
  - destruct changed as [|first rest]; simpl; [done|].
    destruct (ViewToken.isViewable first);
      rewrite commit_no_refs by done;
      (apply playback_inv_intro; [done|done|]);
      apply (render_ok (host w) (screen w)); done.
  - apply playback_inv_intro; [done|done|]. by apply mount_ok.
  - apply playback_inv_intro; [done|done|]. by apply map_Forall_delete.
  - rewrite commit_no_refs by done.
    apply playback_inv_intro; [done|done|].
    apply (render_ok (host w) (screen w)); done.
Qed.

Lemma loaded_inv hw h : playback_inv feed (loaded hw feed h).
Proof. apply playback_inv_intro; [done|done|]. apply map_Forall_empty. Qed.

Lemma playback_run_inv w es :
  playback_inv feed w → playback_inv feed (playback_run w es).
Proof using Hdistinct.
  revert w. induction es as [|e es IH]; intros w Hw; [done|].
  simpl. apply IH. by apply playback_step_inv.
Qed.

(** The invariant holds in every world reached from the loaded feed. *)
Lemma reachable_inv hw h es :
  playback_inv feed (playback_run (loaded hw feed h) es).
Proof using Hdistinct. apply playback_run_inv, loaded_inv. Qed.

End PlaybackInvariant.

(** On a device a mounted player plays exactly when its page is the
    active one. *)
Lemma cell_playing_iff hw s p c :
  os hw = Native →
  cell_ok hw s p c →
  playing c = (currentIndex (videoState s) =? Z.of_nat p).
Proof. intros Hos (_ & Hcur & Hel & Hplay & _). by rewrite Hplay, Hel. Qed.

Lemma playing_count_spec feed w :
  os (host w) = Native →
  playback_inv feed w →
  playing_count w = if active_mounted w then 1%nat else 0%nat.
Proof.
  intros Hos (_ & _ & Hcells). unfold playing_count, active_mounted.
  set (i := currentIndex (videoState (screen w))).
  destruct (Z.leb_spec 0 i) as [Hi|Hi]; simpl.
  - destruct (cells w !! Z.to_nat i) as [c0|] eqn:Hc0.
    + rewrite bool_decide_eq_true_2 by eauto.
      assert (Hp0 : playing c0 = true).
      { rewrite (cell_playing_iff _ _ _ _ Hos (Hcells _ _ Hc0)). fold i.
        apply Z.eqb_eq. lia. }
      replace (filter (λ kv : nat * Player, playing kv.2 = true) (cells w))
        with ({[Z.to_nat i := c0]} : gmap nat Player);
        [apply map_size_singleton|].
      apply map_eq. intros p. destruct (decide (p = Z.to_nat i)) as [->|Hne].
      * rewrite lookup_singleton_eq. symmetry.
        by apply map_lookup_filter_Some.
      * rewrite lookup_singleton_ne by done. symmetry.
        apply map_lookup_filter_None. right. intros c Hc Hplay. simpl in Hplay.
        rewrite (cell_playing_iff _ _ _ _ Hos (Hcells _ _ Hc)) in Hplay.
        fold i in Hplay. apply Z.eqb_eq in Hplay. lia.
    + rewrite bool_decide_eq_false_2 by (intros [? ?]; done).
      replace (filter (λ kv : nat * Player, playing kv.2 = true) (cells w))
        with (∅ : gmap nat Player); [apply map_size_empty|].
      symmetry. apply map_empty. intros p.
      apply map_lookup_filter_None. right. intros c Hc Hplay. simpl in Hplay.
      rewrite (cell_playing_iff _ _ _ _ Hos (Hcells _ _ Hc)) in Hplay.
      fold i in Hplay. apply Z.eqb_eq in Hplay.
      assert (p = Z.to_nat i) by lia. congruence.
  - replace (filter (λ kv : nat * Player, playing kv.2 = true) (cells w))
      with (∅ : gmap nat Player); [apply map_size_empty|].
    symmetry. apply map_empty. intros p.
    apply map_lookup_filter_None. right. intros c Hc Hplay. simpl in Hplay.
    rewrite (cell_playing_iff _ _ _ _ Hos (Hcells _ _ Hc)) in Hplay.
    fold i in Hplay. apply Z.eqb_eq in Hplay. lia.
Qed.

Lemma sample_feed_distinct : distinct_objects sample_feed.
Proof.
  unfold distinct_objects. simpl. apply NoDup_ListNoDup.
  repeat constructor; simpl; lia.
Defined.

(** ** The claims on the playback side *)

(** C1, the code at the failing input.  In a browser that lets media start
    by itself, with the three cells of the sample feed mounted and page 0
    playing, the report that page 1 is viewable makes page 1 the active
    page and takes [autoPlay] off the element of page 0, which pauses
    nothing: the play/pause effect of the screen, which would pause it,
    finds no ref and sends no command.  So page 0 goes on playing.  Where
    the browser starts media when [autoPlay] is added, page 1 starts too
    and two players are playing; where it does not, the one player that
    is playing is not that of the active page.  On a device the same run
    leaves page 1 playing alone. *)
Lemma web_old_page_keeps_playing :
  let report := ViewableItemsChanged [ViewToken.mk 1 true; ViewToken.mk 0 false] in
  let run hw := playback_run (loaded hw sample_feed 3)
                  [MountCell 0; MountCell 1; MountCell 2; report] in
  let eager := run eager_browser in
  let lazy := run permissive_browser in
  (currentIndex (videoState (screen eager)) = 1
   ∧ map_to_list (playing <$> cells eager)
     = [(2%nat, false); (1%nat, true); (0%nat, true)]
   ∧ playing_count eager = 2%nat
   ∧ commands eager = [])
  ∧ (currentIndex (videoState (screen lazy)) = 1
     ∧ map_to_list (playing <$> cells lazy)
       = [(2%nat, false); (1%nat, false); (0%nat, true)]
     ∧ playing_count lazy = 1%nat
     ∧ commands lazy = [])
  ∧ map_to_list (playing <$> cells (run device))
    = [(2%nat, false); (1%nat, true); (0%nat, false)].
Proof. vm_compute. repeat split. Qed.

(** No mounted player ever shows the mute flag of the screen: its element
    is rendered from the player's own hook state, whose flag stays off. *)
Lemma players_ignore_mute hw feed h es p c :
  distinct_objects feed →
  cells (playback_run (loaded hw feed h) es) !! p = Some c →
  Element.isMuted (element c) = false.
Proof.
  intros Hnd Hc.
  destruct (reachable_inv feed Hnd hw h es) as (_ & _ & Hcells).
  destruct (Hcells _ _ Hc) as (_ & _ & _ & _ & Hm & Hel). by rewrite Hel.
Qed.

(** C5, the code at the failing input: on the sample feed with its three
    cells mounted, one press of the mute button turns the flag of the
    screen on while the element of every mounted player stays unmuted, and
    so does the player of a cell mounted afterwards. *)
Lemma mute_press_reaches_no_player :
  let w := playback_run sample_mounted [PressMute] in
  let w' := playback_run w [UnmountCell 2; MountCell 2] in
  isMuted (videoState (screen w)) = true
  ∧ map_to_list ((λ c, Element.isMuted (element c)) <$> cells w)
    = [(2%nat, false); (1%nat, false); (0%nat, false)]
  ∧ isMuted (videoState (screen w')) = true
  ∧ (λ c, Element.isMuted (element c)) <$> cells w' !! 2%nat = Some false.
Proof. vm_compute. repeat split. Qed.

Lemma reported_cons e es :
  reported (e :: es) = reported_viewable e ++ reported es.
Proof. done. Qed.

Lemma currentIndex_reported w es :
  currentIndex (videoState (screen (playback_run w es)))
  ∈ currentIndex (videoState (screen w)) :: reported es.
Proof.
  revert w. induction es as [|e es IH]; intros w.
  { apply elem_of_cons. by left. }
  change (playback_run w (e :: es)) with (playback_run (playback_step w e) es).
  rewrite reported_cons. specialize (IH (playback_step w e)).
  apply elem_of_cons in IH as [->|IH].
  - destruct e as [[|first rest]|p|p|]; simpl;
      try (apply elem_of_cons; by left).
    destruct (ViewToken.isViewable first); simpl.
    + apply elem_of_cons. right. apply elem_of_cons. by left.
    + apply elem_of_cons. by left.
  - apply elem_of_cons. right. apply elem_of_app. by right.
Qed.

(** C6 (as the code has it).  The handler has no notion of settling: a
    report whose first token is viewable makes that page the active one at
    once, also when the page is only crossed during a fling, and every
    mounted player is rendered with [shouldPlay] (on the web [autoPlay])
    set for that page only.  On a device the player of that page is
    thereby started and every other mounted player stopped, and a player
    is playing only on page 0 or on a page that was reported in this way. *)
Theorem every_viewable_report_activates (hw : Host) (feed : list FeedEntry.t)
    (h : nat) (es : list PlaybackEvent) (first : ViewToken.t)
    (rest : list ViewToken.t) :
  distinct_objects feed →
  ViewToken.isViewable first = true →
  let w := playback_run (loaded hw feed h) es in
  let w' := playback_step w (ViewableItemsChanged (first :: rest)) in
  currentIndex (videoState (screen w')) = ViewToken.index first
  ∧ (∀ p c, cells w' !! p = Some c →
       Element.shouldPlay (element c) = (ViewToken.index first =? Z.of_nat p))
  ∧ (os hw = Native →
     (∀ p c, cells w' !! p = Some c →
        playing c = (ViewToken.index first =? Z.of_nat p))
     ∧ (∀ p c, cells w !! p = Some c → playing c = true →
          Z.of_nat p ∈ 0 :: reported es)).
Proof.
  intros Hnd Hview w w'.
  pose proof (reachable_inv feed Hnd hw h es) as Hinv. fold w in Hinv.
  pose proof (playback_step_inv feed Hnd w (ViewableItemsChanged (first :: rest))
                Hinv) as Hinv'. fold w' in Hinv'.
  assert (Hidx : currentIndex (videoState (screen w')) = ViewToken.index first).
  { subst w'. simpl. by rewrite Hview. }
  assert (Hhost : host w = hw) by apply playback_run_host.
  assert (Hhost' : host w' = hw)
    by (subst w'; by rewrite playback_step_host).
  split; [done|]. split; [|intros Hos; split].
  - intros p c Hc. destruct Hinv' as (_ & _ & Hcells).
    destruct (Hcells _ _ Hc) as (_ & Hcur & Hel & _).
    rewrite Hel, Hcur. by rewrite Hidx.
  - intros p c Hc. destruct Hinv' as (_ & _ & Hcells).
    rewrite Hhost' in Hcells.
    rewrite (cell_playing_iff _ _ _ _ Hos (Hcells _ _ Hc)). by rewrite Hidx.
  - intros p c Hc Hplay. destruct Hinv as (_ & _ & Hcells).
    rewrite Hhost in Hcells.
    rewrite (cell_playing_iff _ _ _ _ Hos (Hcells _ _ Hc)) in Hplay.
    apply Z.eqb_eq in Hplay. rewrite <- Hplay.
    apply (currentIndex_reported (loaded hw feed h) es).
Qed.

(** The sample feed on a device, mounted, at the report of page 1. *)
Lemma every_viewable_report_activates_witness :
  distinct_objects sample_feed
  ∧ ViewToken.isViewable (ViewToken.mk 1 true) = true
  ∧ let w := playback_run (loaded device sample_feed 3)
               [MountCell 0; MountCell 1; MountCell 2] in
    let w' := playback_step w
                (ViewableItemsChanged [ViewToken.mk 1 true; ViewToken.mk 0 false]) in
    currentIndex (videoState (screen w')) = 1
    ∧ (∀ p c, cells w' !! p = Some c →
         Element.shouldPlay (element c) = (1 =? Z.of_nat p))
    ∧ (os device = Native →
       (∀ p c, cells w' !! p = Some c → playing c = (1 =? Z.of_nat p))
       ∧ (∀ p c, cells w !! p = Some c → playing c = true →
            Z.of_nat p ∈ 0 :: reported [MountCell 0; MountCell 1; MountCell 2])).
Proof.
  split; [exact sample_feed_distinct|]. split; [reflexivity|].
  exact (every_viewable_report_activates device sample_feed 3
           [MountCell 0; MountCell 1; MountCell 2]
           (ViewToken.mk 1 true) [ViewToken.mk 0 false]
           sample_feed_distinct eq_refl).
Defined.

(** C6, refuted as stated on the sample feed: in the fling from page 0 to
    page 2 the report for page 1 starts the player of page 1, which the
    report for page 2 then stops. *)
Lemma fling_starts_crossed_page :
  let w1 := playback_run sample_mounted (take 1 fling_0_to_2) in
  let w2 := playback_run sample_mounted fling_0_to_2 in
  playing <$> cells sample_mounted !! 1%nat = Some false
  ∧ (λ c, Element.shouldPlay (element c)) <$> cells w1 !! 1%nat = Some true
  ∧ playing <$> cells w1 !! 1%nat = Some true
  ∧ playing <$> cells w2 !! 1%nat = Some false
  ∧ playing <$> cells w2 !! 2%nat = Some true.
Proof. vm_compute. repeat split. Qed.

(** C7 (as the code has it).  Leaving the feed sends no stop command to
    any player handle, on any way out.  At unmount the cleanup of the
    mount effect sends the one request that resets the audio routing
    ([playsInSilentModeIOS] and [staysActiveInBackground] off); a
    navigation that keeps the screen mounted and the application going to
    the background run no code of the screen. *)
Theorem teardown_resets_audio_only (w : World) :
  (∀ path h, existsb (is_stop h) (on_exit path w) = false)
  ∧ (∃ mode, on_exit ScreenUnmount w = [SetAudioModeAsync mode]
       ∧ playsInSilentModeIOS mode = Some false
       ∧ staysActiveInBackground mode = Some false
       ∧ ∀ mode0, setupAudio = [SetAudioModeAsync mode0] →
           playsInSilentModeIOS mode0 = Some true)
  ∧ on_exit NavigateAway w = []
  ∧ on_exit AppBackground w = [].
Proof.
  split; [by intros [] h|]. split; [|done].
  eexists. repeat split. by intros mode0 [= <-].
Qed.

(** C7, refuted as stated on the sample feed with its three players
    mounted and page 0 playing: the unmount stops no player, and the
    background path does not even reset the audio routing. *)
Lemma teardown_stops_no_player :
  playing <$> cells sample_mounted !! 0%nat = Some true
  ∧ existsb (is_stop 0%nat) (on_exit ScreenUnmount sample_mounted) = false
  ∧ on_exit AppBackground sample_mounted = []
  ∧ ¬ (∀ path p c, cells sample_mounted !! p = Some c →
         existsb (is_stop p) (on_exit path sample_mounted) = true).
Proof.
  split; [by vm_compute|]. split; [done|]. split; [done|].
  intros H. specialize (H ScreenUnmount 0%nat). vm_compute in H.
  specialize (H _ eq_refl). discriminate H.
Qed.

(** ** Loading the feed and saving an edit *)

Lemma interaction_queries_app rs1 rs2 :
  interaction_queries (rs1 ++ rs2)
  = interaction_queries rs1 ++ interaction_queries rs2.
Proof. apply filter_app. Qed.

Lemma ensureProfile_no_interaction_query be userId :
  interaction_queries (ensureProfile be userId).2 = [].
Proof.
  unfold ensureProfile.
  destruct (select_profile be userId) as [profile|code]; [done|].
  destruct (String.eqb code "PGRST116"); [|done].
  by destruct (insert_profile be userId (default_username userId)).
Qed.

Lemma with_users_spec be h videosData :
  FeedEntry.video <$> (with_users be h videosData).1.1 = videosData
  ∧ interaction_queries (with_users be h videosData).2 = [].
Proof.
  revert h. induction videosData as [|v rest IH]; intros h; [done|].
  cbn [with_users].
  pose proof (ensureProfile_no_interaction_query be (Video.user_id v)) as Hp.
  destruct (ensureProfile be (Video.user_id v)) as [userData r1].
  destruct (IH (S h)) as [IH1 IH2].
  destruct (with_users be (S h) rest) as [[entries h'] r2].
  cbn [fst snd] in *.
  split; [by rewrite fmap_cons, IH1|].
  by rewrite interaction_queries_app, Hp, IH2.
Qed.

(** The requests of [checkUserInteractions]: the liked-set query, then the
    bookmarked-set query unless the first one failed. *)
Lemma checkUserInteractions_requests be userId videoIds s :
  (checkUserInteractions be userId videoIds s).2
  = SelectVideoIds "video_likes" userId videoIds
    :: match select_video_ids be "video_likes" userId videoIds with
       | Data _ => [SelectVideoIds "video_bookmarks" userId videoIds]
       | Failed _ => []
       end.
Proof.
  unfold checkUserInteractions.
  destruct (select_video_ids be "video_likes" userId videoIds); [|done].
  by destruct (select_video_ids be "video_bookmarks" userId videoIds).
Qed.

(** C8 (as the code has it).  Loading a feed of any number of videos sends
    exactly one liked-set query and, unless that query fails, exactly one
    bookmarked-set query after it, both for the signed-in user and
    restricted to the ids of the loaded videos: never more than two
    interaction queries, whatever the number of videos. *)
Theorem interaction_queries_batched (be : Backend) (s : Screen)
    (user : string) (videosData : list Video.t) :
  getUser be = Some user →
  select_videos be = Data videosData →
  let '(s', rs) := loadVideos be s in
  let ids := Video.id <$> videosData in
  FeedEntry.video <$> videos s' = videosData
  ∧ interaction_queries rs
    = SelectVideoIds "video_likes" user ids
      :: match select_video_ids be "video_likes" user ids with
         | Data _ => [SelectVideoIds "video_bookmarks" user ids]
         | Failed _ => []
         end
  ∧ (length (interaction_queries rs) ≤ 2)%nat.
Proof.
  intros Huser Hvideos. unfold loadVideos. rewrite Huser, Hvideos.
  destruct (with_users_spec be (heap (setError None s)) videosData) as [Hv Hq].
  destruct (with_users be (heap (setError None s)) videosData)
    as [[videosWithUsers h] r1]. cbn [fst snd] in Hv, Hq.
  pose proof (checkUserInteractions_requests be user (Video.id <$> videosData)
                (setVideos videosWithUsers h (setError None s))) as Hr.
  assert (Hvid : videos (checkUserInteractions be user (Video.id <$> videosData)
                  (setVideos videosWithUsers h (setError None s))).1
                 = videosWithUsers).
  { unfold checkUserInteractions.
    destruct (select_video_ids be "video_likes" user _); [|done].
    by destruct (select_video_ids be "video_bookmarks" user _). }
  destruct (checkUserInteractions be user (Video.id <$> videosData)
              (setVideos videosWithUsers h (setError None s))) as [s2 r2].
  cbn [fst snd] in Hr, Hvid. subst r2.
  assert (Hqs : interaction_queries
                  ([AuthGetUser; SelectVideos] ++ r1 ++
                   SelectVideoIds "video_likes" user (Video.id <$> videosData)
                   :: match select_video_ids be "video_likes" user
                              (Video.id <$> videosData) with
                      | Data _ => [SelectVideoIds "video_bookmarks" user
                                     (Video.id <$> videosData)]
                      | Failed _ => []
                      end)
                = SelectVideoIds "video_likes" user (Video.id <$> videosData)
                  :: match select_video_ids be "video_likes" user
                             (Video.id <$> videosData) with
                     | Data _ => [SelectVideoIds "video_bookmarks" user
                                    (Video.id <$> videosData)]
                     | Failed _ => []
                     end).
  { rewrite !interaction_queries_app, Hq.
    by destruct (select_video_ids be "video_likes" user _). }
  split; [by rewrite <- Hv, <- Hvid|]. split; [exact Hqs|].
  rewrite Hqs. destruct (select_video_ids be "video_likes" user _); simpl; lia.
Qed.

(** The sample rows on a backend that answers every query. *)
Lemma interaction_queries_batched_witness :
  getUser all_up = Some "me"
  ∧ select_videos all_up = Data sample_rows
  ∧ let '(s', rs) := loadVideos all_up VideoScroll in
    let ids := Video.id <$> sample_rows in
    FeedEntry.video <$> videos s' = sample_rows
    ∧ interaction_queries rs
      = SelectVideoIds "video_likes" "me" ids
        :: match select_video_ids all_up "video_likes" "me" ids with
           | Data _ => [SelectVideoIds "video_bookmarks" "me" ids]
           | Failed _ => []
           end
    ∧ (length (interaction_queries rs) ≤ 2)%nat.
Proof.
  split; [reflexivity|]. split; [reflexivity|].
  exact (interaction_queries_batched all_up VideoScroll "me" sample_rows
           eq_refl eq_refl).
Defined.

(** C8, refuted as stated on the sample feed: when the liked-set query
    fails, the feed is loaded and shown, and no bookmarked-set query is
    sent at all. *)
Lemma failed_liked_query_skips_bookmarks :
  let '(s', rs) := loadVideos likes_down VideoScroll in
  FeedEntry.video <$> videos s' = sample_rows
  ∧ loading s' = false ∧ error s' = None
  ∧ interaction_queries rs
    = [SelectVideoIds "video_likes" "me" ["A"; "B"; "C"]]
  ∧ SelectVideoIds "video_bookmarks" "me" ["A"; "B"; "C"] ∉ rs.
Proof.
  vm_compute. repeat split.
  intros H. repeat (apply elem_of_cons in H as [H|H]; [discriminate H|]).
  by apply elem_of_nil in H.
Qed.

Lemma apply_draft_fields d v :
  Video.title (apply_draft d v) = EditVideoData.title d
  ∧ Video.description (apply_draft d v) = EditVideoData.description d
  ∧ Video.address (apply_draft d v) = Some (EditVideoData.address d)
  ∧ Video.latitude (apply_draft d v) = EditVideoData.latitude d
  ∧ Video.longitude (apply_draft d v) = EditVideoData.longitude d
  ∧ Video.id (apply_draft d v) = Video.id v
  ∧ Video.video_url (apply_draft d v) = Video.video_url v
  ∧ Video.user_id (apply_draft d v) = Video.user_id v
  ∧ Video.created_at (apply_draft d v) = Video.created_at v
  ∧ Video.like_count (apply_draft d v) = Video.like_count v
  ∧ Video.bookmark_count (apply_draft d v) = Video.bookmark_count v.
Proof. done. Qed.

Lemma videos_patch videoId patch s :
  videos (patchVideos videoId patch s)
  = (map_patch videoId patch (heap s) (videos s)).1.
Proof. unfold patchVideos. by destruct (map_patch _ _ _ _). Qed.

(** C9.  With the edit modal open on a draft, a save that the backend
    rejects leaves the modal open, the draft as it was, the message
    "Failed to update video" set and the feed untouched; a save that the
    backend accepts closes the modal and replaces, in the feed in memory,
    the title, description, address, latitude and longitude of every entry
    with the id of the draft by those of the draft, every other field and
    every other entry staying as it was.  Either way the only request is
    the update itself, and the saving flag is off again. *)
Theorem save_outcomes (s : Screen) (d : EditVideoData.t) (err : string) :
  editVideoData (interactionState s) = Some d →
  editModalVisible (interactionState s) = true →
  let failed := saveVideoChanges (Some err) s in
  let saved := saveVideoChanges None s in
  (editModalVisible (interactionState failed.1) = true
   ∧ editVideoData (interactionState failed.1) = Some d
   ∧ locationError (interactionState failed.1) = Some "Failed to update video"
   ∧ videos failed.1 = videos s
   ∧ saving (interactionState failed.1) = false
   ∧ failed.2 = [UpdateVideo (EditVideoData.id d) d])
  ∧ (editModalVisible (interactionState saved.1) = false
     ∧ saving (interactionState saved.1) = false
     ∧ length (videos saved.1) = length (videos s)
     ∧ (∀ i e, videos s !! i = Some e →
          Video.id (FeedEntry.video e) = EditVideoData.id d →
          ∃ e', videos saved.1 !! i = Some e'
            ∧ edited_fields (FeedEntry.video e')
              = (EditVideoData.title d, EditVideoData.description d,
                 Some (EditVideoData.address d), EditVideoData.latitude d,
                 EditVideoData.longitude d)
            ∧ kept_fields (FeedEntry.video e') = kept_fields (FeedEntry.video e)
            ∧ FeedEntry.user e' = FeedEntry.user e)
     ∧ (∀ i e, videos s !! i = Some e →
          Video.id (FeedEntry.video e) ≠ EditVideoData.id d →
          videos saved.1 !! i = Some e)
     ∧ saved.2 = [UpdateVideo (EditVideoData.id d) d]).
Proof.
  intros Hd Hopen failed saved. subst failed saved.
  unfold saveVideoChanges, saveVideoChanges_call. rewrite Hd.
  cbn [fst snd]. split.
  - unfold saveVideoChanges_settle. simpl. by rewrite Hd, Hopen.
  - unfold saveVideoChanges_settle.
    change (videos (setSaving false (setEditModalVisible false
              (patchVideos (EditVideoData.id d) (apply_draft d)
                 (setSaving true s)))))
      with (videos (patchVideos (EditVideoData.id d) (apply_draft d)
                      (setSaving true s))).
    rewrite videos_patch.
    change (videos (setSaving true s)) with (videos s).
    split; [done|]. split; [done|]. split; [apply map_patch_length|].
    split; [|split; [|done]].
    + intros i e Hi He.
      destruct (map_patch_lookup_hit (EditVideoData.id d) (apply_draft d)
                  (heap (setSaving true s)) (videos s) i e Hi He) as [o Ho].
      eexists. split; [exact Ho|]. by split.
    + intros i e Hi He. by apply map_patch_lookup.
Qed.

(** The sample feed with the edit modal open on "B". *)
Lemma save_outcomes_witness :
  editVideoData (interactionState sample_editing) = Some sample_draft
  ∧ editModalVisible (interactionState sample_editing) = true
  ∧ let failed := saveVideoChanges (Some "timeout") sample_editing in
    let saved := saveVideoChanges None sample_editing in
    (editModalVisible (interactionState failed.1) = true
     ∧ editVideoData (interactionState failed.1) = Some sample_draft
     ∧ locationError (interactionState failed.1) = Some "Failed to update video"
     ∧ videos failed.1 = videos sample_editing
     ∧ saving (interactionState failed.1) = false
     ∧ failed.2 = [UpdateVideo (EditVideoData.id sample_draft) sample_draft])
    ∧ (editModalVisible (interactionState saved.1) = false
       ∧ saving (interactionState saved.1) = false
       ∧ length (videos saved.1) = length (videos sample_editing)
       ∧ (∀ i e, videos sample_editing !! i = Some e →
            Video.id (FeedEntry.video e) = EditVideoData.id sample_draft →
            ∃ e', videos saved.1 !! i = Some e'
              ∧ edited_fields (FeedEntry.video e')
                = (EditVideoData.title sample_draft,
                   EditVideoData.description sample_draft,
                   Some (EditVideoData.address sample_draft),
                   EditVideoData.latitude sample_draft,
                   EditVideoData.longitude sample_draft)
              ∧ kept_fields (FeedEntry.video e')
                = kept_fields (FeedEntry.video e)
              ∧ FeedEntry.user e' = FeedEntry.user e)
       ∧ (∀ i e, videos sample_editing !! i = Some e →
            Video.id (FeedEntry.video e) ≠ EditVideoData.id sample_draft →
            videos saved.1 !! i = Some e)
       ∧ saved.2 = [UpdateVideo (EditVideoData.id sample_draft) sample_draft]).
Proof.
  split; [reflexivity|]. split; [reflexivity|].
  exact (save_outcomes sample_editing sample_draft "timeout" eq_refl eq_refl).
Defined.

(** ** Further properties *)

Lemma playback_step_refs w e :
  videoRefs (videoState (screen w)) = ∅ →
  videoRefs (videoState (screen (playback_step w e))) = ∅
  ∧ commands (playback_step w e) = commands w.
Proof.
  intros Hrefs.
  destruct e as [[|first rest]|p|p|];
    unfold playback_step, handleViewableItemsChanged; try done.
  - destruct (ViewToken.isViewable first); by rewrite commit_no_refs.
  - by rewrite commit_no_refs.
Qed.

Lemma playback_run_refs w es :
  videoRefs (videoState (screen w)) = ∅ →
  videoRefs (videoState (screen (playback_run w es))) = ∅
  ∧ commands (playback_run w es) = commands w.
Proof.
  revert w. induction es as [|e es IH]; intros w Hrefs; [by split|].
  destruct (playback_step_refs w e Hrefs) as [Hr Hc].
  change (playback_run w (e :: es)) with (playback_run (playback_step w e) es).
  destruct (IH _ Hr) as [Hr' Hc']. split; [done|]. by rewrite Hc'.
Qed.

(** The play/pause effect of [VideoScroll] is dead code: the players store
    their refs in their own hook state, so the [videoRefs] of the screen
    stays empty and the effect never sends [playAsync] or [pauseAsync],
    whatever the viewability reports, mounts, unmounts and mute presses. *)
Theorem playback_effect_never_commands (hw : Host) (feed : list FeedEntry.t)
    (h : nat) (es : list PlaybackEvent) :
  let w := playback_run (loaded hw feed h) es in
  videoRefs (videoState (screen w)) = ∅ ∧ commands w = [].
Proof. exact (playback_run_refs (loaded hw feed h) es eq_refl). Qed.

Lemma toggleLike_success_screen w videoId uid :
  screen (toggleLike videoId (Some uid) None w)
  = handleLike_settle videoId
      (read_isLiked (interactions (interactionState (screen w))) videoId)
      None (screen w).
Proof.
  by rewrite toggleLike_signed_in, like_in_flight, like_settle_last, screen_commit.
Qed.

(** A like followed, once it has settled, by an unlike of the same video
    (or the other way round), both accepted by the backend, shows the flag
    and the counters of the video as before the two presses. *)
Theorem like_then_unlike_restores (w : World) (videoId u1 u2 : string) :
  let w' := toggleLike videoId (Some u2) None
              (toggleLike videoId (Some u1) None w) in
  isLiked_of (screen w') videoId = isLiked_of (screen w) videoId
  ∧ like_counts (screen w') videoId = like_counts (screen w) videoId.
Proof.
  intros w'. subst w'. rewrite !toggleLike_success_screen.
  remember (read_isLiked (interactions (interactionState (screen w))) videoId)
    as f eqn:Ef.
  pose proof (handleLike_settle_flag videoId f (screen w)) as Hf1.
  unfold isLiked_of in Hf1 |- *.
  remember (handleLike_settle videoId f None (screen w)) as s1 eqn:Es1 in *.
  split.
  - pose proof (handleLike_settle_flag videoId
                  (read_isLiked (interactions (interactionState s1)) videoId) s1)
      as Hf2.
    unfold isLiked_of in Hf2. rewrite Hf2, Hf1, <- Ef. apply negb_involutive.
  - rewrite handleLike_settle_count. subst s1. rewrite handleLike_settle_count.
    rewrite <- list_fmap_compose.
    rewrite <- (list_fmap_id (like_counts (screen w) videoId)) at 2.
    apply list_fmap_ext. intros _ k _. unfold compose, like_delta.
    rewrite Hf1. destruct (truthy f); simpl; lia.
Qed.

Lemma MemoizedVideoPlayer_refl props : MemoizedVideoPlayer props props = true.
Proof.
  unfold MemoizedVideoPlayer.
  by rewrite Bool.eqb_reflx, !String.eqb_refl.
Qed.

Lemma render_cell_idem hw s p c :
  render_cell hw s p (render_cell hw s p c) = render_cell hw s p c.
Proof.
  unfold render_cell. destruct (videos s !! p) as [item|] eqn:Hitem; [|done].
  destruct (MemoizedVideoPlayer (props c) (renderItem s item)) eqn:Hmemo.
  - by rewrite Hmemo.
  - cbn [props]. by rewrite MemoizedVideoPlayer_refl.
Qed.

Lemma render_idem hw s cs : render hw s (render hw s cs) = render hw s cs.
Proof.
  apply map_eq. intros p. unfold render. rewrite !map_lookup_imap.
  destruct (cs !! p) as [c|]; [|done]. simpl. by rewrite render_cell_idem.
Qed.

(** Idempotence of the active index: a viewability report handled twice
    in a row leaves the world that handling it once leaves. *)
Theorem viewable_report_idempotent (hw : Host) (feed : list FeedEntry.t)
    (h : nat) (es : list PlaybackEvent) (changed : list ViewToken.t) :
  let w := playback_run (loaded hw feed h) es in
  let w1 := playback_step w (ViewableItemsChanged changed) in
  playback_step w1 (ViewableItemsChanged changed) = w1.
Proof.
  intros w w1. subst w1.
  destruct (playback_run_refs (loaded hw feed h) es eq_refl) as [Hrefs _].
  fold w in Hrefs. unfold playback_step, handleViewableItemsChanged.
  destruct changed as [|first rest]; [done|].
  destruct (ViewToken.isViewable first).
  - rewrite !commit_no_refs by done. cbn [screen cells tasks requests commands].
    by rewrite render_idem.
  - rewrite !commit_no_refs by done. cbn [screen cells tasks requests commands].
    by rewrite render_idem.
Qed.

Lemma with_users_objects be h videosData :
  FeedEntry.obj <$> (with_users be h videosData).1.1
  = seq h (length videosData).
Proof.
  revert h. induction videosData as [|v rest IH]; intros h; [done|].
  cbn [with_users].
  destruct (ensureProfile be (Video.user_id v)) as [userData r1].
  specialize (IH (S h)).
  destruct (with_users be (S h) rest) as [[entries h'] r2].
  cbn [fst snd] in *. rewrite fmap_cons, IH. done.
Qed.

(** The array built by [loadVideos] consists of pairwise distinct objects:
    every element is a fresh object literal. *)
Theorem loaded_feed_distinct (be : Backend) (h : nat) (videosData : list Video.t) :
  distinct_objects (with_users be h videosData).1.1.
Proof.
  unfold distinct_objects. rewrite with_users_objects. apply NoDup_seq.
Qed.

(** * Beyond the claims *)

(** ** Bookmarks *)

Lemma bookmark_settle_last hw s cs ts rs cmds videoId flag error :
  store_step (mkWorld hw s cs (ts ++ [AwaitMutation Bookmark videoId flag]) rs cmds)
             (MutationSettled (length ts) error)
  = match error with
    | Some _ => mkWorld hw s cs (ts ++ [Settled]) rs cmds
    | None =>
        commit true (handleBookmark_settle videoId flag None s)
               (mkWorld hw s cs (ts ++ [Settled]) rs cmds)
    end.
Proof.
  unfold store_step. cbn [tasks]. rewrite lookup_last_task.
  unfold finish. cbn [tasks screen cells requests commands].
  rewrite insert_last_task. by destruct error.
Qed.

Lemma toggleBookmark_signed_in w videoId uid error :
  toggleBookmark videoId (Some uid) error w
  = store_step
      (store_run w [PressBookmark videoId;
                    UserResolved (length (tasks w)) (Some uid)])
      (MutationSettled (length (tasks w)) error).
Proof.
  unfold toggleBookmark.
  by rewrite <- (store_run_snoc w [PressBookmark videoId; UserResolved _ _]).
Qed.

Lemma toggleBookmark_screen w videoId uid error :
  screen (toggleBookmark videoId (Some uid) error w)
  = handleBookmark_settle videoId
      (read_isBookmarked (interactions (interactionState (screen w))) videoId)
      error (screen w).
Proof.
  rewrite toggleBookmark_signed_in, bookmark_in_flight, bookmark_settle_last.
  by destruct error.
Qed.

Lemma handleBookmark_settle_flag videoId flag s :
  isBookmarked_of (handleBookmark_settle videoId flag None s) videoId
  = negb (truthy flag).
Proof.
  unfold handleBookmark_settle, isBookmarked_of, read_isBookmarked. simpl.
  by rewrite lookup_insert_eq.
Qed.

Lemma shown_bookmarks_patch videoId (f : option Z → Z) s :
  shown_bookmarks
    (patchVideos videoId
       (λ v, set_bookmark_count (f (Video.bookmark_count v)) v) s) videoId
  = (λ e, or_default (Some (f (Video.bookmark_count (FeedEntry.video e)))) 0)
      <$> entries_of s videoId.
Proof.
  unfold shown_bookmarks, entries_of. rewrite videos_patch.
  pose proof (map_patch_same videoId
    (λ v, set_bookmark_count (f (Video.bookmark_count v)) v) (heap s) (videos s)
    (λ v, eq_refl)) as H.
  rewrite (list_fmap_compose FeedEntry.video
             (λ v, or_default (Video.bookmark_count v) 0)).
  rewrite H, <- !list_fmap_compose. done.
Qed.

Lemma handleBookmark_settle_shown videoId flag s :
  shown_bookmarks (handleBookmark_settle videoId flag None s) videoId
  = bookmark_step flag <$> shown_bookmarks s videoId.
Proof.
  unfold handleBookmark_settle, bookmark_step.
  destruct (truthy flag).
  - transitivity (shown_bookmarks
      (patchVideos videoId
         (λ v, set_bookmark_count (or_default (Video.bookmark_count v) 1 - 1) v) s)
      videoId); [done|].
    rewrite (shown_bookmarks_patch videoId (λ c, or_default c 1 - 1)).
    unfold shown_bookmarks. rewrite <- list_fmap_compose.
    apply list_fmap_ext. intros _ e _. unfold compose, or_default.
    destruct (Video.bookmark_count (FeedEntry.video e)) as [c|]; [|done].
    destruct (c =? 0) eqn:E; [done|]. rewrite E.
    destruct (Z.eqb_spec (c - 1) 0); lia.
  - transitivity (shown_bookmarks
      (patchVideos videoId
         (λ v, set_bookmark_count (or_default (Video.bookmark_count v) 0 + 1) v) s)
      videoId); [done|].
    rewrite (shown_bookmarks_patch videoId (λ c, or_default c 0 + 1)).
    unfold shown_bookmarks. rewrite <- list_fmap_compose.
    apply list_fmap_ext. intros _ e _. unfold compose.
    generalize (or_default (Video.bookmark_count (FeedEntry.video e)) 0).
    intros b. unfold or_default.
    destruct (Z.eqb_spec (b + 1) 0); lia.
Qed.

(** A settled [toggleBookmark(v)].  When the backend accepts the mutation
    the bookmark flag of [v] is negated and the number shown under the
    icon goes one up, or, when the bookmark is removed, one down; removing
    a bookmark from a video whose counter is absent or zero shows zero,
    never a negative number.  When the backend refuses, nothing changes.
    Either way exactly one mutation on the bookmarks table was sent. *)
Theorem toggleBookmark_outcomes (w : World) (videoId uid err : string) :
  let flag :=
    read_isBookmarked (interactions (interactionState (screen w))) videoId in
  let ok := toggleBookmark videoId (Some uid) None w in
  let ko := toggleBookmark videoId (Some uid) (Some err) w in
  isBookmarked_of (screen ok) videoId = negb (isBookmarked_of (screen w) videoId)
  ∧ shown_bookmarks (screen ok) videoId
    = bookmark_step flag <$> shown_bookmarks (screen w) videoId
  ∧ screen ko = screen w
  ∧ requests ok = requests w ++ [AuthGetUser; bookmark_mutation videoId uid flag]
  ∧ requests ko = requests ok.
Proof.
  intros flag ok ko. subst ok ko. rewrite !toggleBookmark_screen. fold flag.
  split; [apply handleBookmark_settle_flag|].
  split; [apply handleBookmark_settle_shown|]. split; [done|].
  rewrite !toggleBookmark_signed_in, !bookmark_in_flight, !bookmark_settle_last.
  fold flag. by rewrite requests_commit.
Qed.

Lemma field_patch_same {A} (g : Video.t → A) videoId patch s :
  (∀ v, Video.id (patch v) = Video.id v) →
  (∀ v, g (patch v) = g v) →
  (λ e, g (FeedEntry.video e)) <$> entries_of (patchVideos videoId patch s) videoId
  = (λ e, g (FeedEntry.video e)) <$> entries_of s videoId.
Proof.
  intros Hid Hg. unfold entries_of. rewrite videos_patch.
  rewrite !(list_fmap_compose FeedEntry.video g).
  rewrite (map_patch_same videoId patch (heap s) (videos s) Hid).
  rewrite <- (list_fmap_compose patch g).
  apply list_fmap_ext. intros _ v _. apply Hg.
Qed.

Lemma entries_setInteractions f s videoId :
  entries_of (setInteractions f s) videoId = entries_of s videoId.
Proof. done. Qed.

Lemma handleLike_settle_other videoId flag error s other :
  other ≠ videoId →
  entries_of (handleLike_settle videoId flag error s) other = entries_of s other
  ∧ interactions (interactionState (handleLike_settle videoId flag error s))
      !! other
    = interactions (interactionState s) !! other.
Proof.
  intros Hne. destruct error as [err|]; [done|].
  unfold handleLike_settle. split.
  - rewrite entries_setInteractions.
    destruct (truthy flag); by apply entries_patch_other.
  - simpl. rewrite lookup_insert_ne by done.
    destruct (truthy flag); by rewrite interactions_patch.
Qed.

Lemma handleBookmark_settle_other videoId flag error s other :
  other ≠ videoId →
  entries_of (handleBookmark_settle videoId flag error s) other
  = entries_of s other
  ∧ interactions (interactionState (handleBookmark_settle videoId flag error s))
      !! other
    = interactions (interactionState s) !! other.
Proof.
  intros Hne. destruct error as [err|]; [done|].
  unfold handleBookmark_settle. split.
  - rewrite entries_setInteractions.
    destruct (truthy flag); by apply entries_patch_other.
  - simpl. rewrite lookup_insert_ne by done.
    destruct (truthy flag); by rewrite interactions_patch.
Qed.

Lemma handleLike_settle_keeps_bookmark videoId flag error s :
  isBookmarked_of (handleLike_settle videoId flag error s) videoId
  = isBookmarked_of s videoId
  ∧ bookmark_counts (handleLike_settle videoId flag error s) videoId
    = bookmark_counts s videoId.
Proof.
  destruct error as [err|]; [done|]. unfold handleLike_settle. split.
  - unfold isBookmarked_of, read_isBookmarked at 1. simpl.
    rewrite lookup_insert_eq. simpl.
    destruct (truthy flag); by rewrite interactions_patch.
  - unfold bookmark_counts. rewrite entries_setInteractions.
    destruct (truthy flag);
      by apply (field_patch_same Video.bookmark_count).
Qed.

Lemma handleBookmark_settle_keeps_like videoId flag error s :
  isLiked_of (handleBookmark_settle videoId flag error s) videoId
  = isLiked_of s videoId
  ∧ like_counts (handleBookmark_settle videoId flag error s) videoId
    = like_counts s videoId.
Proof.
  destruct error as [err|]; [done|]. unfold handleBookmark_settle. split.
  - unfold isLiked_of, read_isLiked at 1. simpl.
    rewrite lookup_insert_eq. simpl.
    destruct (truthy flag); by rewrite interactions_patch.
  - unfold like_counts. rewrite entries_setInteractions.
    destruct (truthy flag);
      by apply (field_patch_same Video.like_count).
Qed.

(** The answer to a like or a bookmark of [videoId], in whatever state of
    the screen it arrives and whatever it is, touches that video only: the
    entries of every other video are the very same objects and its
    interaction entry is as before.  On [videoId] itself a like leaves the
    bookmark flag and counters alone, and a bookmark the like flag and
    counters. *)
Theorem toggles_touch_one_video (videoId other : string) (flag : option bool)
    (error : option string) (s : Screen) :
  other ≠ videoId →
  let sl := handleLike_settle videoId flag error s in
  let sb := handleBookmark_settle videoId flag error s in
  (entries_of sl other = entries_of s other
   ∧ interactions (interactionState sl) !! other
     = interactions (interactionState s) !! other)
  ∧ (entries_of sb other = entries_of s other
     ∧ interactions (interactionState sb) !! other
       = interactions (interactionState s) !! other)
  ∧ (isBookmarked_of sl videoId = isBookmarked_of s videoId
     ∧ bookmark_counts sl videoId = bookmark_counts s videoId)
  ∧ (isLiked_of sb videoId = isLiked_of s videoId
     ∧ like_counts sb videoId = like_counts s videoId).
Proof.
  intros Hne sl sb. subst sl sb.
  split; [by apply handleLike_settle_other|].
  split; [by apply handleBookmark_settle_other|].
  split; [apply handleLike_settle_keeps_bookmark
         |apply handleBookmark_settle_keeps_like].
Qed.

(** The like of "B" on the sample feed, seen from "A". *)
Lemma toggles_touch_one_video_witness :
  "A" ≠ "B"
  ∧ let s := screen sample_world in
    let sl := handleLike_settle "B" None None s in
    let sb := handleBookmark_settle "B" None None s in
    (entries_of sl "A" = entries_of s "A"
     ∧ interactions (interactionState sl) !! "A"
       = interactions (interactionState s) !! "A")
    ∧ (entries_of sb "A" = entries_of s "A"
       ∧ interactions (interactionState sb) !! "A"
         = interactions (interactionState s) !! "A")
    ∧ (isBookmarked_of sl "B" = isBookmarked_of s "B"
       ∧ bookmark_counts sl "B" = bookmark_counts s "B")
    ∧ (isLiked_of sb "B" = isLiked_of s "B"
       ∧ like_counts sb "B" = like_counts s "B").
Proof.
  assert (H : "A" ≠ "B") by discriminate.
  split; [exact H|].
  exact (toggles_touch_one_video "B" "A" None None (screen sample_world) H).
Defined.

(** A bookmark followed, once it has settled, by its removal (or the other
    way round), both accepted by the backend, shows the bookmark flag and
    the number under the icon as before the two presses, provided the
    counter was not below its floor: not negative, and positive when the
    video starts bookmarked (removing a bookmark at zero stays at zero, so
    bookmarking again would show one). *)
Theorem bookmark_twice_restores (w : World) (videoId u1 u2 : string) :
  Forall (λ b, if isBookmarked_of (screen w) videoId then 0 < b else 0 ≤ b)
         (shown_bookmarks (screen w) videoId) →
  let w' := toggleBookmark videoId (Some u2) None
              (toggleBookmark videoId (Some u1) None w) in
  isBookmarked_of (screen w') videoId = isBookmarked_of (screen w) videoId
  ∧ shown_bookmarks (screen w') videoId = shown_bookmarks (screen w) videoId.
Proof.
  intros Hfloor w'. subst w'. rewrite !toggleBookmark_screen.
  remember (read_isBookmarked (interactions (interactionState (screen w))) videoId)
    as f eqn:Ef.
  pose proof (handleBookmark_settle_flag videoId f (screen w)) as Hf1.
  unfold isBookmarked_of in Hf1, Hfloor |- *. rewrite <- Ef in Hfloor.
  remember (handleBookmark_settle videoId f None (screen w)) as s1 eqn:Es1 in *.
  split.
  - pose proof (handleBookmark_settle_flag videoId
                  (read_isBookmarked (interactions (interactionState s1)) videoId)
                  s1) as Hf2.
    unfold isBookmarked_of in Hf2. rewrite Hf2, Hf1, <- Ef. apply negb_involutive.
  - rewrite handleBookmark_settle_shown. subst s1.
    rewrite handleBookmark_settle_shown, <- list_fmap_compose.
    rewrite <- (list_fmap_id (shown_bookmarks (screen w) videoId)) at 2.
    apply Forall_fmap_ext_1. eapply Forall_impl; [exact Hfloor|].
    intros b Hb. unfold compose, bookmark_step. rewrite Hf1.
    destruct (truthy f); simpl.
    + destruct (Z.eqb_spec b 0); simpl; lia.
    + destruct (Z.eqb_spec (b + 1) 0); simpl; lia.
Qed.

(** "B" of the sample feed: not bookmarked, counter absent. *)
Lemma bookmark_twice_restores_witness :
  Forall (λ b, if isBookmarked_of (screen sample_world) "B" then 0 < b else 0 ≤ b)
         (shown_bookmarks (screen sample_world) "B")
  ∧ let w' := toggleBookmark "B" (Some "me") None
                (toggleBookmark "B" (Some "me") None sample_world) in
    isBookmarked_of (screen w') "B" = isBookmarked_of (screen sample_world) "B"
    ∧ shown_bookmarks (screen w') "B" = shown_bookmarks (screen sample_world) "B".
Proof.
  assert (H : Forall (λ b, if isBookmarked_of (screen sample_world) "B"
                           then 0 < b else 0 ≤ b)
                     (shown_bookmarks (screen sample_world) "B")).
  { vm_compute. repeat constructor. discriminate. }
  split; [exact H|].
  exact (bookmark_twice_restores sample_world "B" "me" "me" H).
Defined.

(** ** Loading *)

Lemma newInteractions_lookup_from (likedVideos bookmarkedVideos : gset string)
    (videoIds : list string) (m : gmap string VideoInteraction.t) (v : string) :
  foldl (λ m videoId,
           <[videoId := VideoInteraction.mk
                          (Some (bool_decide (videoId ∈ likedVideos)))
                          (Some (bool_decide (videoId ∈ bookmarkedVideos)))]> m)
        m videoIds !! v
  = if bool_decide (v ∈ videoIds)
    then Some (VideoInteraction.mk (Some (bool_decide (v ∈ likedVideos)))
                                   (Some (bool_decide (v ∈ bookmarkedVideos))))
    else m !! v.
Proof.
  revert m. induction videoIds as [|x rest IH]; intros m; [done|].
  cbn [foldl]. rewrite IH.
  destruct (decide (v ∈ rest)) as [Hin|Hnotin].
  - rewrite (bool_decide_eq_true_2 (v ∈ rest)) by done.
    rewrite (bool_decide_eq_true_2 (v ∈ x :: rest)); [done|].
    apply elem_of_cons. by right.
  - rewrite (bool_decide_eq_false_2 (v ∈ rest)) by done.
    destruct (decide (v = x)) as [->|Hne].
    + rewrite lookup_insert_eq.
      rewrite (bool_decide_eq_true_2 (x ∈ x :: rest)); [done|].
      apply elem_of_cons. by left.
    + rewrite lookup_insert_ne by done.
      rewrite (bool_decide_eq_false_2 (v ∈ x :: rest)); [done|].
      intros [?|?]%elem_of_cons; done.
Qed.

(** What [checkUserInteractions] leaves behind.  When both queries are
    answered the interaction map is replaced as a whole: it has an entry
    exactly for the ids asked about, whose flags say whether the id is in
    the liked and in the bookmarked answer; entries of other ids are gone.
    When either query fails the screen keeps the state it had, flags
    included.  The feed is not touched. *)
Theorem checkUserInteractions_flags (be : Backend) (userId : string)
    (videoIds : list string) (s : Screen) :
  let s' := (checkUserInteractions be userId videoIds s).1 in
  videos s' = videos s
  ∧ match select_video_ids be "video_likes" userId videoIds,
          select_video_ids be "video_bookmarks" userId videoIds with
    | Data likedData, Data bookmarkedData =>
        ∀ v, interactions (interactionState s') !! v
             = if bool_decide (v ∈ videoIds)
               then Some (VideoInteraction.mk
                            (Some (bool_decide (v ∈ likedData)))
                            (Some (bool_decide (v ∈ bookmarkedData))))
               else None
    | _, _ => s' = s
    end.
Proof.
  intros s'. subst s'. unfold checkUserInteractions.
  destruct (select_video_ids be "video_likes" userId videoIds)
    as [likedData|c1];
    [|by destruct (select_video_ids be "video_bookmarks" userId videoIds)].
  destruct (select_video_ids be "video_bookmarks" userId videoIds)
    as [bookmarkedData|c2]; [|done].
  split; [done|]. intros v. cbn [fst]. simpl.
  unfold newInteractions. rewrite newInteractions_lookup_from.
  rewrite lookup_empty.
  destruct (bool_decide (v ∈ videoIds)); [|done].
  do 3 f_equal; apply bool_decide_ext, elem_of_list_to_set.
Qed.

Lemma with_users_users be h videosData :
  FeedEntry.user <$> (with_users be h videosData).1.1
  = (λ v, (ensureProfile be (Video.user_id v)).1) <$> videosData.
Proof.
  revert h. induction videosData as [|v rest IH]; intros h; [done|].
  cbn [with_users]. rewrite fmap_cons.
  destruct (ensureProfile be (Video.user_id v)) as [userData r1].
  specialize (IH (S h)).
  destruct (with_users be (S h) rest) as [[entries h'] r2].
  cbn [fst snd] in *. by rewrite fmap_cons, IH.
Qed.

Lemma checkUserInteractions_keeps be userId videoIds s :
  let s' := (checkUserInteractions be userId videoIds s).1 in
  videos s' = videos s ∧ error s' = error s ∧ loading s' = loading s
  ∧ videoState s' = videoState s ∧ heap s' = heap s.
Proof.
  unfold checkUserInteractions.
  destruct (select_video_ids be "video_likes" userId videoIds); [|done].
  by destruct (select_video_ids be "video_bookmarks" userId videoIds).
Qed.

(** How [loadVideos] ends.  It always clears the loading flag and never
    touches the active index or the mute flag.  Without a signed-in user
    it stops after the auth request: feed and interactions are kept and no
    error is shown.  When the videos query fails it stops there, keeps the
    feed and shows "Failed to load videos".  Otherwise the feed becomes
    the rows of the answer, in the order of the answer, each paired with
    the profile [ensureProfile] gives for its author, as pairwise distinct
    objects, and no error is shown. *)
Theorem loadVideos_outcomes (be : Backend) (s : Screen) :
  let s' := (loadVideos be s).1 in
  let rs := (loadVideos be s).2 in
  loading s' = false
  ∧ videoState s' = videoState s
  ∧ match getUser be, select_videos be with
    | None, _ =>
        rs = [AuthGetUser] ∧ videos s' = videos s ∧ error s' = None
        ∧ interactionState s' = interactionState s
    | Some _, Failed _ =>
        rs = [AuthGetUser; SelectVideos] ∧ videos s' = videos s
        ∧ error s' = Some "Failed to load videos"
        ∧ interactionState s' = interactionState s
    | Some _, Data videosData =>
        error s' = None
        ∧ FeedEntry.video <$> videos s' = videosData
        ∧ FeedEntry.user <$> videos s'
          = (λ v, (ensureProfile be (Video.user_id v)).1) <$> videosData
        ∧ distinct_objects (videos s')
    end.
Proof.
  intros s' rs. subst s' rs. unfold loadVideos.
  destruct (getUser be) as [user|]; [|done].
  destruct (select_videos be) as [videosData|code]; [|done].
  pose proof (with_users_spec be (heap (setError None s)) videosData) as [Hv _].
  pose proof (with_users_users be (heap (setError None s)) videosData) as Hu.
  pose proof (loaded_feed_distinct be (heap (setError None s)) videosData) as Hd.
  destruct (with_users be (heap (setError None s)) videosData)
    as [[videosWithUsers h] r1]. cbn [fst snd] in Hv, Hu, Hd.
  pose proof (checkUserInteractions_keeps be user (Video.id <$> videosData)
                (setVideos videosWithUsers h (setError None s)))
    as (Hk1 & Hk2 & Hk3 & Hk4 & Hk5).
  destruct (checkUserInteractions be user (Video.id <$> videosData)
              (setVideos videosWithUsers h (setError None s))) as [s2 r2].
  cbn [fst snd] in *. simpl.
  split; [done|]. split; [by rewrite Hk4|]. rewrite Hk1, Hk2. done.
Qed.

Lemma ensureProfile_requests be userId :
  ∃ rest, (ensureProfile be userId).2 = SelectProfile userId :: rest
          ∧ (rest = [] ∨ rest = [InsertProfile userId (default_username userId)])
          ∧ (rest ≠ [] → select_profile be userId = Failed "PGRST116").
Proof.
  unfold ensureProfile.
  destruct (select_profile be userId) as [profile|code].
  - exists []. split; [done|]. split; [by left|done].
  - destruct (String.eqb_spec code "PGRST116") as [->|Hne].
    + exists [InsertProfile userId (default_username userId)].
      destruct (insert_profile be userId (default_username userId));
        (split; [done|]); (split; [by right|done]).
    + exists []. split; [done|]. split; [by left|done].
Qed.

Lemma with_users_requests be h videosData :
  let rs := (with_users be h videosData).2 in
  filter (λ r, is_profile_lookup r = true) rs
  = SelectProfile <$> (Video.user_id <$> videosData)
  ∧ (length (filter (λ r, is_profile_insert r = true) rs)
     ≤ length videosData)%nat
  ∧ (length rs ≤ 2 * length videosData)%nat.
Proof.
  revert h. induction videosData as [|v rest IH]; intros h; [done|].
  cbn [with_users].
  destruct (ensureProfile_requests be (Video.user_id v)) as (r & Hr & Hcase & _).
  destruct (ensureProfile be (Video.user_id v)) as [userData r1].
  specialize (IH (S h)).
  destruct (with_users be (S h) rest) as [[entries h'] r2].
  cbn [fst snd] in *. destruct IH as (IH1 & IH2 & IH3). subst r1.
  destruct Hcase as [->| ->]; cbn [app].
  - rewrite !filter_cons. cbn [is_profile_lookup is_profile_insert].
    rewrite decide_True by done. rewrite decide_False by done.
    rewrite IH1, !fmap_cons. cbn [length]. split; [done|]. split; lia.
  - rewrite !filter_cons. cbn [is_profile_lookup is_profile_insert].
    repeat (first [rewrite decide_True by done|rewrite decide_False by done]).
    rewrite IH1, !fmap_cons. cbn [length]. split; [done|]. split; lia.
Qed.

(** The requests of [loadVideos] on a feed of N videos: one profile lookup
    per video, in the order of the feed and repeated for a repeated
    author, at most one profile insert per video, and with the auth
    request, the videos query and the interaction queries at most
    [2 N + 4] requests in all. *)
Theorem loadVideos_requests (be : Backend) (s : Screen) (user : string)
    (videosData : list Video.t) :
  getUser be = Some user →
  select_videos be = Data videosData →
  let rs := (loadVideos be s).2 in
  filter (λ r, is_profile_lookup r = true) rs
  = SelectProfile <$> (Video.user_id <$> videosData)
  ∧ (length (filter (λ r, is_profile_insert r = true) rs)
     ≤ length videosData)%nat
  ∧ (length rs ≤ 2 * length videosData + 4)%nat.
Proof.
  intros Huser Hvideos rs. subst rs. unfold loadVideos.
  rewrite Huser, Hvideos.
  pose proof (with_users_requests be (heap (setError None s)) videosData)
    as (H1 & H2 & H3).
  destruct (with_users be (heap (setError None s)) videosData)
    as [[videosWithUsers h] r1]. cbn [fst snd] in H1, H2, H3.
  pose proof (checkUserInteractions_requests be user (Video.id <$> videosData)
                (setVideos videosWithUsers h (setError None s))) as Hr.
  destruct (checkUserInteractions be user (Video.id <$> videosData)
              (setVideos videosWithUsers h (setError None s))) as [s2 r2].
  cbn [fst snd] in *. subst r2.
  rewrite !filter_app, !length_app. rewrite H1.
  destruct (select_video_ids be "video_likes" user (Video.id <$> videosData));
    rewrite !filter_cons, ?filter_nil;
    cbn [is_profile_lookup is_profile_insert];
    rewrite ?decide_False by done;
    cbn [app length]; rewrite ?app_nil_r;
    (split; [done|]); split; lia.
Qed.

(** The sample rows on a backend that answers every query. *)
Lemma loadVideos_requests_witness :
  getUser all_up = Some "me"
  ∧ select_videos all_up = Data sample_rows
  ∧ let rs := (loadVideos all_up VideoScroll).2 in
    filter (λ r, is_profile_lookup r = true) rs
    = SelectProfile <$> (Video.user_id <$> sample_rows)
    ∧ (length (filter (λ r, is_profile_insert r = true) rs)
       ≤ length sample_rows)%nat
    ∧ (length rs ≤ 2 * length sample_rows + 4)%nat.
Proof.
  split; [reflexivity|]. split; [reflexivity|].
  exact (loadVideos_requests all_up VideoScroll "me" sample_rows eq_refl eq_refl).
Defined.

(** ** Playback and interactions together *)

Lemma map_patch_objects videoId patch h prev :
  objects_below h prev →
  NoDup (FeedEntry.obj <$> prev) →
  let r := map_patch videoId patch h prev in
  (h ≤ r.2)%nat
  ∧ (∀ o, o ∈ FeedEntry.obj <$> r.1 →
          o ∈ FeedEntry.obj <$> prev ∨ (h ≤ o < r.2)%nat)
  ∧ NoDup (FeedEntry.obj <$> r.1).
Proof.
  revert h. induction prev as [|e rest IH]; intros h Hbelow Hnd.
  { simpl. split; [done|]. split; [by left|done]. }
  apply Forall_cons in Hbelow as [He Hbelow].
  rewrite fmap_cons in Hnd. apply NoDup_cons in Hnd as [Hnotin Hnd].
  cbn [map_patch].
  destruct (String.eqb (Video.id (FeedEntry.video e)) videoId).
  - assert (Hbelow' : objects_below (S h) rest).
    { eapply Forall_impl; [exact Hbelow|]. simpl. lia. }
    destruct (IH (S h) Hbelow' Hnd) as (Hle & Hin & Hnd').
    destruct (map_patch videoId patch (S h) rest) as [rest' h'].
    cbn [fst snd] in *. rewrite fmap_cons. cbn [FeedEntry.obj].
    split; [lia|]. split.
    + intros o [Ho|Ho]%elem_of_cons; [right; lia|].
      destruct (Hin o Ho) as [Hold|Hnew].
      * left. apply elem_of_cons. by right.
      * right. lia.
    + apply NoDup_cons. split; [|done]. intros Hh.
      destruct (Hin h Hh) as [Hold|Hnew]; [|lia].
      apply list_elem_of_fmap in Hold as (e0 & Heq & He0).
      assert ((FeedEntry.obj e0 < h)%nat); [|lia].
      by apply (proj1 (Forall_forall _ _) Hbelow).
  - destruct (IH h Hbelow Hnd) as (Hle & Hin & Hnd').
    destruct (map_patch videoId patch h rest) as [rest' h'].
    cbn [fst snd] in *. rewrite !fmap_cons.
    split; [done|]. split.
    + intros o [Ho|Ho]%elem_of_cons; [left; apply elem_of_cons; by left|].
      destruct (Hin o Ho) as [Hold|Hnew].
      * left. apply elem_of_cons. by right.
      * by right.
    + apply NoDup_cons. split; [|done]. intros Ho.
      destruct (Hin _ Ho) as [Hold|Hnew]; [done|lia].
Qed.

(** A patch of the feed keeps the objects pairwise distinct and below the
    new heap bound. *)
Lemma patchVideos_objects videoId patch s :
  distinct_objects (videos s) →
  objects_below (heap s) (videos s) →
  distinct_objects (videos (patchVideos videoId patch s))
  ∧ objects_below (heap (patchVideos videoId patch s))
                  (videos (patchVideos videoId patch s)).
Proof.
  intros Hnd Hbelow. unfold patchVideos.
  destruct (map_patch_objects videoId patch (heap s) (videos s) Hbelow Hnd)
    as (Hle & Hin & Hnd').
  destruct (map_patch videoId patch (heap s) (videos s)) as [vs h].
  cbn [fst snd] in *. split; [done|].
  apply Forall_forall. intros e He. simpl.
  assert (Ho : FeedEntry.obj e ∈ FeedEntry.obj <$> vs)
    by by apply list_elem_of_fmap_2.
  destruct (Hin (FeedEntry.obj e) Ho) as [Hold|Hnew]; [|lia].
  apply list_elem_of_fmap in Hold as (e0 & Heq & He0).
  assert ((FeedEntry.obj e0 < heap s)%nat); [|lia].
  by apply (proj1 (Forall_forall _ _) Hbelow).
Qed.

(** ... and, when the patch keeps id and URL, the video at each position
    keeps them too. *)
Lemma patchVideos_position videoId patch s p item :
  (∀ v, Video.id (patch v) = Video.id v) →
  (∀ v, Video.video_url (patch v) = Video.video_url v) →
  videos s !! p = Some item →
  ∃ item', videos (patchVideos videoId patch s) !! p = Some item'
    ∧ Video.id (FeedEntry.video item') = Video.id (FeedEntry.video item)
    ∧ Video.video_url (FeedEntry.video item')
      = Video.video_url (FeedEntry.video item).
Proof.
  intros Hid Hurl Hitem. rewrite videos_patch.
  destruct (decide (Video.id (FeedEntry.video item) = videoId)) as [Heq|Hne].
  - destruct (map_patch_lookup_hit videoId patch (heap s) _ _ _ Hitem Heq)
      as [o Ho].
    eexists. split; [exact Ho|]. simpl. by rewrite Hid, Hurl.
  - eexists. split; [by apply map_patch_lookup|done].
Qed.

Lemma feed_patched_refl s : feed_patched s s.
Proof. split; [done|]. split; [done|]. intros p item H. eauto. Qed.

Lemma feed_patched_trans s1 s2 s3 :
  feed_patched s1 s2 → feed_patched s2 s3 → feed_patched s1 s3.
Proof.
  intros (Hv1 & Ho1 & Hp1) (Hv2 & Ho2 & Hp2). split; [congruence|]. split.
  - intros Hd Hb. destruct (Ho1 Hd Hb). by apply Ho2.
  - intros p item Hitem. destruct (Hp1 _ _ Hitem) as (item' & H' & Hi & Hu).
    destruct (Hp2 _ _ H') as (item'' & H'' & Hi' & Hu').
    exists item''. split; [done|]. split; congruence.
Qed.

(** A setter of the interaction state alone. *)
Lemma feed_patched_interactionState f s :
  feed_patched s (with_interactionState f s).
Proof. split; [done|]. split; [done|]. intros p item H. eauto. Qed.

Lemma feed_patched_patchVideos videoId patch s :
  (∀ v, Video.id (patch v) = Video.id v) →
  (∀ v, Video.video_url (patch v) = Video.video_url v) →
  feed_patched s (patchVideos videoId patch s).
Proof.
  intros Hid Hurl. split; [apply videoState_patch|]. split.
  - apply patchVideos_objects.
  - intros p item. by apply patchVideos_position.
Qed.

Lemma feed_patched_handleLike videoId flag error s :
  feed_patched s (handleLike_settle videoId flag error s).
Proof.
  destruct error; [apply feed_patched_refl|]. unfold handleLike_settle.
  eapply feed_patched_trans; [|apply feed_patched_interactionState].
  destruct (truthy flag); by apply feed_patched_patchVideos.
Qed.

Lemma feed_patched_handleBookmark videoId flag error s :
  feed_patched s (handleBookmark_settle videoId flag error s).
Proof.
  destruct error; [apply feed_patched_refl|]. unfold handleBookmark_settle.
  eapply feed_patched_trans; [|apply feed_patched_interactionState].
  destruct (truthy flag); by apply feed_patched_patchVideos.
Qed.

Lemma feed_patched_save d error s :
  feed_patched s (saveVideoChanges_settle d error s).
Proof.
  unfold saveVideoChanges_settle.
  eapply feed_patched_trans; [|apply feed_patched_interactionState].
  destruct error.
  - apply feed_patched_interactionState.
  - eapply feed_patched_trans; [|apply feed_patched_interactionState].
    by apply feed_patched_patchVideos.
Qed.

(** A cell in agreement with the screen is a fixed point of the render:
    the memo comparator skips it. *)
Lemma render_cell_fixed hw s p c :
  distinct_objects (videos s) →
  cell_ok hw s p c → cell_shows s p c → render_cell hw s p c = c.
Proof.
  intros Hnd (_ & Hcur & _) (item & Hitem & Hid & Hurl).
  unfold render_cell. rewrite Hitem.
  pose proof (renderItem_current s p item Hnd Hitem) as Hnext.
  unfold MemoizedVideoPlayer. rewrite Hnext, <- Hcur.
  cbn [renderItem video]. rewrite Hid, Hurl.
  by rewrite Bool.eqb_reflx, !String.eqb_refl.
Qed.

Lemma cell_transfer hw s s' p c :
  feed_patched s s' →
  cell_ok hw s p c ∧ cell_shows s p c → cell_ok hw s' p c ∧ cell_shows s' p c.
Proof.
  intros (Hv & _ & Hpos) [(Hitem & Hcur & Hrest) (item & Hi & Hid & Hurl)].
  destruct (Hpos _ _ Hi) as (item' & Hi' & Hid' & Hurl').
  split.
  - split; [by eexists|]. split; [by rewrite Hv|done].
  - exists item'. split; [done|]. split; congruence.
Qed.

Lemma render_fixed hw s cs :
  distinct_objects (videos s) →
  map_Forall (λ p c, cell_ok hw s p c ∧ cell_shows s p c) cs →
  render hw s cs = cs.
Proof.
  intros Hnd Hall. apply map_eq. intros p. unfold render.
  rewrite map_lookup_imap. destruct (cs !! p) as [c|] eqn:Hc; [|done].
  simpl. destruct (Hall _ _ Hc). by rewrite render_cell_fixed.
Qed.

(** State setters that only patch the feed re-render no player. *)
Lemma commit_feed_patched b s' w :
  world_inv w →
  feed_patched (screen w) s' →
  commit b s' w
  = mkWorld (host w) s' (cells w) (tasks w) (requests w) (commands w)
  ∧ world_inv (commit b s' w).
Proof.
  intros (Hnd & Hbelow & Hrefs & Hcells) Hpatched.
  pose proof Hpatched as (Hv & Hobj & Hpos).
  destruct (Hobj Hnd Hbelow) as [Hnd' Hbelow'].
  assert (Hrefs' : videoRefs (videoState s') = ∅) by by rewrite Hv.
  assert (Hcells' : map_Forall (λ p c, cell_ok (host w) s' p c
                                      ∧ cell_shows s' p c)
                               (cells w)).
  { intros p c Hc. apply (cell_transfer (host w) (screen w)); [done|].
    by apply Hcells. }
  rewrite commit_no_refs by done. rewrite render_fixed by done.
  split; [done|].
  split; [exact Hnd'|]. split; [exact Hbelow'|]. split; [exact Hrefs'|].
  exact Hcells'.
Qed.

Lemma world_inv_ext w w' :
  host w' = host w → screen w' = screen w → cells w' = cells w →
  world_inv w → world_inv w'.
Proof. unfold world_inv. by intros -> -> ->. Qed.

Lemma render_cell_shows hw s p c :
  is_Some (videos s !! p) → cell_shows s p c →
  cell_shows s p (render_cell hw s p c).
Proof.
  intros [item Hitem] Hshows. unfold render_cell. rewrite Hitem.
  destruct (MemoizedVideoPlayer (props c) (renderItem s item)); [done|].
  by exists item.
Qed.

(** A state change that leaves the array alone. *)
Lemma commit_same_videos b s' w :
  world_inv w →
  videos s' = videos (screen w) →
  heap s' = heap (screen w) →
  videoRefs (videoState s') = ∅ →
  world_inv (commit b s' w).
Proof.
  intros (Hnd & Hbelow & Hrefs & Hcells) Hv Hh Hrefs'.
  rewrite commit_no_refs by done. unfold world_inv. cbn [screen cells].
  split; [by rewrite Hv|]. split; [by rewrite Hv, Hh|]. split; [done|].
  intros p c' Hc'. unfold render in Hc'.
  rewrite map_lookup_imap in Hc'.
  destruct (cells w !! p) as [c|] eqn:Hc; simpl in Hc'; [|done].
  injection Hc' as <-. destruct (Hcells _ _ Hc) as [Hok Hshows]. split.
  - apply (render_cell_ok (host w) (screen w)); [by rewrite Hv|done|done].
  - apply render_cell_shows.
    + rewrite Hv. by destruct Hok.
    + destruct Hshows as (item & Hi & Hid & Hurl). exists item.
      by rewrite Hv.
Qed.

Lemma mount_world_inv w p :
  world_inv w →
  world_inv (mkWorld (host w) (screen w)
                     (mount (host w) (screen w) p (cells w))
                     (tasks w) (requests w) (commands w)).
Proof.
  intros (Hnd & Hbelow & Hrefs & Hcells).
  split; [done|]. split; [done|]. split; [done|]. cbn [cells screen].
  unfold mount. destruct (videos (screen w) !! p) as [item|] eqn:Hitem; [|done].
  apply map_Forall_insert_2; [|done]. split.
  - split; [by eexists|]. cbn [props element playing hook host].
    split; [apply (renderItem_current (screen w) p item Hnd Hitem)|].
    split; [apply VideoPlayer_shouldPlay|].
    split; [intros Hos; by apply created_native|].
    split; [done|]. by rewrite VideoPlayer_isMuted.
  - exists item. cbn [props video]. by split.
Qed.

Lemma playback_step_world_inv w e :
  world_inv w → world_inv (playback_step w e).
Proof.
  intros Hw. pose proof Hw as (Hnd & Hbelow & Hrefs & Hcells).
  destruct e as [[|first rest]|p|p|];
    unfold playback_step, handleViewableItemsChanged.
  - done.
  - destruct (ViewToken.isViewable first); by apply commit_same_videos.
  - by apply mount_world_inv.
  - split; [done|]. split; [done|]. split; [done|].
    by apply map_Forall_delete.
  - by apply commit_same_videos.
Qed.

Lemma finish_world_inv w n error s' :
  world_inv w →
  feed_patched (screen w) s' →
  world_inv (finish n error s' w)
  ∧ cells (finish n error s' w) = cells w
  ∧ commands (finish n error s' w) = commands w.
Proof.
  intros Hw Hpatched. unfold finish.
  set (w' := mkWorld (host w) (screen w) (cells w) (<[n:=Settled]> (tasks w))
                     (requests w) (commands w)).
  assert (Hw' : world_inv w') by by apply (world_inv_ext w).
  destruct error; [done|].
  destruct (commit_feed_patched true s' w' Hw' Hpatched) as [Heq Hinv'].
  split; [done|]. by rewrite Heq.
Qed.

Lemma store_step_world_inv w e :
  world_inv w →
  world_inv (store_step w e)
  ∧ cells (store_step w e) = cells w
  ∧ commands (store_step w e) = commands w.
Proof.
  intros Hw. destruct e as [videoId|videoId|n user|n error]; cbn [store_step].
  - split; [by apply (world_inv_ext w)|done].
  - split; [by apply (world_inv_ext w)|done].
  - destruct (tasks w !! n) as [[[] videoId closure| |]|];
      (split; [by apply (world_inv_ext w)|done]).
  - destruct (tasks w !! n) as [[|[] videoId flag|]|]; try done.
    + apply finish_world_inv; [done|apply feed_patched_handleLike].
    + apply finish_world_inv; [done|apply feed_patched_handleBookmark].
Qed.

Lemma step_world_inv w e : world_inv w → world_inv (step w e).
Proof.
  intros Hw. destruct e as [e|e|d error]; cbn [step].
  - by apply playback_step_world_inv.
  - by apply store_step_world_inv.
  - by apply commit_feed_patched, feed_patched_save.
Qed.

Lemma run_world_inv w es : world_inv w → world_inv (run w es).
Proof.
  revert w. induction es as [|e es IH]; intros w Hw; [done|].
  apply (IH (step w e)). by apply step_world_inv.
Qed.

Lemma with_users_heap be h videosData :
  (with_users be h videosData).1.2 = (h + length videosData)%nat.
Proof.
  revert h. induction videosData as [|v rest IH]; intros h; [simpl; lia|].
  cbn [with_users].
  destruct (ensureProfile be (Video.user_id v)) as [userData r1].
  specialize (IH (S h)).
  destruct (with_users be (S h) rest) as [[entries h'] r2].
  cbn [fst snd length] in *. lia.
Qed.

Lemma started_inv hw be : world_inv (started hw be).
Proof.
  unfold world_inv, started. cbn [screen cells].
  split; [|split; [|split; [|apply map_Forall_empty]]].
  - unfold loadVideos. destruct (getUser be); [|apply NoDup_nil_2].
    destruct (select_videos be) as [videosData|]; [|apply NoDup_nil_2].
    pose proof (loaded_feed_distinct be (heap (setError None VideoScroll))
                  videosData) as Hd.
    destruct (with_users be _ videosData) as [[vs h] r1].
    pose proof (checkUserInteractions_keeps be s (Video.id <$> videosData)
                  (setVideos vs h (setError None VideoScroll))) as (Hk & _).
    destruct (checkUserInteractions be s _ _) as [s2 r2].
    cbn [fst snd] in *. simpl. by rewrite Hk.
  - unfold loadVideos. destruct (getUser be); [|apply Forall_nil_2].
    destruct (select_videos be) as [videosData|]; [|apply Forall_nil_2].
    pose proof (with_users_objects be (heap (setError None VideoScroll))
                  videosData) as Ho.
    pose proof (with_users_heap be (heap (setError None VideoScroll))
                  videosData) as Hh.
    destruct (with_users be _ videosData) as [[vs h] r1].
    pose proof (checkUserInteractions_keeps be s (Video.id <$> videosData)
                  (setVideos vs h (setError None VideoScroll)))
      as (Hk & _ & _ & _ & Hk').
    destruct (checkUserInteractions be s _ _) as [s2 r2].
    cbn [fst snd] in *. simpl. rewrite Hk, Hk'. cbn [videos heap setVideos].
    apply Forall_forall. intros e He.
    assert (Hin : FeedEntry.obj e ∈ FeedEntry.obj <$> vs)
      by by apply list_elem_of_fmap_2.
    rewrite Ho in Hin. apply elem_of_seq in Hin. lia.
  - unfold loadVideos. destruct (getUser be); [|done].
    destruct (select_videos be) as [videosData|]; [|done].
    destruct (with_users be _ videosData) as [[vs h] r1].
    pose proof (checkUserInteractions_keeps be s (Video.id <$> videosData)
                  (setVideos vs h (setError None VideoScroll)))
      as (_ & _ & _ & Hk & _).
    destruct (checkUserInteractions be s _ _) as [s2 r2].
    cbn [fst snd] in *. simpl. by rewrite Hk.
Qed.

Lemma world_inv_playback w :
  world_inv w → playback_inv (videos (screen w)) w.
Proof.
  intros (_ & _ & Hrefs & Hcells). split; [done|]. split; [done|].
  intros p c Hc. by destruct (Hcells _ _ Hc).
Qed.

Lemma store_step_host w e : host (store_step w e) = host w.
Proof.
  destruct e as [videoId|videoId|n user|n error]; cbn [store_step]; try done.
  - by destruct (tasks w !! n) as [[[] videoId closure| |]|].
  - destruct (tasks w !! n) as [[|[] videoId flag|]|]; try done;
      by destruct error.
Qed.

Lemma step_host w e : host (step w e) = host w.
Proof.
  destruct e as [e|e|d error]; cbn [step];
    [apply playback_step_host|apply store_step_host|done].
Qed.

Lemma run_host w es : host (run w es) = host w.
Proof.
  revert w. induction es as [|e es IH]; intros w; [done|].
  change (run w (e :: es)) with (run (step w e) es).
  by rewrite IH, step_host.
Qed.

(** On a device, after [loadVideos] and any sequence of viewability
    reports, mounts, unmounts, mute presses, like and bookmark presses
    with their answers and save answers, at most one mounted player is
    playing, and exactly one when the cell of the active page is mounted. *)
Theorem one_playing_through_interactions (hw : Host) (be : Backend)
    (es : list Event) :
  os hw = Native →
  let w := run (started hw be) es in
  (playing_count w ≤ 1)%nat
  ∧ playing_count w = (if active_mounted w then 1%nat else 0%nat).
Proof.
  intros Hos w.
  assert (Hw : world_inv w) by apply run_world_inv, started_inv.
  assert (Hhost : os (host w) = Native)
    by (subst w; by rewrite run_host).
  pose proof (playing_count_spec _ w Hhost (world_inv_playback w Hw)) as Hcount.
  split; [|done]. rewrite Hcount. destruct (active_mounted w); lia.
Qed.

(** The sample backend on a device: three cells mounted, a like of "B"
    accepted, then page 1 reported viewable. *)
Lemma one_playing_through_interactions_witness :
  os device = Native
  ∧ let w := run (started device all_up)
               [Playback (MountCell 0); Playback (MountCell 1);
                Playback (MountCell 2); Store (PressLike "B");
                Store (UserResolved 0 (Some "me"));
                Store (MutationSettled 0 None);
                Playback (ViewableItemsChanged
                            [ViewToken.mk 1 true; ViewToken.mk 0 false])] in
    (playing_count w ≤ 1)%nat
    ∧ playing_count w = (if active_mounted w then 1%nat else 0%nat).
Proof.
  split; [reflexivity|].
  exact (one_playing_through_interactions device all_up _ eq_refl).
Defined.

(** A like, a bookmark, their answers and the answer to a save never
    render a player again: in every state the screen can reach, such an
    event leaves every mounted player (props, element, transport) exactly
    as it was and sends no command, although a successful answer replaces
    the entry of the video by a new object. *)
Theorem interactions_rerender_no_player (hw : Host) (be : Backend)
    (es : list Event) (e : StoreEvent) (d : EditVideoData.t)
    (error : option string) :
  let w := run (started hw be) es in
  (cells (step w (Store e)) = cells w
   ∧ commands (step w (Store e)) = commands w)
  ∧ (cells (step w (SaveAnswered d error)) = cells w
     ∧ commands (step w (SaveAnswered d error)) = commands w).
Proof.
  intros w.
  assert (Hw : world_inv w) by apply run_world_inv, started_inv.
  split; [by apply store_step_world_inv|]. cbn [step].
  destruct (commit_feed_patched (bool_decide (error = None))
              (saveVideoChanges_settle d error (screen w)) w Hw
              (feed_patched_save d error (screen w))) as [-> _].
  done.
Qed.

(** A viewability report whose first token is not viewable changes
    nothing at all in any state the screen can reach, even when a later
    token of the same report says that another page became viewable. *)
Theorem nonviewable_first_report_ignored (hw : Host) (be : Backend)
    (es : list Event) (first : ViewToken.t) (rest : list ViewToken.t) :
  ViewToken.isViewable first = false →
  let w := run (started hw be) es in
  step w (Playback (ViewableItemsChanged (first :: rest))) = w.
Proof.
  intros Hfirst w.
  assert (Hw : world_inv w) by apply run_world_inv, started_inv.
  cbn [step playback_step handleViewableItemsChanged]. rewrite Hfirst.
  destruct (commit_feed_patched false (screen w) w Hw
              (feed_patched_refl (screen w))) as [-> _].
  by destruct w.
Qed.

(** Page 0 leaves the view and page 1 enters it, reported in this order. *)
Lemma nonviewable_first_report_ignored_witness :
  ViewToken.isViewable (ViewToken.mk 0 false) = false
  ∧ let w := run (started device all_up)
               [Playback (MountCell 0); Playback (MountCell 1)] in
    step w (Playback (ViewableItemsChanged
                        [ViewToken.mk 0 false; ViewToken.mk 1 true])) = w.
Proof.
  split; [reflexivity|].
  exact (nonviewable_first_report_ignored device all_up
           [Playback (MountCell 0); Playback (MountCell 1)]
           (ViewToken.mk 0 false) [ViewToken.mk 1 true] eq_refl).
Defined.

Lemma map_patch_identity videoId patch h prev :
  (∀ v, Video.id (patch v) = Video.id v) →
  (∀ v, Video.video_url (patch v) = Video.video_url v) →
  (∀ v, Video.user_id (patch v) = Video.user_id v) →
  (∀ v, Video.created_at (patch v) = Video.created_at v) →
  identity_of <$> (map_patch videoId patch h prev).1 = identity_of <$> prev.
Proof.
  intros H1 H2 H3 H4. revert h.
  induction prev as [|e rest IH]; intros h; [done|].
  cbn [map_patch].
  destruct (String.eqb (Video.id (FeedEntry.video e)) videoId).
  - specialize (IH (S h)).
    destruct (map_patch videoId patch (S h) rest) as [rest' h'].
    cbn [fst] in *. rewrite !fmap_cons, IH. f_equal.
    unfold identity_of. cbn [FeedEntry.video FeedEntry.user].
    by rewrite H1, H2, H3, H4.
  - specialize (IH h).
    destruct (map_patch videoId patch h rest) as [rest' h'].
    cbn [fst] in *. by rewrite !fmap_cons, IH.
Qed.

Lemma patchVideos_identity videoId patch s :
  (∀ v, Video.id (patch v) = Video.id v) →
  (∀ v, Video.video_url (patch v) = Video.video_url v) →
  (∀ v, Video.user_id (patch v) = Video.user_id v) →
  (∀ v, Video.created_at (patch v) = Video.created_at v) →
  identity_of <$> videos (patchVideos videoId patch s)
  = identity_of <$> videos s.
Proof. intros. rewrite videos_patch. by apply map_patch_identity. Qed.

Lemma step_identity w e :
  identity_of <$> videos (screen (step w e)) = identity_of <$> videos (screen w).
Proof.
  destruct e as [[[|first rest]|p|p|]|[videoId|videoId|n user|n error]|d error];
    cbn [step playback_step store_step handleViewableItemsChanged]; try done.
  - by destruct (ViewToken.isViewable first).
  - by destruct (tasks w !! n) as [[[] videoId closure| |]|].
  - destruct (tasks w !! n) as [[|[] videoId flag|]|]; try done;
      (destruct error; [done|]); unfold finish; rewrite screen_commit.
    + unfold handleLike_settle.
      destruct (truthy flag); by apply patchVideos_identity.
    + unfold handleBookmark_settle.
      destruct (truthy flag); by apply patchVideos_identity.
  - rewrite screen_commit. destruct error; [done|].
    by apply (patchVideos_identity (EditVideoData.id d) (apply_draft d)).
Qed.

(** The feed is fixed at load time: no later event adds, drops or
    reorders an entry, or changes the id, the URL, the author, the
    creation time or the shown profile of an entry. *)
Theorem feed_identity_fixed_at_load (hw : Host) (be : Backend)
    (es : list Event) :
  identity_of <$> videos (screen (run (started hw be) es))
  = identity_of <$> videos (screen (started hw be)).
Proof.
  generalize (started hw be). induction es as [|e es IH]; intros w; [done|].
  change (run w (e :: es)) with (run (step w e) es).
  by rewrite IH, step_identity.
Qed.

(** ** The edit session *)

Lemma count_insert {A} (P : A → bool) (l : list A) (n : nat) (x y : A) :
  l !! n = Some x →
  (length (filter (λ t, P t = true) (<[n := y]> l)) + (if P x then 1 else 0)
   = length (filter (λ t, P t = true) l) + (if P y then 1 else 0))%nat.
Proof.
  revert n. induction l as [|a l IH]; intros n Hn; [done|].
  destruct n as [|n]; simpl in Hn.
  - injection Hn as ->. change (<[0%nat:=y]> (x :: l)) with (y :: l).
    rewrite !filter_cons.
    destruct (P x), (P y);
      repeat (first [rewrite decide_True by done|rewrite decide_False by done]);
      simpl; lia.
  - specialize (IH n Hn).
    change (<[S n:=y]> (a :: l)) with (a :: <[n:=y]> l). rewrite !filter_cons.
    destruct (P a);
      repeat (first [rewrite decide_True by done|rewrite decide_False by done]);
      simpl; lia.
Qed.

Lemma count_snoc {A} (P : A → bool) (l : list A) (y : A) :
  length (filter (λ t, P t = true) (l ++ [y]))
  = (length (filter (λ t, P t = true) l) + (if P y then 1 else 0))%nat.
Proof.
  rewrite filter_app, length_app, filter_cons, filter_nil.
  destruct (P y);
    repeat (first [rewrite decide_True by done|rewrite decide_False by done]);
    simpl; lia.
Qed.

Lemma spread_draft_some f s d :
  editVideoData (interactionState s) = Some d →
  spread_draft f s = Some (setEditVideoData (Some (f d)) s).
Proof. intros H. unfold spread_draft. by rewrite H. Qed.

(** A setter of the edit session that keeps what [flags_inv] reads, or
    puts a draft in place. *)
Lemma flags_inv_screen w s' :
  flags_inv w →
  (editVideoData (interactionState s') = None →
     editVideoData (interactionState (ed_screen w)) = None
     ∧ bottomSheetVisible (interactionState s') = false
     ∧ editModalVisible (interactionState s') = false) →
  locationLoading (interactionState s')
  = locationLoading (interactionState (ed_screen w)) →
  saving (interactionState s') = saving (interactionState (ed_screen w)) →
  flags_inv (with_screen s' w).
Proof.
  intros (I1 & I2 & I3) Hdraft Hloading Hsaving.
  unfold flags_inv, in_flight in *. cbn [ed_screen ed_tasks with_screen].
  rewrite Hloading, Hsaving. split; [|done].
  intros Hnone. destruct (Hdraft Hnone) as (Hold & Hsheet & Hmodal).
  destruct (I1 Hold) as (_ & _ & Hcount). done.
Qed.

Lemma flags_inv_change f w :
  flags_inv w → ∃ w', change_draft f w = Some w' ∧ flags_inv w'.
Proof.
  intros Hw. unfold change_draft, in_modal.
  destruct (editModalVisible (interactionState (ed_screen w))) eqn:Hmodal;
    [|by eexists].
  destruct (editVideoData (interactionState (ed_screen w))) as [d|] eqn:Hd.
  - rewrite (spread_draft_some f _ d Hd). eexists. split; [done|].
    by apply flags_inv_screen.
  - destruct Hw as (I1 & _). destruct (I1 Hd) as (_ & Hm & _). congruence.
Qed.

Lemma saveVideoChanges_settle_flags d error s :
  let i := interactionState s in
  let i' := interactionState (saveVideoChanges_settle d error s) in
  editVideoData i' = editVideoData i
  ∧ bottomSheetVisible i' = bottomSheetVisible i
  ∧ locationLoading i' = locationLoading i
  ∧ saving i' = false
  ∧ interactions i' = interactions i
  ∧ (editModalVisible i = false → editModalVisible i' = false).
Proof.
  unfold saveVideoChanges_settle. destruct error; [done|].
  cbn. by rewrite interactions_patch.
Qed.

Lemma flags_step w e :
  flags_inv w → ∃ w', edit_step w e = Some w' ∧ flags_inv w'.
Proof.
  intros Hw. pose proof Hw as (I1 & I2 & I3).
  destruct w as [s ts rs]. unfold in_flight in *. cbn [ed_screen ed_tasks] in *.
  destruct e as [p| | |text|text|text| | |n error| |n result| |n status
                |n location|n addresses]; cbn [edit_step ed_screen ed_tasks].
  - (* PressEdit *)
    eexists. split; [done|]. unfold pressEdit.
    destruct (videos s !! p) as [item|]; [|by destruct Hw].
    destruct (bool_decide _); [|by destruct Hw].
    by apply (flags_inv_screen (mkEditor s ts rs)).
  - (* DismissSheet *)
    eexists. split; [done|].
    apply (flags_inv_screen (mkEditor s ts rs)); try done.
    cbn. intros Hnone. by destruct (I1 Hnone) as (_ & Hm & _).
  - (* PressEditDetails *)
    eexists. split; [done|].
    destruct (bottomSheetVisible (interactionState s)) eqn:Hsheet; [|done].
    apply (flags_inv_screen (mkEditor s ts rs)); try done.
    cbn. intros Hnone. destruct (I1 Hnone) as (Hs & _). congruence.
  - by apply flags_inv_change.
  - by apply flags_inv_change.
  - by apply flags_inv_change.
  - (* CloseModal *)
    eexists. split; [done|].
    apply (flags_inv_screen (mkEditor s ts rs)); try done.
    cbn. intros Hnone. by destruct (I1 Hnone) as (Hs & _ & _).
  - (* PressSave *)
    destruct (in_modal s && negb (saving (interactionState s))) eqn:Hgate;
      [|by eexists].
    apply andb_prop in Hgate as [Hmodal Hsaving].
    apply negb_true_iff in Hsaving. unfold saveVideoChanges_call.
    destruct (editVideoData (interactionState s)) as [d|] eqn:Hd; [|by eexists].
    eexists. split; [done|]. unfold flags_inv, in_flight.
    cbn [ed_screen ed_tasks]. rewrite !count_snoc. cbn.
    rewrite Hd, I2, I3, Hsaving. split; [done|]. split; lia.
  - (* UpdateAnswered *)
    destruct (ts !! n) as [[d| | | | |]|] eqn:Hn; try by eexists.
    eexists. split; [done|]. unfold flags_inv, in_flight.
    cbn [ed_screen ed_tasks].
    pose proof (count_insert is_location_task ts n _ Finished Hn) as Hl.
    pose proof (count_insert is_update_task ts n _ Finished Hn) as Hu.
    cbn [is_location_task is_update_task] in Hl, Hu.
    destruct (saveVideoChanges_settle_flags d error s)
      as (Hdraft & Hsheet & Hload & Hsav & _ & Hmod).
    rewrite Hdraft, Hsheet, Hload, Hsav.
    split; [|split].
    + intros Hnone. destruct (I1 Hnone) as (Hs & Hm & Hc).
      split; [done|]. split; [by apply Hmod|lia].
    + lia.
    + destruct (saving (interactionState s)); lia.
  - (* PressSearch *)
    destruct (in_modal s && negb (locationLoading (interactionState s)))
      eqn:Hgate; [|by eexists].
    apply andb_prop in Hgate as [Hmodal Hloading].
    apply negb_true_iff in Hloading. unfold searchAddress_call.
    destruct (editVideoData (interactionState s)) as [d|] eqn:Hd.
    + destruct (trim_is_empty (EditVideoData.address d)).
      * eexists. split; [done|].
        apply (flags_inv_screen (mkEditor s ts rs)); try done.
        cbn. by rewrite Hd.
      * eexists. split; [done|]. unfold flags_inv, in_flight.
        cbn [ed_screen ed_tasks]. rewrite !count_snoc. cbn.
        rewrite Hd, I2, I3, Hloading. split; [done|]. split; lia.
    + destruct (I1 eq_refl) as (_ & Hm & _). unfold in_modal in Hmodal.
      congruence.
  - (* GeocodeAnswered *)
    destruct (ts !! n) as [[d| | | | |]|] eqn:Hn; try by eexists.
    pose proof (count_insert is_location_task ts n _ Finished Hn) as Hl.
    pose proof (count_insert is_update_task ts n _ Finished Hn) as Hu.
    cbn [is_location_task is_update_task] in Hl, Hu.
    destruct (editVideoData (interactionState s)) as [d|] eqn:Hd;
      [|destruct (I1 eq_refl) as (_ & _ & Hc); lia].
    unfold searchAddress_settle.
    destruct result as [[|[latitude longitude] more]|code];
      rewrite ?(spread_draft_some _ _ d Hd); cbn [fmap option_fmap option_map];
      (eexists; split; [done|]); unfold flags_inv, in_flight;
      cbn [ed_screen ed_tasks]; cbn; rewrite ?Hd;
      (split; [done|]); destruct (locationLoading (interactionState s));
      split; lia.
  - (* PressLocate *)
    destruct (in_modal s && negb (locationLoading (interactionState s)))
      eqn:Hgate; [|by eexists].
    apply andb_prop in Hgate as [Hmodal Hloading].
    apply negb_true_iff in Hloading. unfold in_modal in Hmodal.
    eexists. split; [done|]. unfold flags_inv, in_flight.
    cbn [ed_screen ed_tasks]. rewrite !count_snoc. cbn.
    rewrite I2, I3, Hloading. split; [|split; lia].
    intros Hnone. destruct (I1 Hnone) as (_ & Hm & _). congruence.
  - (* PermissionAnswered *)
    destruct (ts !! n) as [[d| | | | |]|] eqn:Hn; try by eexists.
    pose proof (count_insert is_location_task ts n _ Finished Hn) as Hl.
    pose proof (count_insert is_update_task ts n _ Finished Hn) as Hu.
    pose proof (count_insert is_location_task ts n _ AwaitPosition Hn) as Hl'.
    pose proof (count_insert is_update_task ts n _ AwaitPosition Hn) as Hu'.
    cbn [is_location_task is_update_task] in Hl, Hu, Hl', Hu'.
    destruct (editVideoData (interactionState s)) as [d|] eqn:Hd;
      [|destruct (I1 eq_refl) as (_ & _ & Hc); lia].
    unfold getCurrentLocation_permission.
    destruct status as [[]|code];
      (eexists; split; [done|]); unfold flags_inv, in_flight;
      cbn [ed_screen ed_tasks]; cbn; rewrite ?Hd;
      (split; [done|]); destruct (locationLoading (interactionState s));
      split; lia.
  - (* PositionAnswered *)
    destruct (ts !! n) as [[d| | | | |]|] eqn:Hn; try by eexists.
    pose proof (count_insert is_location_task ts n _ Finished Hn) as Hl.
    pose proof (count_insert is_update_task ts n _ Finished Hn) as Hu.
    destruct (editVideoData (interactionState s)) as [d|] eqn:Hd;
      [|destruct (I1 eq_refl) as (_ & _ & Hc);
        cbn [is_location_task] in Hl; lia].
    unfold getCurrentLocation_position.
    destruct location as [[latitude longitude]|code].
    + pose proof (count_insert is_location_task ts n _
                    (AwaitReverse latitude longitude) Hn) as Hl'.
      pose proof (count_insert is_update_task ts n _
                    (AwaitReverse latitude longitude) Hn) as Hu'.
      cbn [is_location_task is_update_task] in Hl', Hu'.
      eexists. split; [done|]. unfold flags_inv, in_flight.
      cbn [ed_screen ed_tasks]. rewrite Hd. split; [done|]. split; lia.
    + cbn [is_location_task is_update_task] in Hl, Hu.
      eexists. split; [done|]. unfold flags_inv, in_flight.
      cbn [ed_screen ed_tasks]. cbn. rewrite Hd. split; [done|].
      destruct (locationLoading (interactionState s)); split; lia.
  - (* ReverseAnswered *)
    destruct (ts !! n) as [[d| | | |latitude longitude|]|] eqn:Hn;
      try by eexists.
    pose proof (count_insert is_location_task ts n _ Finished Hn) as Hl.
    pose proof (count_insert is_update_task ts n _ Finished Hn) as Hu.
    cbn [is_location_task is_update_task] in Hl, Hu.
    destruct (editVideoData (interactionState s)) as [d|] eqn:Hd;
      [|destruct (I1 eq_refl) as (_ & _ & Hc); lia].
    unfold getCurrentLocation_reverse.
    destruct addresses as [l|code];
      rewrite ?(spread_draft_some _ _ d Hd); cbn [fmap option_fmap option_map];
      (eexists; split; [done|]); unfold flags_inv, in_flight;
      cbn [ed_screen ed_tasks]; cbn; rewrite ?Hd;
      (split; [done|]); destruct (locationLoading (interactionState s));
      split; lia.
Qed.

Lemma elem_of_insert_inv {A} (l : list A) (n : nat) (x y : A) :
  x ∈ <[n := y]> l → x = y ∨ x ∈ l.
Proof.
  intros (j & Hj)%list_elem_of_lookup.
  apply list_lookup_insert_Some in Hj as [(-> & -> & _)|(_ & Hj)]; [by left|].
  right. by eapply list_elem_of_lookup_2.
Qed.

Lemma owned_identity s s' id :
  identity_of <$> videos s' = identity_of <$> videos s →
  currentUserId s' = currentUserId s →
  owned s id → owned s' id.
Proof.
  intros Hident Huser (item & Hin & Hid & Hown).
  assert (Hi : identity_of item ∈ identity_of <$> videos s')
    by (rewrite Hident; by apply list_elem_of_fmap_2).
  apply list_elem_of_fmap in Hi as (item' & Heq & Hin').
  exists item'. split; [done|]. unfold identity_of in Heq.
  injection Heq as H1 H2 H3 H4 H5. rewrite <- H1, <- H3. by rewrite Huser.
Qed.

Lemma owned_save d error s id :
  owned s id → owned (saveVideoChanges_settle d error s) id.
Proof.
  apply owned_identity.
  - unfold saveVideoChanges_settle. destruct error; [done|].
    by apply (patchVideos_identity (EditVideoData.id d) (apply_draft d)).
  - unfold saveVideoChanges_settle. destruct error; [done|].
    cbn. unfold patchVideos. by destruct (map_patch _ _ _ _).
Qed.

(** A setter of the edit session that keeps or replaces the draft. *)
Lemma requests_inv_screen w s' :
  requests_inv w →
  (∀ id, owned (ed_screen w) id → owned s' id) →
  (∀ d', editVideoData (interactionState s') = Some d' → owned s' (EditVideoData.id d')) →
  requests_inv (with_screen s' w).
Proof.
  intros (R1 & R2 & R3 & R4) Hown Hdraft. unfold requests_inv.
  cbn [ed_screen ed_tasks ed_requests with_screen].
  split; [done|]. split; [|split; [|done]].
  - intros d Hd. by apply Hown, R2.
  - intros id d Hd. destruct (R3 id d Hd). split; [by apply Hown|done].
Qed.

Lemma requests_inv_draft f w w' :
  (∀ d, EditVideoData.id (f d) = EditVideoData.id d) →
  requests_inv w → change_draft f w = Some w' → requests_inv w'.
Proof.
  intros Hf Hw. unfold change_draft.
  destruct (in_modal (ed_screen w)); [|by intros [= <-]].
  unfold spread_draft.
  destruct (editVideoData (interactionState (ed_screen w))) as [d|] eqn:Hd;
    [|done].
  cbn. intros [= <-]. apply requests_inv_screen; [done|done|].
  cbn. intros d' [= <-]. rewrite Hf. destruct Hw as (R1 & _). by apply R1.
Qed.

Lemma requests_step w e w' :
  requests_inv w → edit_step w e = Some w' → requests_inv w'.
Proof.
  intros Hw. pose proof Hw as (R1 & R2 & R3 & R4).
  destruct w as [s ts rs]. cbn [ed_screen ed_tasks ed_requests] in *.
  destruct e as [p| | |text|text|text| | |n error| |n result| |n status
                |n location|n addresses];
    cbn [edit_step ed_screen ed_tasks ed_requests].
  - (* PressEdit *)
    intros [= <-]. unfold pressEdit.
    destruct (videos s !! p) as [item|] eqn:Hitem; [|done].
    destruct (bool_decide _) eqn:Hmine; [|done].
    apply bool_decide_eq_true_1 in Hmine.
    apply (requests_inv_screen (mkEditor s ts rs)); [done|done|].
    cbn. intros d' [= <-]. cbn. exists item.
    split; [by eapply list_elem_of_lookup_2|done].
  - intros [= <-]. apply (requests_inv_screen (mkEditor s ts rs)); done.
  - intros [= <-]. destruct (bottomSheetVisible (interactionState s)); [|done].
    apply (requests_inv_screen (mkEditor s ts rs)); done.
  - by apply requests_inv_draft.
  - by apply requests_inv_draft.
  - by apply requests_inv_draft.
  - intros [= <-]. apply (requests_inv_screen (mkEditor s ts rs)); done.
  - (* PressSave *)
    destruct (in_modal s && negb (saving (interactionState s)));
      [|by intros [= <-]].
    unfold saveVideoChanges_call.
    destruct (editVideoData (interactionState s)) as [d|] eqn:Hd;
      [|by intros [= <-]].
    intros [= <-]. unfold requests_inv. cbn [ed_screen ed_tasks ed_requests].
    split; [|split; [|split]].
    + cbn. intros d' Hd'. rewrite Hd in Hd'. by apply R1.
    + intros d' [Hin|Hin]%elem_of_app; [by apply R2|].
      apply list_elem_of_singleton in Hin as [= ->]. by apply R1.
    + intros id d' [Hin|Hin]%elem_of_app; [by apply R3|].
      cbn in Hin. apply list_elem_of_singleton in Hin as [= -> ->].
      split; [by apply R1|done].
    + intros address [Hin|Hin]%elem_of_app; [by apply R4|].
      cbn in Hin. by apply list_elem_of_singleton in Hin.
  - (* UpdateAnswered *)
    destruct (ts !! n) as [[d| | | | |]|] eqn:Hn; try by intros [= <-].
    intros [= <-]. unfold requests_inv. cbn [ed_screen ed_tasks ed_requests].
    destruct (saveVideoChanges_settle_flags d error s) as (Hdraft & _).
    split; [|split; [|split; [|done]]].
    + rewrite Hdraft. intros d' Hd'. by apply owned_save, R1.
    + intros d' [?|Hin]%elem_of_insert_inv; [done|]. by apply owned_save, R2.
    + intros id d' Hin. destruct (R3 id d' Hin).
      split; [by apply owned_save|done].
  - (* PressSearch *)
    destruct (in_modal s && negb (locationLoading (interactionState s)));
      [|by intros [= <-]].
    unfold searchAddress_call.
    destruct (editVideoData (interactionState s)) as [d|] eqn:Hd.
    + destruct (trim_is_empty (EditVideoData.address d)) eqn:Hblank.
      * intros [= <-].
        apply (requests_inv_screen (mkEditor s ts rs)); [done|done|].
        cbn. intros d' Hd'. rewrite ?Hd in Hd'. by apply R1.
      * intros [= <-]. unfold requests_inv.
        cbn [ed_screen ed_tasks ed_requests].
        split; [|split; [|split]].
        -- cbn. intros d' Hd'. rewrite ?Hd in Hd'. by apply R1.
        -- intros d' [Hin|Hin]%elem_of_app; [by apply R2|].
           by apply list_elem_of_singleton in Hin.
        -- intros id d' [Hin|Hin]%elem_of_app; [by apply R3|].
           by apply list_elem_of_singleton in Hin.
        -- intros address [Hin|Hin]%elem_of_app; [by apply R4|].
           by apply list_elem_of_singleton in Hin as [= ->].
    + intros [= <-].
      apply (requests_inv_screen (mkEditor s ts rs)); [done|done|].
      cbn. intros d' Hd'. rewrite ?Hd in Hd'. by apply R1.
  - (* GeocodeAnswered *)
    destruct (ts !! n) as [[d| | | | |]|] eqn:Hn; try by intros [= <-].
    unfold searchAddress_settle, spread_draft.
    destruct result as [[|[latitude longitude] more]|code];
      [|destruct (editVideoData (interactionState s)) as [d|] eqn:Hd; [|done]|];
      cbn; intros [= <-]; unfold requests_inv;
      cbn [ed_screen ed_tasks ed_requests];
      (split; [|split; [|done]]);
      try (intros d' [?|Hin]%elem_of_insert_inv; [done|]; by apply R2).
    + cbn. done.
    + cbn. intros d' [= <-]. exact (R1 _ eq_refl).
    + cbn. done.
  - (* PressLocate *)
    destruct (in_modal s && negb (locationLoading (interactionState s)));
      [|by intros [= <-]].
    intros [= <-]. unfold requests_inv. cbn [ed_screen ed_tasks ed_requests].
    split; [done|]. split; [|split].
    + intros d' [Hin|Hin]%elem_of_app; [by apply R2|].
      by apply list_elem_of_singleton in Hin.
    + intros id d' [Hin|Hin]%elem_of_app; [by apply R3|].
      by apply list_elem_of_singleton in Hin.
    + intros address [Hin|Hin]%elem_of_app; [by apply R4|].
      by apply list_elem_of_singleton in Hin.
  - (* PermissionAnswered *)
    destruct (ts !! n) as [[d| | | | |]|] eqn:Hn; try by intros [= <-].
    unfold getCurrentLocation_permission.
    destruct status as [[]|code]; intros [= <-]; unfold requests_inv;
      cbn [ed_screen ed_tasks ed_requests]; rewrite ?app_nil_r;
      (split; [done|]); (split; [|split]);
      try (intros d' [?|Hin]%elem_of_insert_inv; [done|]; by apply R2);
      try done.
    + intros id d' [Hin|Hin]%elem_of_app; [by apply R3|].
      by apply list_elem_of_singleton in Hin.
    + intros address [Hin|Hin]%elem_of_app; [by apply R4|].
      by apply list_elem_of_singleton in Hin.
  - (* PositionAnswered *)
    destruct (ts !! n) as [[d| | | | |]|] eqn:Hn; try by intros [= <-].
    unfold getCurrentLocation_position.
    destruct location as [[latitude longitude]|code]; intros [= <-];
      unfold requests_inv;
      cbn [ed_screen ed_tasks ed_requests]; rewrite ?app_nil_r;
      (split; [done|]); (split; [|split]);
      try (intros d' [?|Hin]%elem_of_insert_inv; [done|]; by apply R2);
      try done.
    + intros id d' [Hin|Hin]%elem_of_app; [by apply R3|].
      by apply list_elem_of_singleton in Hin.
    + intros address [Hin|Hin]%elem_of_app; [by apply R4|].
      by apply list_elem_of_singleton in Hin.
  - (* ReverseAnswered *)
    destruct (ts !! n) as [[d| | | |latitude longitude|]|] eqn:Hn;
      try by intros [= <-].
    unfold getCurrentLocation_reverse, spread_draft.
    destruct addresses as [l|code];
      [destruct (editVideoData (interactionState s)) as [d|] eqn:Hd; [|done]|];
      cbn; intros [= <-]; unfold requests_inv;
      cbn [ed_screen ed_tasks ed_requests];
      (split; [|split; [|done]]);
      try (intros d' [?|Hin]%elem_of_insert_inv; [done|]; by apply R2).
    + cbn. intros d' [= <-]. exact (R1 _ eq_refl).
    + cbn. done.
Qed.

Lemma map_patch_field {A} (g : FeedEntry.t → A) videoId patch h prev :
  (∀ o e, g (FeedEntry.mk o (patch (FeedEntry.video e)) (FeedEntry.user e))
          = g e) →
  g <$> (map_patch videoId patch h prev).1 = g <$> prev.
Proof.
  intros Hg. revert h. induction prev as [|e rest IH]; intros h; [done|].
  cbn [map_patch].
  destruct (String.eqb (Video.id (FeedEntry.video e)) videoId).
  - specialize (IH (S h)).
    destruct (map_patch videoId patch (S h) rest) as [rest' h'].
    cbn [fst] in *. by rewrite !fmap_cons, IH, Hg.
  - specialize (IH h).
    destruct (map_patch videoId patch h rest) as [rest' h'].
    cbn [fst] in *. by rewrite !fmap_cons, IH.
Qed.

Lemma edit_frame_refl s : edit_frame s s.
Proof. by repeat split. Qed.

Lemma edit_frame_save d error s :
  edit_frame s (saveVideoChanges_settle d error s).
Proof.
  destruct (saveVideoChanges_settle_flags d error s) as (_ & _ & _ & _ & Hi & _).
  unfold saveVideoChanges_settle in *. destruct error; [by repeat split|].
  split; [apply videoState_patch|]. split; [done|].
  split; [cbn; unfold patchVideos; by destruct (map_patch _ _ _ _)|].
  split; [cbn; unfold patchVideos; by destruct (map_patch _ _ _ _)|].
  split; [cbn; unfold patchVideos; by destruct (map_patch _ _ _ _)|].
  split.
  - by apply (patchVideos_identity (EditVideoData.id d) (apply_draft d)).
  - change (videos (setSaving false (setEditModalVisible false
              (patchVideos (EditVideoData.id d) (apply_draft d) s))))
      with (videos (patchVideos (EditVideoData.id d) (apply_draft d) s)).
    rewrite videos_patch. by apply map_patch_field.
Qed.

Lemma edit_step_frame w e w' :
  edit_step w e = Some w' → edit_frame (ed_screen w) (ed_screen w').
Proof.
  destruct w as [s ts rs].
  destruct e as [p| | |text|text|text| | |n error| |n result| |n status
                |n location|n addresses];
    cbn [edit_step ed_screen ed_tasks ed_requests].
  - intros [= <-]. unfold pressEdit. destruct (videos s !! p); [|done].
    by destruct (bool_decide _).
  - by intros [= <-].
  - intros [= <-]. by destruct (bottomSheetVisible (interactionState s)).
  - unfold change_draft, spread_draft. cbn [ed_screen].
    destruct (in_modal s); [|by intros [= <-]].
    destruct (editVideoData (interactionState s)); [|done]. by intros [= <-].
  - unfold change_draft, spread_draft. cbn [ed_screen].
    destruct (in_modal s); [|by intros [= <-]].
    destruct (editVideoData (interactionState s)); [|done]. by intros [= <-].
  - unfold change_draft, spread_draft. cbn [ed_screen].
    destruct (in_modal s); [|by intros [= <-]].
    destruct (editVideoData (interactionState s)); [|done]. by intros [= <-].
  - by intros [= <-].
  - destruct (in_modal s && negb (saving (interactionState s)));
      [|by intros [= <-]].
    unfold saveVideoChanges_call.
    destruct (editVideoData (interactionState s)); by intros [= <-].
  - destruct (ts !! n) as [[d| | | | |]|]; try by intros [= <-].
    intros [= <-]. apply edit_frame_save.
  - destruct (in_modal s && negb (locationLoading (interactionState s)));
      [|by intros [= <-]].
    unfold searchAddress_call.
    destruct (editVideoData (interactionState s)) as [d|]; [|by intros [= <-]].
    destruct (trim_is_empty (EditVideoData.address d)); by intros [= <-].
  - destruct (ts !! n) as [[d| | | | |]|]; try by intros [= <-].
    unfold searchAddress_settle, spread_draft.
    destruct result as [[|[latitude longitude] more]|code];
      [|destruct (editVideoData (interactionState s)); [|done]|];
      cbn; by intros [= <-].
  - destruct (in_modal s && negb (locationLoading (interactionState s)));
      by intros [= <-].
  - destruct (ts !! n) as [[d| | | | |]|]; try by intros [= <-].
    unfold getCurrentLocation_permission.
    destruct status as [[]|code]; by intros [= <-].
  - destruct (ts !! n) as [[d| | | | |]|]; try by intros [= <-].
    unfold getCurrentLocation_position.
    destruct location as [[latitude longitude]|code]; by intros [= <-].
  - destruct (ts !! n) as [[d| | | |latitude longitude|]|];
      try by intros [= <-].
    unfold getCurrentLocation_reverse, spread_draft.
    destruct addresses as [l|code];
      [destruct (editVideoData (interactionState s)); [|done]|];
      cbn; by intros [= <-].
Qed.

(** Without an accepted update the feed is the very same array. *)
Lemma edit_step_videos w e w' :
  accepts_update e = false →
  edit_step w e = Some w' → videos (ed_screen w') = videos (ed_screen w).
Proof.
  destruct w as [s ts rs].
  destruct e as [p| | |text|text|text| | |n error| |n result| |n status
                |n location|n addresses];
    cbn [edit_step ed_screen ed_tasks ed_requests accepts_update]; intros Hacc.
  - intros [= <-]. unfold pressEdit. destruct (videos s !! p); [|done].
    by destruct (bool_decide _).
  - by intros [= <-].
  - intros [= <-]. by destruct (bottomSheetVisible (interactionState s)).
  - unfold change_draft, spread_draft. cbn [ed_screen].
    destruct (in_modal s); [|by intros [= <-]].
    destruct (editVideoData (interactionState s)); [|done]. by intros [= <-].
  - unfold change_draft, spread_draft. cbn [ed_screen].
    destruct (in_modal s); [|by intros [= <-]].
    destruct (editVideoData (interactionState s)); [|done]. by intros [= <-].
  - unfold change_draft, spread_draft. cbn [ed_screen].
    destruct (in_modal s); [|by intros [= <-]].
    destruct (editVideoData (interactionState s)); [|done]. by intros [= <-].
  - by intros [= <-].
  - destruct (in_modal s && negb (saving (interactionState s)));
      [|by intros [= <-]].
    unfold saveVideoChanges_call.
    destruct (editVideoData (interactionState s)); by intros [= <-].
  - destruct error; [|done].
    destruct (ts !! n) as [[d| | | | |]|]; by intros [= <-].
  - destruct (in_modal s && negb (locationLoading (interactionState s)));
      [|by intros [= <-]].
    unfold searchAddress_call.
    destruct (editVideoData (interactionState s)) as [d|]; [|by intros [= <-]].
    destruct (trim_is_empty (EditVideoData.address d)); by intros [= <-].
  - destruct (ts !! n) as [[d| | | | |]|]; try by intros [= <-].
    unfold searchAddress_settle, spread_draft.
    destruct result as [[|[latitude longitude] more]|code];
      [|destruct (editVideoData (interactionState s)); [|done]|];
      cbn; by intros [= <-].
  - destruct (in_modal s && negb (locationLoading (interactionState s)));
      by intros [= <-].
  - destruct (ts !! n) as [[d| | | | |]|]; try by intros [= <-].
    unfold getCurrentLocation_permission.
    destruct status as [[]|code]; by intros [= <-].
  - destruct (ts !! n) as [[d| | | | |]|]; try by intros [= <-].
    unfold getCurrentLocation_position.
    destruct location as [[latitude longitude]|code]; by intros [= <-].
  - destruct (ts !! n) as [[d| | | |latitude longitude|]|];
      try by intros [= <-].
    unfold getCurrentLocation_reverse, spread_draft.
    destruct addresses as [l|code];
      [destruct (editVideoData (interactionState s)); [|done]|];
      cbn; by intros [= <-].
Qed.

(** Loading the feed leaves the edit session as it was. *)
Lemma loadVideos_edit_flags be s :
  let i' := interactionState (loadVideos be s).1 in
  let i := interactionState s in
  editVideoData i' = editVideoData i
  ∧ bottomSheetVisible i' = bottomSheetVisible i
  ∧ editModalVisible i' = editModalVisible i
  ∧ locationLoading i' = locationLoading i
  ∧ saving i' = saving i.
Proof.
  unfold loadVideos. destruct (getUser be) as [user|]; [|done].
  destruct (select_videos be) as [videosData|code]; [|done].
  destruct (with_users be (heap (setError None s)) videosData) as [[vs h] r1].
  unfold checkUserInteractions.
  destruct (select_video_ids be "video_likes" user (Video.id <$> videosData));
    [|done].
  by destruct (select_video_ids be "video_bookmarks" user
                 (Video.id <$> videosData)).
Qed.

Lemma ready_edit_flags be :
  let i := interactionState (ready be) in
  editVideoData i = None
  ∧ bottomSheetVisible i = false
  ∧ editModalVisible i = false
  ∧ locationLoading i = false
  ∧ saving i = false.
Proof.
  pose proof (loadVideos_edit_flags be VideoScroll) as H.
  unfold ready, getCurrentUser. by destruct (getUser be).
Qed.

Lemma ready_flags_inv be : flags_inv (editing (ready be)).
Proof.
  destruct (ready_edit_flags be) as (H1 & H2 & H3 & H4 & H5).
  unfold flags_inv, in_flight, editing. cbn [ed_screen ed_tasks].
  rewrite H4, H5. by repeat split.
Qed.

Lemma ready_requests_inv be : requests_inv (editing (ready be)).
Proof.
  destruct (ready_edit_flags be) as (H1 & _).
  unfold requests_inv, editing. cbn [ed_screen ed_tasks ed_requests].
  repeat split.
  - intros d Hd. by rewrite H1 in Hd.
  - intros d Hd. by apply elem_of_nil in Hd.
  - by apply elem_of_nil in H.
  - by apply elem_of_nil in H.
  - intros a Ha. by apply elem_of_nil in Ha.
Qed.

Lemma edit_frame_trans s1 s2 s3 :
  edit_frame s1 s2 → edit_frame s2 s3 → edit_frame s1 s3.
Proof.
  intros (A1 & A2 & A3 & A4 & A5 & A6 & A7) (B1 & B2 & B3 & B4 & B5 & B6 & B7).
  unfold edit_frame. by rewrite B1, B2, B3, B4, B5, B6, B7.
Qed.

(** The edit session never gets stuck, and keeps its invariants. *)
Lemma edit_run_inv es : ∀ w,
  flags_inv w → requests_inv w →
  ∃ w', edit_run w es = Some w' ∧ flags_inv w' ∧ requests_inv w'
        ∧ edit_frame (ed_screen w) (ed_screen w').
Proof.
  induction es as [|e es IH]; intros w Hf Hr.
  - exists w. by split; [|split; [|split; [|apply edit_frame_refl]]].
  - destruct (flags_step w e Hf) as (w1 & Hstep & Hf1).
    pose proof (requests_step _ _ _ Hr Hstep) as Hr1.
    pose proof (edit_step_frame _ _ _ Hstep) as Hfr.
    destruct (IH w1 Hf1 Hr1) as (w' & Hrun & Hf' & Hr' & Hfr').
    exists w'. cbn [edit_run]. rewrite Hstep. cbn.
    split; [done|]. split; [done|]. split; [done|].
    by eapply edit_frame_trans.
Qed.

Lemma edit_run_videos es : ∀ w w',
  Forall (λ e, accepts_update e = false) es →
  edit_run w es = Some w' → videos (ed_screen w') = videos (ed_screen w).
Proof.
  induction es as [|e es IH]; intros w w' Hes; cbn [edit_run].
  - by intros [= <-].
  - apply Forall_cons in Hes as [He Hes].
    destruct (edit_step w e) as [w1|] eqn:Hstep; [|done]. cbn. intros Hrun.
    rewrite (IH _ _ Hes Hrun). by eapply edit_step_videos.
Qed.

(** Edit session: one call in flight, never stuck.  Whatever the
    author does in the edit session and however the backend and the location
    services answer, every setter finds a draft to write into, at most one
    location call (search or locate) and at most one save are in flight, and
    [locationLoading] and [saving] are true exactly while one is. *)
Theorem edit_session_single_flight (be : Backend) (es : list EditEvent) :
  ∃ w, edit_run (editing (ready be)) es = Some w
    ∧ in_flight is_location_task w
      = (if locationLoading (interactionState (ed_screen w))
         then 1%nat else 0%nat)
    ∧ in_flight is_update_task w
      = (if saving (interactionState (ed_screen w)) then 1%nat else 0%nat).
Proof.
  destruct (edit_run_inv es _ (ready_flags_inv be) (ready_requests_inv be))
    as (w & Hrun & (_ & Hl & Hs) & _).
  by exists w.
Qed.

(** Edit session: what is sent.  Every update the edit session sends
    names a video of the loaded feed whose author is the signed-in user, and
    carries the draft of that same video; no geocoding request is sent for
    an address that is empty or white space. *)
Theorem edit_session_requests (be : Backend) (es : list EditEvent) :
  ∃ w, edit_run (editing (ready be)) es = Some w
    ∧ (∀ id d, ToBackend (UpdateVideo id d) ∈ ed_requests w →
         owned (ready be) id ∧ EditVideoData.id d = id)
    ∧ (∀ address, GeocodeAddress address ∈ ed_requests w →
         trim_is_empty address = false).
Proof.
  destruct (edit_run_inv es _ (ready_flags_inv be) (ready_requests_inv be))
    as (w & Hrun & _ & (_ & _ & Hu & Hg) & Hfr).
  exists w. split; [done|]. split; [|done].
  intros id d Hin. destruct (Hu id d Hin) as [Hown Hid]. split; [|done].
  destruct Hfr as (_ & _ & Huser & _ & _ & Hident & _).
  cbn [editing ed_screen] in *.
  by apply (owned_identity (ed_screen w)).
Qed.

(** Edit session: what it leaves alone.  No event of the edit session,
    an accepted save included, changes the playback state, the like and
    bookmark flags, the signed-in user, the loading and error state, the
    counters of an entry, or its id, url, author, date and profile. *)
Theorem edit_session_frame (be : Backend) (es : list EditEvent) :
  ∃ w, edit_run (editing (ready be)) es = Some w
    ∧ videoState (ed_screen w) = videoState (ready be)
    ∧ interactions (interactionState (ed_screen w))
      = interactions (interactionState (ready be))
    ∧ currentUserId (ed_screen w) = currentUserId (ready be)
    ∧ loading (ed_screen w) = loading (ready be)
    ∧ error (ed_screen w) = error (ready be)
    ∧ identity_of <$> videos (ed_screen w) = identity_of <$> videos (ready be)
    ∧ counters_of <$> videos (ed_screen w) = counters_of <$> videos (ready be).
Proof.
  destruct (edit_run_inv es _ (ready_flags_inv be) (ready_requests_inv be))
    as (w & Hrun & _ & _ & Hfr).
  by exists w.
Qed.

(** Edit session: the draft stays local.  As long as the backend has
    accepted no update, the feed is the very array that was loaded: opening
    the sheet, typing, geocoding, locating and rejected saves write to the
    draft only. *)
Theorem draft_edits_stay_local (be : Backend) (es : list EditEvent) :
  Forall (λ e, accepts_update e = false) es →
  ∃ w, edit_run (editing (ready be)) es = Some w
    ∧ videos (ed_screen w) = videos (ready be).
Proof.
  intros Hes.
  destruct (edit_run_inv es _ (ready_flags_inv be) (ready_requests_inv be))
    as (w & Hrun & _).
  exists w. split; [done|]. by apply (edit_run_videos es (editing (ready be))).
Qed.

Lemma draft_edits_stay_local_witness :
  Forall (λ e, accepts_update e = false) rejected_session
  ∧ ∃ w, edit_run (editing (ready author_up)) rejected_session = Some w
      ∧ videos (ed_screen w) = videos (ready author_up).
Proof.
  assert (H : Forall (λ e, accepts_update e = false) rejected_session)
    by (repeat constructor).
  split; [exact H|]. exact (draft_edits_stay_local author_up rejected_session H).
Defined.

(** * The upload screen *)

Import Videos.

(** [trim()] on a title of the bytes of U+00A0, a space, "ab", U+3000 and a
    line feed; a title of U+00A0 alone is blank, one of U+200B is not. *)
Example trim_strips_unicode_space :
  let text l := String.string_of_list_ascii (Ascii.ascii_of_nat <$> l) in
  trim (text [194; 160; 32; 97; 98; 227; 128; 128; 10]%nat) = "ab"
  ∧ trim_is_empty (text [194; 160]%nat) = true
  ∧ trim_is_empty (text [226; 128; 139]%nat) = false
  ∧ trim " a b " = "a b".
Proof. vm_compute. repeat split. Qed.

Lemma foldl_progress_fields ps s :
  let s' := foldl (λ s' p, onUploadProgress p s') s ps in
  uploading s' = uploading s ∧ error s' = error s
  ∧ selectedVideo s' = selectedVideo s ∧ title s' = title s
  ∧ description s' = description s ∧ locationDetails s' = locationDetails s
  ∧ locationError s' = locationError s
  ∧ locationLoading s' = locationLoading s
  ∧ useCurrentLocation s' = useCurrentLocation s ∧ address s' = address s.
Proof.
  revert s. induction ps as [|p ps IH]; intros s; [done|].
  cbn [foldl]. specialize (IH (onUploadProgress p s)). cbn in IH.
  by destruct IH as (-> & -> & -> & -> & -> & -> & -> & -> & -> & ->).
Qed.

(** PickVideo.  A call of pickVideo writes the selection and the
    error and nothing else.  It selects the first asset when the permission
    is granted, the picker is not cancelled and the reported size, taken as
    0 when absent, is at most 104857600 bytes, so a file of exactly 100 MB
    passes although the message says less than; in every other case the
    previous selection stays, with an error unless the picker was cancelled
    or gave no asset. *)
Theorem pickVideo_outcomes (permissionResult : Answer bool)
    (result : Answer PickerResult) (s : State) :
  let s' := (pickVideo permissionResult result s).1 in
  setError (error s) (setSelectedVideo (selectedVideo s) s') = s
  ∧ match permissionResult, result with
    | Data true, Data (Assets (video :: _)) =>
        if or_default (Asset.fileSize video) 0 <=? MAX_VIDEO_SIZE
        then selectedVideo s' = Some (details_of video) ∧ error s' = None
        else selectedVideo s' = selectedVideo s
             ∧ error s' = Some "Video size must be less than 100MB"
    | Data true, Data _ => selectedVideo s' = selectedVideo s ∧ error s' = None
    | _, _ => selectedVideo s' = selectedVideo s ∧ is_Some (error s')
    end.
Proof.
  destruct s as [u p e v t d l le ll uc a].
  destruct permissionResult as [[]|code]; cbn; [|by eauto|by eauto].
  destruct result as [[|[|video rest]]|code]; cbn; [done|done| |by eauto].
  unfold too_large, or_default.
  destruct (Asset.fileSize video) as [n|]; [|done].
  destruct (Z.eqb_spec n 0) as [->|Hn]; [done|]. cbn.
  destruct (Z.ltb_spec MAX_VIDEO_SIZE n), (Z.leb_spec n MAX_VIDEO_SIZE);
    try lia; done.
Qed.

Ltac not_among H :=
  repeat (apply elem_of_cons in H as [H|H]; [discriminate H|]);
  by apply elem_of_nil in H.

(** HandleUpload.  A call of handleUpload sends nothing unless a
    video is selected and the title is not blank.  Once started it always
    ends with uploading false.  The form is reset, and the success alert
    shown, exactly when every collaborator answered well; in every other
    case the selection, the title, the description, the address and the
    location are kept for a retry and an error is shown. *)
Theorem handleUpload_outcomes (os : Platform) (publicUrl : string → string)
    (a : Answers) (s : State) :
  let s' := (handleUpload os publicUrl a s).1 in
  let rs := (handleUpload os publicUrl a s).2 in
  (rs = [] ↔ form_ready s = false)
  ∧ (form_ready s = true → uploading s' = false)
  ∧ locationError s' = locationError s
  ∧ locationLoading s' = locationLoading s
  ∧ if form_ready s && answers_good os a
    then selectedVideo s' = None ∧ title s' = EmptyString
         ∧ description s' = EmptyString ∧ address s' = EmptyString
         ∧ locationDetails s' = None ∧ useCurrentLocation s' = false
         ∧ error s' = None ∧ uploadProgress s' = 0
         ∧ last rs = Some (Alert "Success" "Video uploaded successfully!")
    else selectedVideo s' = selectedVideo s ∧ title s' = title s
         ∧ description s' = description s ∧ address s' = address s
         ∧ locationDetails s' = locationDetails s
         ∧ useCurrentLocation s' = useCurrentLocation s
         ∧ is_Some (error s')
         ∧ ∀ heading message, Alert heading message ∉ rs.
Proof.
  unfold handleUpload, handleUpload_call, form_ready.
  destruct (selectedVideo s) as [v|] eqn:Hv.
  2:{ cbn. rewrite Hv. repeat split; eauto; try done. intros h m H. not_among H. }
  destruct (trim_is_empty (title s)) eqn:Ht.
  { cbn. rewrite Hv. repeat split; eauto; try done. intros h m H. not_among H. }
  destruct a as [user uuid response blob progress uploaded inserted].
  unfold answers_good. cbn [Videos.user Videos.uuid Videos.response Videos.blob
    Videos.progress Videos.uploaded Videos.inserted negb andb].
  pose proof (foldl_progress_fields progress
    (setUploadProgress 0 (setError None (setUploading true s)))) as Hp.
  cbn zeta in Hp. destruct Hp as (P1 & P2 & P3 & P4 & P5 & P6 & P7 & P8 & P9 & P10).
  cbn in P1, P2, P3, P4, P5, P6, P7, P8, P9, P10.
  destruct user as [id|], os, response as [[]|m1], blob as [b|m2],
    uploaded as [|m3|m3], inserted as [[]|m4];
    cbn -[foldl includes text_or trim];
    rewrite ?P1, ?P2, ?P3, ?P4, ?P5, ?P6, ?P7, ?P8, ?P9, ?P10, ?Hv;
    (split; [done|]); (split; [done|]); (split; [done|]); (split; [done|]);
    first [ by repeat split; eauto
          | repeat (split; [by eauto|]); intros h m H; not_among H ].
Qed.

#[local] Arguments includes : simpl never.
#[local] Arguments text_or : simpl never.
#[local] Arguments trim : simpl never.
#[local] Arguments trim_is_empty : simpl never.
#[local] Arguments formatAddress : simpl never.

Lemma flags_ok_intro s ts rs :
  length (filter (λ t, is_upload t = true) ts)
  = (if uploading s then 1%nat else 0%nat) →
  length (filter (λ t, is_location t = true) ts)
  = (if locationLoading s then 1%nat else 0%nat) →
  flags_ok (mkUploader s ts rs).
Proof. by split. Qed.

Ltac flags_replace Hn t' :=
  let H1 := fresh "C" in let H2 := fresh "C" in
  pose proof (count_insert is_upload _ _ _ t' Hn) as H1;
  pose proof (count_insert is_location _ _ _ t' Hn) as H2;
  cbn [is_upload is_location] in H1, H2.

Ltac flags_fields :=
  unfold start, continue, with_state, onUploadProgress in *;
  cbn [uploading locationLoading useCurrentLocation setUploading
       setUploadProgress setError setSelectedVideo setTitle setDescription
       setLocationDetails setLocationError setLocationLoading
       setUseCurrentLocation setAddress state tasks requests
       start continue with_state] in *.

Ltac flags_close :=
  flags_fields; rewrite ?count_snoc; cbn [is_upload is_location];
  repeat match goal with
         | H : context [if ?b then _ else _] |- _ => destruct b eqn:?
         | |- context [if ?b then _ else _] => destruct b eqn:?
         end; try congruence; try lia.

Lemma effect_flags before w :
  flags_ok w →
  (before = false → useCurrentLocation (state w) = true →
   locationLoading (state w) = false) →
  flags_ok (useCurrentLocation_effect before w).
Proof.
  intros [Hu Hl] Hside. destruct w as [s ts rs].
  unfold in_flight, useCurrentLocation_effect in *. flags_fields.
  destruct before, (useCurrentLocation s) eqn:Hnow; cbn [Bool.eqb];
    unfold getCurrentLocation_call; flags_fields.
  - by apply flags_ok_intro.
  - by apply flags_ok_intro.
  - specialize (Hside eq_refl eq_refl). rewrite Hside in Hl.
    apply flags_ok_intro; flags_close.
  - by apply flags_ok_intro.
Qed.

Ltac flags_same :=
  split; [apply flags_ok_intro; flags_close|flags_fields; congruence].

Ltac flags_answered Hn :=
  flags_fields;
  match goal with
  | |- context [<[ _ := ?t']> _] => flags_replace Hn t'
  end;
  split; [apply flags_ok_intro; flags_close|intros; flags_close].

Lemma handle_flags env w e :
  flags_ok w →
  flags_ok (handle env w e)
  ∧ (useCurrentLocation (state w) = false →
     useCurrentLocation (state (handle env w e)) = true →
     locationLoading (state (handle env w e)) = false).
Proof.
  intros [Hu Hl]. destruct w as [s ts rs].
  unfold in_flight in *. cbn [state tasks] in *.
  destruct e as [|n permissionResult|n result|text|text|text| |n status
                |n location|n addresses| |n geocodeResult| |n user uuid
                |n response|n blob|n percentage|n answer|n dbError];
    cbn [handle state tasks requests].
  - (* PressPick *)
    destruct (uploading s) eqn:Hup; unfold pickVideo_call; flags_fields.
    + flags_same.
    + split; [apply flags_ok_intro; flags_close|congruence].
  - (* MediaPermissionAnswered *)
    destruct (ts !! n) as [[]|] eqn:Hn; try flags_same.
    destruct permissionResult as [[]|code]; cbn [pickVideo_permission];
      flags_answered Hn.
  - (* LibraryAnswered *)
    destruct (ts !! n) as [[]|] eqn:Hn; try flags_same.
    unfold pickVideo_result.
    destruct result as [[|[|video rest]]|code]; try destruct (too_large video);
      flags_answered Hn.
  - flags_same.
  - flags_same.
  - flags_same.
  - (* PressCurrentLocation *)
    destruct (locationLoading s) eqn:Hll; [flags_same|].
    flags_fields. split; [apply flags_ok_intro; flags_close|done].
  - (* PermissionAnswered *)
    destruct (ts !! n) as [[]|] eqn:Hn; try flags_same.
    unfold getCurrentLocation_permission, getCurrentLocation_failed.
    destruct status as [[]|code]; flags_answered Hn.
  - (* PositionAnswered *)
    destruct (ts !! n) as [[]|] eqn:Hn; try flags_same.
    unfold getCurrentLocation_position, getCurrentLocation_failed.
    destruct location as [[latitude longitude]|code]; flags_answered Hn.
  - (* ReverseAnswered *)
    destruct (ts !! n) as [[]|] eqn:Hn; try flags_same.
    unfold getCurrentLocation_reverse, getCurrentLocation_failed.
    destruct addresses as [l|code]; flags_answered Hn.
  - (* PressSearch *)
    destruct (useCurrentLocation s || locationLoading s
              || trim_is_empty (address s)) eqn:Hguard; [flags_same|].
    apply orb_false_elim in Hguard as [Hguard Hblank].
    apply orb_false_elim in Hguard as [Hcur Hll].
    unfold searchAddress_call. rewrite Hblank. flags_fields.
    split; [apply flags_ok_intro; flags_close|congruence].
  - (* GeocodeAnswered *)
    destruct (ts !! n) as [[]|] eqn:Hn; try flags_same.
    unfold searchAddress_settle.
    destruct geocodeResult as [[|[latitude longitude] more]|code];
      flags_answered Hn.
  - (* PressUpload *)
    destruct (uploading s) eqn:Hup; [flags_same|].
    unfold handleUpload_call.
    destruct (selectedVideo s) as [v|]; [|flags_fields; split;
      [apply flags_ok_intro; flags_close|congruence]].
    destruct (trim_is_empty (title s));
      flags_fields; (split; [apply flags_ok_intro; flags_close|congruence]).
  - (* UserAnswered *)
    destruct (ts !! n) as [[]|] eqn:Hn; try flags_same.
    unfold handleUpload_user, failed.
    destruct user as [id|]; [destruct (os env)|]; flags_answered Hn.
  - (* FetchAnswered *)
    destruct (ts !! n) as [[| |c|c []| | |latitude longitude|searched|]|] eqn:Hn; try flags_same.
    unfold handleUpload_fetched, failed.
    destruct response as [[]|message]; flags_answered Hn.
  - (* BlobAnswered *)
    destruct (ts !! n) as [[| |c|c []| | |latitude longitude|searched|]|] eqn:Hn; try flags_same.
    unfold handleUpload_blob, failed.
    destruct blob as [content|message]; flags_answered Hn.
  - (* UploadProgress *)
    destruct (ts !! n) as [[| |c|c []| | |latitude longitude|searched|]|] eqn:Hn; flags_same.
  - (* UploadAnswered *)
    destruct (ts !! n) as [[| |c|c []| | |latitude longitude|searched|]|] eqn:Hn; try flags_same.
    unfold handleUpload_uploaded, failed.
    destruct answer as [|message|message]; flags_answered Hn.
  - (* InsertAnswered *)
    destruct (ts !! n) as [[| |c|c []| | |latitude longitude|searched|]|] eqn:Hn; try flags_same.
    unfold handleUpload_inserted, failed, succeeded.
    destruct dbError as [[]|message]; flags_answered Hn.
Qed.

Lemma step_flags env w e : flags_ok w → flags_ok (step env w e).
Proof.
  intros Hw. destruct (handle_flags env w e Hw) as [Hh Hside].
  unfold step. apply effect_flags; [done|].
  intros Hb Hnow. by apply Hside.
Qed.

Lemma too_large_within video :
  too_large video = false → within_limit (Asset.fileSize video).
Proof.
  unfold too_large, within_limit, or_default, MAX_VIDEO_SIZE.
  destruct (Asset.fileSize video) as [n|]; [|lia].
  destruct (Z.eqb_spec n 0) as [->|Hn]; [lia|]. cbn.
  destruct (Z.ltb_spec (100 * 1024 * 1024) n); [done|lia].
Qed.

Lemma closures_replace (P : Closure → Prop) (ts : list Task) (n : nat) t t' :
  ts !! n = Some t →
  (∀ c, closure_of t' = Some c → closure_of t = Some c) →
  (∀ x c, x ∈ ts → closure_of x = Some c → P c) →
  ∀ x c, x ∈ <[n := t']> ts → closure_of x = Some c → P c.
Proof.
  intros Hn Hsame Hts x c [->|Hx]%elem_of_insert_inv Hc.
  - apply (Hts t); [by eapply list_elem_of_lookup_2|by apply Hsame].
  - by apply (Hts x).
Qed.

Lemma closures_snoc (P : Closure → Prop) (ts : list Task) t' :
  (∀ c, closure_of t' = Some c → P c) →
  (∀ x c, x ∈ ts → closure_of x = Some c → P c) →
  ∀ x c, x ∈ ts ++ [t'] → closure_of x = Some c → P c.
Proof.
  intros Hnew Hts x c [Hx|Hx]%elem_of_app Hc; [by apply (Hts x)|].
  apply list_elem_of_singleton in Hx as ->. by apply Hnew.
Qed.

Lemma gate_ok_intro s ts rs :
  (∀ v, selectedVideo s = Some v → within_limit (VideoDetails.size v)) →
  (∀ t c, t ∈ ts → closure_of t = Some c →
          within_limit (VideoDetails.size (c_selectedVideo c))
          ∧ trim_is_empty (c_title c) = false) →
  gate_ok (mkUploader s ts rs).
Proof. by split. Qed.

Ltac state_fields :=
  flags_fields;
  cbn [uploadProgress error selectedVideo title description locationDetails
       locationError address uploading locationLoading useCurrentLocation
       setUploading setUploadProgress setError setSelectedVideo setTitle
       setDescription setLocationDetails setLocationError setLocationLoading
       setUseCurrentLocation setAddress] in *.

Ltac gate_same := flags_fields; apply gate_ok_intro; state_fields; done.

Ltac gate_answered Hn Ht :=
  flags_fields; apply gate_ok_intro;
  [state_fields; try done
  |eapply closures_replace; [exact Hn| |exact Ht];
   intros c' Hc; cbn in Hc; done].

Lemma effect_gate before w :
  gate_ok w → gate_ok (useCurrentLocation_effect before w).
Proof.
  intros [Hs Ht]. destruct w as [s ts rs].
  unfold useCurrentLocation_effect. cbn [state tasks requests] in *.
  destruct (Bool.eqb before (useCurrentLocation s)); [gate_same|].
  destruct (useCurrentLocation s); flags_fields.
  - apply gate_ok_intro; [done|].
    apply closures_snoc; [by intros c' [=]|done].
  - gate_same.
Qed.

Lemma handle_gate env w e : gate_ok w → gate_ok (handle env w e).
Proof.
  intros [Hs Ht]. destruct w as [s ts rs]. cbn [state tasks] in *.
  destruct e as [|n permissionResult|n result|text|text|text| |n status
                |n location|n addresses| |n geocodeResult| |n user uuid
                |n response|n blob|n percentage|n answer|n dbError];
    cbn [handle state tasks requests].
  - (* PressPick *)
    destruct (uploading s); [gate_same|].
    unfold pickVideo_call. flags_fields. apply gate_ok_intro; [done|].
    apply closures_snoc; [by intros c' [=]|done].
  - (* MediaPermissionAnswered *)
    destruct (ts !! n) as [[]|] eqn:Hn; try gate_same.
    destruct permissionResult as [[]|code]; cbn [pickVideo_permission];
      gate_answered Hn Ht.
  - (* LibraryAnswered *)
    destruct (ts !! n) as [[]|] eqn:Hn; try gate_same.
    unfold pickVideo_result.
    destruct result as [[|[|video rest]]|code];
      try destruct (too_large video) eqn:Hsize;
      gate_answered Hn Ht.
    intros v [= <-]. by apply too_large_within.
  - gate_same.
  - gate_same.
  - gate_same.
  - (* PressCurrentLocation *)
    destruct (locationLoading s); gate_same.
  - (* PermissionAnswered *)
    destruct (ts !! n) as [[]|] eqn:Hn; try gate_same.
    unfold getCurrentLocation_permission, getCurrentLocation_failed.
    destruct status as [[]|code]; gate_answered Hn Ht.
  - (* PositionAnswered *)
    destruct (ts !! n) as [[]|] eqn:Hn; try gate_same.
    unfold getCurrentLocation_position, getCurrentLocation_failed.
    destruct location as [[latitude longitude]|code]; gate_answered Hn Ht.
  - (* ReverseAnswered *)
    destruct (ts !! n) as [[]|] eqn:Hn; try gate_same.
    unfold getCurrentLocation_reverse, getCurrentLocation_failed.
    destruct addresses as [l|code]; gate_answered Hn Ht.
  - (* PressSearch *)
    destruct (useCurrentLocation s || locationLoading s
              || trim_is_empty (address s)) eqn:Hguard; [gate_same|].
    apply orb_false_elim in Hguard as [_ Hblank].
    unfold searchAddress_call. rewrite Hblank. flags_fields.
    apply gate_ok_intro; [done|].
    apply closures_snoc; [by intros c' [=]|done].
  - (* GeocodeAnswered *)
    destruct (ts !! n) as [[]|] eqn:Hn; try gate_same.
    unfold searchAddress_settle.
    destruct geocodeResult as [[|[latitude longitude] more]|code];
      gate_answered Hn Ht.
  - (* PressUpload *)
    destruct (uploading s); [gate_same|].
    unfold handleUpload_call.
    destruct (selectedVideo s) as [v|] eqn:Hv.
    2:{ state_fields. apply gate_ok_intro; [|done].
        intros v0 Hv0. state_fields. by rewrite Hv in Hv0. }
    assert (Hs' : ∀ v0, selectedVideo s = Some v0 →
                        within_limit (VideoDetails.size v0))
      by (intros v0 Hv0; apply Hs; by rewrite <- Hv0, Hv).
    destruct (trim_is_empty (title s)) eqn:Hblank;
      flags_fields; (apply gate_ok_intro; state_fields; [done|]); [done|].
    apply closures_snoc; [|done].
    intros c' [= <-]. cbn. split; [by apply Hs|done].
  - (* UserAnswered *)
    destruct (ts !! n) as [[]|] eqn:Hn; try gate_same.
    unfold handleUpload_user, failed.
    destruct user as [id|]; [destruct (os env)|]; gate_answered Hn Ht.
  - (* FetchAnswered *)
    destruct (ts !! n) as [[| |c|c []| | |latitude longitude|searched|]|] eqn:Hn;
      try gate_same.
    unfold handleUpload_fetched, failed.
    destruct response as [[]|message]; gate_answered Hn Ht.
  - (* BlobAnswered *)
    destruct (ts !! n) as [[| |c|c []| | |latitude longitude|searched|]|] eqn:Hn;
      try gate_same.
    unfold handleUpload_blob, failed.
    destruct blob as [content|message]; gate_answered Hn Ht.
  - (* UploadProgress *)
    destruct (ts !! n) as [[| |c|c []| | |latitude longitude|searched|]|] eqn:Hn;
      gate_same.
  - (* UploadAnswered *)
    destruct (ts !! n) as [[| |c|c []| | |latitude longitude|searched|]|] eqn:Hn;
      try gate_same.
    unfold handleUpload_uploaded, failed.
    destruct answer as [|message|message]; gate_answered Hn Ht.
  - (* InsertAnswered *)
    destruct (ts !! n) as [[| |c|c []| | |latitude longitude|searched|]|] eqn:Hn;
      try gate_same.
    unfold handleUpload_inserted, failed, succeeded.
    destruct dbError as [[]|message]; gate_answered Hn Ht.
Qed.

Lemma step_gate env w e : gate_ok w → gate_ok (step env w e).
Proof. intros Hw. unfold step. by apply effect_gate, handle_gate. Qed.

Lemma task_ok_more env known rs new t :
  task_ok env known rs t → task_ok env known (rs ++ new) t.
Proof.
  destruct t as [| |c|c [id u|id u|id u| |]| | |latitude longitude|searched|];
    try done.
  intros [(fileData & Hreq & Hfile) Hknown]. split; [|done].
  exists fileData. split; [|done]. apply elem_of_app. by left.
Qed.

Lemma requests_ok_known env (known known' : string → string → Prop) w :
  (∀ id u, known id u → known' id u) →
  requests_ok env known w → requests_ok env known' w.
Proof.
  intros Hmore (R1 & R2 & R3). split; [|split; [|done]].
  - intros t Ht. specialize (R1 t Ht).
    destruct t as [| |c|c [id u|id u|id u| |]| | |latitude longitude|searched|];
      try done; cbn [task_ok] in *.
    + destruct R1. split; [done|by apply Hmore].
    + destruct R1. split; [done|by apply Hmore].
    + destruct R1. split; [done|by apply Hmore].
  - intros d Hd.
    destruct (R2 d Hd) as (c & id & u & fileData & -> & H1 & H2 & H3 & H4).
    exists c, id, u, fileData. split; [done|]. split; [done|].
    split; [done|]. split; [by apply Hmore|done].
Qed.

Lemma requests_ok_grow env known s s' (ts ts' : list Task) rs new :
  requests_ok env known (mkUploader s ts rs) →
  (∀ t, t ∈ ts' → t ∈ ts ∨ task_ok env known (rs ++ new) t) →
  (∀ c, (∃ t, t ∈ ts ∧ closure_of t = Some c) →
        ∃ t, t ∈ ts' ∧ closure_of t = Some c) →
  (∀ d, InsertVideo d ∈ new →
     ∃ c id u, d = row_of env id u c
       ∧ UploadAt c (AwaitUpload id u) ∈ ts
       ∧ ∃ t, t ∈ ts' ∧ closure_of t = Some c) →
  (∀ a, GeocodeAddress a ∈ new → trim_is_empty a = false) →
  requests_ok env known (mkUploader s' ts' (rs ++ new)).
Proof.
  intros (R1 & R2 & R3) Hup Hhold Hins Hgeo.
  cbn [state tasks requests] in *. split; [|split].
  - intros t Hin. cbn [tasks requests] in *.
    destruct (Hup t Hin) as [Hold|Hnew]; [|done].
    by apply task_ok_more, R1.
  - intros d Hd. cbn [tasks requests] in *.
    apply elem_of_app in Hd as [Hd|Hd].
    + destruct (R2 d Hd)
        as (c & id & u & fileData & -> & Hreq & Hfile & Hknown & Hholder).
      exists c, id, u, fileData. split; [done|].
      split; [apply elem_of_app; by left|]. split; [done|].
      split; [done|by apply Hhold].
    + destruct (Hins d Hd) as (c & id & u & -> & Htask & Hholder).
      destruct (R1 _ Htask) as [(fileData & Hreq & Hfile) Hknown].
      exists c, id, u, fileData. split; [done|].
      split; [apply elem_of_app; by left|done].
  - intros a Ha. cbn [requests] in *.
    apply elem_of_app in Ha as [Ha|Ha]; [by apply R3|by apply Hgeo].
Qed.

Lemma requests_ok_state env known s s' ts rs :
  requests_ok env known (mkUploader s ts rs) →
  requests_ok env known (mkUploader s' ts rs).
Proof. done. Qed.

Lemma tasks_replace (P : Task → Prop) (ts : list Task) (n : nat) t' :
  P t' → ∀ t, t ∈ <[n := t']> ts → t ∈ ts ∨ P t.
Proof.
  intros Hnew t [->|Hin]%elem_of_insert_inv; [by right|by left].
Qed.

Lemma tasks_snoc (P : Task → Prop) (ts : list Task) t' :
  P t' → ∀ t, t ∈ ts ++ [t'] → t ∈ ts ∨ P t.
Proof.
  intros Hnew t [Hin|Hin]%elem_of_app; [by left|].
  apply list_elem_of_singleton in Hin as ->. by right.
Qed.

Lemma holders_replace (ts : list Task) (n : nat) t t' :
  ts !! n = Some t →
  (∀ c, closure_of t = Some c → closure_of t' = Some c) →
  ∀ c, (∃ x, x ∈ ts ∧ closure_of x = Some c) →
       ∃ x, x ∈ <[n := t']> ts ∧ closure_of x = Some c.
Proof.
  intros Hn Hsame c (x & (j & Hj)%list_elem_of_lookup & Hc).
  destruct (decide (j = n)) as [->|Hjn].
  - exists t'. split.
    + apply (list_elem_of_lookup_2 _ n), list_lookup_insert_Some. left.
      split; [done|]. split; [done|]. by eapply lookup_lt_Some.
    + apply Hsame. by replace t with x by congruence.
  - exists x. split; [|done].
    apply (list_elem_of_lookup_2 _ j), list_lookup_insert_Some. right.
    split; [done|done].
Qed.

Lemma holders_snoc (ts : list Task) t' :
  ∀ c, (∃ x, x ∈ ts ∧ closure_of x = Some c) →
       ∃ x, x ∈ ts ++ [t'] ∧ closure_of x = Some c.
Proof.
  intros c (x & Hx & Hc). exists x. split; [|done].
  apply elem_of_app. by left.
Qed.

Lemma holder_at (ts : list Task) (n : nat) t t' c :
  ts !! n = Some t → closure_of t' = Some c →
  ∃ x, x ∈ <[n := t']> ts ∧ closure_of x = Some c.
Proof.
  intros Hn Hc. exists t'. split; [|done].
  apply (list_elem_of_lookup_2 _ n), list_lookup_insert_Some. left.
  split; [done|]. split; [done|]. by eapply lookup_lt_Some.
Qed.

Ltac among H :=
  repeat (apply elem_of_cons in H as [H|H]; [try discriminate H|]);
  try (by apply elem_of_nil in H).

Ltac requests_same := unfold with_state; by eapply requests_ok_state.

Ltac requests_answered Hw Hn :=
  unfold continue; cbn [state tasks requests];
  eapply requests_ok_grow;
  [exact Hw
  |eapply tasks_replace; cbn [task_ok]; try done
  |eapply holders_replace; [exact Hn|intros c' Hc; cbn in Hc |- *; done]
  |intros d Hd; among Hd
  |intros a Ha; among Ha].

Ltac requests_started Hw :=
  unfold start; cbn [state tasks requests];
  eapply requests_ok_grow;
  [exact Hw
  |by eapply tasks_snoc
  |eapply holders_snoc
  |intros d Hd; among Hd
  |intros a Ha; among Ha].

Lemma effect_requests env known before w :
  requests_ok env known w →
  requests_ok env known (useCurrentLocation_effect before w).
Proof.
  intros Hw. destruct w as [s ts rs].
  unfold useCurrentLocation_effect. cbn [state tasks requests] in *.
  destruct (Bool.eqb before (useCurrentLocation s)); [done|].
  destruct (useCurrentLocation s); [|requests_same].
  requests_started Hw.
Qed.

Lemma handle_requests env known w e :
  (∀ n id u, e = UserAnswered n (Some id) u → known id u) →
  requests_ok env known w → requests_ok env known (handle env w e).
Proof.
  intros Hknown Hw. pose proof Hw as (R1 & _). destruct w as [s ts rs].
  cbn [tasks requests] in R1.
  destruct e as [|n permissionResult|n result|text|text|text| |n status
                |n location|n addresses| |n geocodeResult| |n user uuid
                |n response|n blob|n percentage|n answer|n dbError];
    cbn [handle state tasks requests].
  - (* PressPick *)
    destruct (uploading s); [done|].
    unfold pickVideo_call. requests_started Hw.
  - (* MediaPermissionAnswered *)
    destruct (ts !! n) as [[]|] eqn:Hn; try done.
    destruct permissionResult as [[]|code]; cbn [pickVideo_permission];
      requests_answered Hw Hn.
  - (* LibraryAnswered *)
    destruct (ts !! n) as [[]|] eqn:Hn; try done.
    requests_answered Hw Hn.
  - requests_same.
  - requests_same.
  - requests_same.
  - (* PressCurrentLocation *)
    destruct (locationLoading s); [done|requests_same].
  - (* PermissionAnswered *)
    destruct (ts !! n) as [[]|] eqn:Hn; try done.
    unfold getCurrentLocation_permission.
    destruct status as [[]|code]; requests_answered Hw Hn.
  - (* PositionAnswered *)
    destruct (ts !! n) as [[]|] eqn:Hn; try done.
    unfold getCurrentLocation_position.
    destruct location as [[latitude longitude]|code]; requests_answered Hw Hn.
  - (* ReverseAnswered *)
    destruct (ts !! n) as [[]|] eqn:Hn; try done.
    requests_answered Hw Hn.
  - (* PressSearch *)
    destruct (useCurrentLocation s || locationLoading s
              || trim_is_empty (address s)) eqn:Hguard; [done|].
    apply orb_false_elim in Hguard as [_ Hblank].
    unfold searchAddress_call. rewrite Hblank.
    requests_started Hw. by injection Ha as ->.
  - (* GeocodeAnswered *)
    destruct (ts !! n) as [[]|] eqn:Hn; try done.
    requests_answered Hw Hn.
  - (* PressUpload *)
    destruct (uploading s); [done|].
    unfold handleUpload_call.
    destruct (selectedVideo s) as [v|]; [|requests_same].
    destruct (trim_is_empty (title s)); [requests_same|].
    requests_started Hw.
  - (* UserAnswered *)
    destruct (ts !! n) as [[]|] eqn:Hn; try done.
    unfold handleUpload_user.
    pose proof (Hknown n) as Hk.
    destruct user as [id|]; [destruct (os env) eqn:Hos|];
      requests_answered Hw Hn.
    + split; [done|]. by apply Hk.
    + split; [|by apply Hk].
      eexists.
      split; [apply elem_of_app; right; by apply list_elem_of_singleton|].
      by rewrite Hos.
  - (* FetchAnswered *)
    destruct (ts !! n)
      as [[| |c|c [id u|id u|id u| |]| | |latitude longitude|searched|]|] eqn:Hn;
      try done.
    unfold handleUpload_fetched.
    destruct response as [[]|message]; requests_answered Hw Hn.
    exact (R1 _ (list_elem_of_lookup_2 _ _ _ Hn)).
  - (* BlobAnswered *)
    destruct (ts !! n)
      as [[| |c|c [id u|id u|id u| |]| | |latitude longitude|searched|]|] eqn:Hn;
      try done.
    unfold handleUpload_blob.
    destruct blob as [content|message]; requests_answered Hw Hn.
    pose proof (R1 _ (list_elem_of_lookup_2 _ _ _ Hn)) as [Hweb Hk].
    split; [|done]. eexists.
    split; [apply elem_of_app; right; by apply list_elem_of_singleton|].
    rewrite Hweb. by eexists.
  - (* UploadProgress *)
    destruct (ts !! n)
      as [[| |c|c [id u|id u|id u| |]| | |latitude longitude|searched|]|] eqn:Hn;
      done.
  - (* UploadAnswered *)
    destruct (ts !! n)
      as [[| |c|c [id u|id u|id u| |]| | |latitude longitude|searched|]|] eqn:Hn;
      try done.
    unfold handleUpload_uploaded.
    destruct answer as [|message|message]; requests_answered Hw Hn.
    injection Hd as ->. exists c, id, u. split; [done|].
    split; [by eapply list_elem_of_lookup_2|].
    by eapply holder_at.
  - (* InsertAnswered *)
    destruct (ts !! n)
      as [[| |c|c [id u|id u|id u| |]| | |latitude longitude|searched|]|] eqn:Hn;
      try done.
    unfold handleUpload_inserted.
    destruct dbError as [[]|message]; requests_answered Hw Hn.
Qed.

Lemma step_requests env known w e :
  (∀ n id u, e = UserAnswered n (Some id) u → known id u) →
  requests_ok env known w → requests_ok env known (step env w e).
Proof.
  intros Hknown Hw. unfold step. by apply effect_requests, handle_requests.
Qed.

Lemma lastIndexOf_from_spec c l : ∀ i found,
  ((c ∉ l) ∧ lastIndexOf_from c l i found = found)
  ∨ (∃ k : nat, l !! k = Some c ∧ (c ∉ drop (S k) l)
       ∧ lastIndexOf_from c l i found = i + Z.of_nat k).
Proof.
  induction l as [|x l IH]; intros i found; cbn [lastIndexOf_from].
  - left. split; [apply not_elem_of_nil|done].
  - destruct (IH (i + 1) (if Ascii.eqb x c then i else found))
      as [[Hnot Heq]|(k & Hk & Hrest & Heq)].
    + destruct (Ascii.eqb_spec x c) as [->|Hxc].
      * right. exists 0%nat. split; [done|]. split; [done|].
        rewrite Heq. lia.
      * left. split; [|done]. apply not_elem_of_cons. by split.
    + right. exists (S k). split; [done|]. split; [done|].
      rewrite Heq. lia.
Qed.

Lemma string_of_list_ascii_app l1 l2 :
  String.string_of_list_ascii (l1 ++ l2)
  = String.string_of_list_ascii l1 +:+ String.string_of_list_ascii l2.
Proof. induction l1 as [|c l1 IH]; [done|]. cbn. by rewrite IH. Qed.

Lemma run_snoc env w es e :
  run env w (es ++ [e]) = step env (run env w es) e.
Proof. unfold run. by rewrite foldl_app. Qed.



Lemma run_inv env es :
  flags_ok (run env mounted es) ∧ gate_ok (run env mounted es)
  ∧ requests_ok env (answered es) (run env mounted es).
Proof.
  induction es as [|e es IH] using rev_ind.
  - split; [done|]. split.
    { split; [by intros v Hv|]. intros t c Ht. by apply elem_of_nil in Ht. }
    split; [|split].
    + intros t H. by apply elem_of_nil in H.
    + intros d H. by apply elem_of_nil in H.
    + intros a H. by apply elem_of_nil in H.
  - destruct IH as (Hf & Hg & Hr). rewrite run_snoc.
    split; [by apply step_flags|]. split; [by apply step_gate|].
    apply step_requests.
    + intros n id u ->. exists n. apply elem_of_app. right.
      by apply list_elem_of_singleton.
    + revert Hr. apply requests_ok_known.
      intros id u [n Hn]. exists n. apply elem_of_app. by left.
Qed.

(** Upload screen: one call in flight.  Whatever is pressed and
    however the collaborators answer, at most one upload and at most one
    location call (current location or address search) are in flight, and
    uploading and locationLoading are true exactly while one is. *)
Theorem upload_single_flight (env : Env) (es : list Event) :
  let w := run env mounted es in
  in_flight is_upload w = (if uploading (state w) then 1%nat else 0%nat)
  ∧ in_flight is_location w
    = (if locationLoading (state w) then 1%nat else 0%nat).
Proof. by destruct (run_inv env es) as (Hf & _). Qed.

(** Upload screen: the size limit holds.  At every moment the selected
    video, and the selection that every upload read when it was started, has
    a reported size of at most 104857600 bytes (no size counts as 0), and
    every upload was started with a title that is not blank. *)
Theorem selection_within_limit (env : Env) (es : list Event) :
  let w := run env mounted es in
  (∀ v, selectedVideo (state w) = Some v →
        or_default (VideoDetails.size v) 0 ≤ MAX_VIDEO_SIZE)
  ∧ (∀ t c, t ∈ tasks w → closure_of t = Some c →
       or_default (VideoDetails.size (c_selectedVideo c)) 0 ≤ MAX_VIDEO_SIZE
       ∧ trim_is_empty (c_title c) = false).
Proof. by destruct (run_inv env es) as (_ & Hg & _). Qed.


(** File extension.  The extension that handleUpload puts in the file
    name holds no full stop.  When the uri has none, the extension is the
    whole uri; otherwise the uri ends with a full stop followed by the
    extension. *)
Theorem ext_of_after_last_stop (uri : string) :
  let stop := Ascii.ascii_of_nat 46 in
  (stop ∉ String.list_ascii_of_string (ext_of uri))
  ∧ (stop ∉ String.list_ascii_of_string uri → ext_of uri = uri)
  ∧ (stop ∈ String.list_ascii_of_string uri →
     ∃ before, uri = before +:+ "." +:+ ext_of uri).
Proof.
  cbv zeta. unfold ext_of, substring_from, lastIndexOf.
  set (stop := Ascii.ascii_of_nat 46).
  destruct (lastIndexOf_from_spec stop (String.list_ascii_of_string uri) 0 (-1))
    as [[Hnot ->]|(k & Hk & Hrest & ->)].
  - change (Z.to_nat (-1 + 1)) with 0%nat. rewrite drop_0.
    rewrite String.string_of_list_ascii_of_string.
    split; [done|]. split; [done|]. intros Hin. by destruct Hnot.
  - replace (Z.to_nat (0 + Z.of_nat k + 1)) with (S k) by lia.
    rewrite String.list_ascii_of_string_of_list_ascii.
    split; [done|]. split.
    + intros Hnot. destruct Hnot. by eapply list_elem_of_lookup_2.
    + intros _.
      exists (String.string_of_list_ascii
                (take k (String.list_ascii_of_string uri))).
      rewrite <- (String.string_of_list_ascii_of_string uri) at 1.
      rewrite <- (take_drop_middle _ _ _ Hk) at 1.
      by rewrite string_of_list_ascii_app.
Qed.

Lemma no_location_in_flight (ts : list Task) :
  length (filter (λ t, is_location t = true) ts) = 0%nat →
  ∀ t, t ∈ ts → is_location t = false.
Proof.
  intros Hlen t Ht.
  destruct (is_location t) eqn:Hloc; [|done].
  assert (Hin : t ∈ filter (λ t, is_location t = true) ts)
    by (apply list_elem_of_filter; by split).
  destruct (filter (λ t, is_location t = true) ts); [|done].
  by apply elem_of_nil in Hin.
Qed.

Lemma switch_ok_intro s ts rs :
  (∀ a, AwaitGeocode a ∈ ts → useCurrentLocation s = false) →
  (useCurrentLocation s = true → locationLoading s = false →
   is_Some (locationDetails s)) →
  switch_ok (mkUploader s ts rs).
Proof. by split. Qed.

(** An event that leaves the switch, the flag and the location alone and
    starts no search. *)
Lemma switch_neutral w w' :
  switch_ok w →
  useCurrentLocation (state w') = useCurrentLocation (state w) →
  locationLoading (state w') = locationLoading (state w) →
  locationDetails (state w') = locationDetails (state w) →
  (∀ a, AwaitGeocode a ∈ tasks w' → AwaitGeocode a ∈ tasks w) →
  switch_ok (useCurrentLocation_effect (useCurrentLocation (state w)) w').
Proof.
  intros [Hg Hs] Hu Hl Hd Hts. unfold useCurrentLocation_effect. cbv zeta.
  rewrite Hu, Bool.eqb_reflx. split.
  - intros a Ha. rewrite Hu. by apply (Hg a), Hts.
  - rewrite Hu, Hl, Hd. exact Hs.
Qed.

Lemma geocode_replace (ts : list Task) (n : nat) t' :
  (∀ a, t' ≠ AwaitGeocode a) →
  ∀ a, AwaitGeocode a ∈ <[n := t']> ts → AwaitGeocode a ∈ ts.
Proof.
  intros Hnot a [Heq|Hin]%elem_of_insert_inv; [|done].
  by destruct (Hnot a).
Qed.

Lemma geocode_snoc (ts : list Task) t' :
  (∀ a, t' ≠ AwaitGeocode a) →
  ∀ a, AwaitGeocode a ∈ ts ++ [t'] → AwaitGeocode a ∈ ts.
Proof.
  intros Hnot a [Hin|Hin]%elem_of_app; [done|].
  apply list_elem_of_singleton in Hin. by destruct (Hnot a).
Qed.

Ltac switch_neutral_answered :=
  match goal with
  | Hw : switch_ok ?w |- _ =>
      apply (switch_neutral w); [done|done|done|done|];
      unfold continue; cbn [tasks]; by apply geocode_replace
  end.

(** The event ends with the switch off. *)
Ltac switch_off s :=
  unfold useCurrentLocation_effect, continue, with_state, start;
  state_fields;
  destruct (useCurrentLocation s) eqn:?; cbn [Bool.eqb];
  state_fields; apply switch_ok_intro; state_fields;
  first [done|intros; congruence].

Lemma step_switch env w e :
  flags_ok w → switch_ok w → switch_ok (step env w e).
Proof.
  intros [_ Hl] Hw. pose proof Hw as [Hg Hs]. destruct w as [s ts rs].
  unfold in_flight in *. cbn [state tasks] in *. unfold step.
  destruct e as [|n permissionResult|n result|text|text|text| |n status
                |n location|n addresses| |n geocodeResult| |n user uuid
                |n response|n blob|n percentage|n answer|n dbError];
    cbn [handle state tasks requests].
  - (* PressPick *)
    destruct (uploading s); [by apply (switch_neutral (mkUploader s ts rs))|].
    apply (switch_neutral (mkUploader s ts rs)); [done|done|done|done|].
    unfold start. cbn [tasks pickVideo_call]. by apply geocode_snoc.
  - (* MediaPermissionAnswered *)
    destruct (ts !! n) as [[]|] eqn:Hn; try by apply (switch_neutral (mkUploader s ts rs)).
    destruct permissionResult as [[]|code]; cbn [pickVideo_permission];
      switch_neutral_answered.
  - (* LibraryAnswered *)
    destruct (ts !! n) as [[]|] eqn:Hn; try by apply (switch_neutral (mkUploader s ts rs)).
    unfold pickVideo_result.
    destruct result as [[|[|video rest]]|code]; try destruct (too_large video);
      switch_neutral_answered.
  - by apply (switch_neutral (mkUploader s ts rs)).
  - by apply (switch_neutral (mkUploader s ts rs)).
  - by apply (switch_neutral (mkUploader s ts rs)).
  - (* PressCurrentLocation *)
    destruct (locationLoading s) eqn:Hll; [by apply (switch_neutral (mkUploader s ts rs))|].
    pose proof (no_location_in_flight ts Hl) as Hnone.
    unfold useCurrentLocation_effect, with_state. state_fields.
    destruct (useCurrentLocation s) eqn:Hcur; cbn [Bool.eqb negb];
      unfold getCurrentLocation_call; state_fields; apply switch_ok_intro;
      state_fields; try done.
    intros a [Ha|Ha]%elem_of_app; [by apply Hnone in Ha|].
    by apply list_elem_of_singleton in Ha.
  - (* PermissionAnswered *)
    destruct (ts !! n) as [[]|] eqn:Hn;
      try by apply (switch_neutral (mkUploader s ts rs)).
    unfold getCurrentLocation_permission, getCurrentLocation_failed.
    destruct status as [[]|code]; [switch_neutral_answered|switch_off s|switch_off s].
  - (* PositionAnswered *)
    destruct (ts !! n) as [[]|] eqn:Hn;
      try by apply (switch_neutral (mkUploader s ts rs)).
    unfold getCurrentLocation_position, getCurrentLocation_failed.
    destruct location as [[latitude longitude]|code];
      [switch_neutral_answered|switch_off s].
  - (* ReverseAnswered *)
    destruct (ts !! n) as [[]|] eqn:Hn;
      try by apply (switch_neutral (mkUploader s ts rs)).
    unfold getCurrentLocation_reverse, getCurrentLocation_failed.
    destruct addresses as [l|code]; [|switch_off s].
    unfold useCurrentLocation_effect, continue. state_fields.
    rewrite Bool.eqb_reflx. apply switch_ok_intro; state_fields; [|by eauto].
    intros a Ha. apply (Hg a). revert a Ha. by apply geocode_replace.
  - (* PressSearch *)
    destruct (useCurrentLocation s || locationLoading s
              || trim_is_empty (address s)) eqn:Hguard;
      [by apply (switch_neutral (mkUploader s ts rs))|].
    apply orb_false_elim in Hguard as [Hguard Hblank].
    apply orb_false_elim in Hguard as [Hcur Hll].
    unfold searchAddress_call. rewrite Hblank. switch_off s.
  - (* GeocodeAnswered *)
    destruct (ts !! n) as [[| | | | | | |searched|]|] eqn:Hn;
      try by apply (switch_neutral (mkUploader s ts rs)).
    assert (Hcur : useCurrentLocation s = false)
      by (apply (Hg searched); by eapply list_elem_of_lookup_2).
    unfold searchAddress_settle.
    destruct geocodeResult as [[|[latitude longitude] more]|code];
      switch_off s.
  - (* PressUpload *)
    destruct (uploading s); [by apply (switch_neutral (mkUploader s ts rs))|].
    unfold handleUpload_call.
    destruct (selectedVideo s) as [v|];
      [|by apply (switch_neutral (mkUploader s ts rs))].
    destruct (trim_is_empty (title s));
      [by apply (switch_neutral (mkUploader s ts rs))|].
    apply (switch_neutral (mkUploader s ts rs)); [done|done|done|done|].
    unfold start. cbn [tasks]. by apply geocode_snoc.
  - (* UserAnswered *)
    destruct (ts !! n) as [[]|] eqn:Hn;
      try by apply (switch_neutral (mkUploader s ts rs)).
    unfold handleUpload_user, failed.
    destruct user as [id|]; [destruct (os env)|]; switch_neutral_answered.
  - (* FetchAnswered *)
    destruct (ts !! n)
      as [[| |c|c [id u|id u|id u| |]| | |latitude longitude|searched|]|] eqn:Hn;
      try by apply (switch_neutral (mkUploader s ts rs)).
    unfold handleUpload_fetched, failed.
    destruct response as [[]|message]; switch_neutral_answered.
  - (* BlobAnswered *)
    destruct (ts !! n)
      as [[| |c|c [id u|id u|id u| |]| | |latitude longitude|searched|]|] eqn:Hn;
      try by apply (switch_neutral (mkUploader s ts rs)).
    unfold handleUpload_blob, failed.
    destruct blob as [content|message]; switch_neutral_answered.
  - (* UploadProgress *)
    destruct (ts !! n)
      as [[| |c|c [id u|id u|id u| |]| | |latitude longitude|searched|]|] eqn:Hn;
      by apply (switch_neutral (mkUploader s ts rs)).
  - (* UploadAnswered *)
    destruct (ts !! n)
      as [[| |c|c [id u|id u|id u| |]| | |latitude longitude|searched|]|] eqn:Hn;
      try by apply (switch_neutral (mkUploader s ts rs)).
    unfold handleUpload_uploaded, failed.
    destruct answer as [|message|message]; switch_neutral_answered.
  - (* InsertAnswered *)
    destruct (ts !! n)
      as [[| |c|c [id u|id u|id u| |]| | |latitude longitude|searched|]|] eqn:Hn;
      try by apply (switch_neutral (mkUploader s ts rs)).
    unfold handleUpload_inserted, failed, succeeded.
    destruct dbError as [[]|message]; [switch_off s|switch_neutral_answered].
Qed.

Lemma run_switch env es : switch_ok (run env mounted es).
Proof.
  induction es as [|e es IH] using rev_ind.
  - split; [|done]. intros a Ha. by apply elem_of_nil in Ha.
  - rewrite run_snoc. destruct (run_inv env es) as (Hf & _).
    by apply step_switch.
Qed.

(** Upload screen: the current-location switch.  Whenever the switch is on
    and no location call is loading, a location is attached to the form: a
    failed location call and a finished upload turn the switch off when
    they leave the form without one.  An address search is never in flight
    while the switch is on. *)
Theorem current_location_switch (env : Env) (es : list Event) :
  let w := run env mounted es in
  (useCurrentLocation (state w) = true →
   locationLoading (state w) = false →
   is_Some (locationDetails (state w)))
  ∧ (∀ a, AwaitGeocode a ∈ tasks w → useCurrentLocation (state w) = false).
Proof. destruct (run_switch env es) as [Hg Hs]. by split. Qed.
